(** * mcproto: the wire codec of package [protocol]

    A shallow embedding of the Go sources [types.go], [varint.go] and of the
    split package files (string/position and packet codecs), followed by the
    properties of the codec.

    Conventions of the embedding.
    - A Go [byte] is a [Byte.byte]; [b2z] and [z2b] are the conversions
      [uint64(b)] and [byte(v)].
    - Go's [int] is an unbounded [Z]: every [int] of the code is a length, an
      index or a sum of two of them, far from the 64-bit limits.
    - [uint64], [uint32], [int64], [int32] and [int16] values are [Z] with the
      wrap-around written out ([u64], [u32], [i64], [i32], [i16]).
    - An [error] result is [option error], [None] being [nil].
    - A run-time panic is the outcome [Panic] of the type [go].
    - A function that writes into its [buf] argument returns the new contents
      of [buf] next to its results; for the packet codec, whose result keeps a
      slice, buffers live in a [heap] of backing arrays. *)

From Stdlib Require Import ZArith List Lia Bool.
From Stdlib.Strings Require Import Byte.
Import ListNotations.
Local Open Scope Z_scope.

(** ** Go values *)

Inductive go (A : Type) : Type :=
| Done (a : A)
| Panic.
Arguments Done {A} a.
Arguments Panic {A}.

Definition bind {A B} (m : go A) (k : A -> go B) : go B :=
  match m with
  | Done a => k a
  | Panic => Panic
  end.

Notation "x <- m ;; k" := (bind m (fun x => k))
  (at level 61, m at next level, right associativity).
Notation "' p <- m ;; k" := (bind m (fun p => k))
  (at level 61, p pattern, m at next level, right associativity).

Inductive error : Type :=
| errBufTooSmall
| errValueTooLarge
| errStringTooLong.

Definition u64 (z : Z) : Z := z mod 2 ^ 64.
Definition u32 (z : Z) : Z := z mod 2 ^ 32.
Definition i64 (z : Z) : Z := (z + 2 ^ 63) mod 2 ^ 64 - 2 ^ 63.
Definition i32 (z : Z) : Z := (z + 2 ^ 31) mod 2 ^ 32 - 2 ^ 31.
Definition i16 (z : Z) : Z := (z + 2 ^ 15) mod 2 ^ 16 - 2 ^ 15.

Definition is_int32 (z : Z) : Prop := - 2 ^ 31 <= z < 2 ^ 31.
Definition is_int64 (z : Z) : Prop := - 2 ^ 63 <= z < 2 ^ 63.

Definition MaxInt16 : Z := 32767.
Definition MaxInt32 : Z := 2147483647.

Definition b2z (b : byte) : Z := Z.of_N (Byte.to_N b).

Definition z2b (z : Z) : byte :=
  match Byte.of_N (Z.to_N (z mod 256)) with
  | Some b => b
  | None => x00
  end.

Definition len (buf : list byte) : Z := Z.of_nat (length buf).

(** [buf[i]]: an index out of range panics. *)
Definition index (buf : list byte) (i : Z) : go byte :=
  if (0 <=? i) && (i <? len buf)
  then match nth_error buf (Z.to_nat i) with
       | Some b => Done b
       | None => Panic
       end
  else Panic.

Fixpoint set_nth (buf : list byte) (i : nat) (b : byte) : list byte :=
  match buf, i with
  | [], _ => []
  | _ :: t, O => b :: t
  | a :: t, S j => a :: set_nth t j b
  end.

(** [buf[i] = b]: an index out of range panics. *)
Definition assign (buf : list byte) (i : Z) (b : byte) : go (list byte) :=
  if (0 <=? i) && (i <? len buf)
  then Done (set_nth buf (Z.to_nat i) b)
  else Panic.

(** The contents of [buf[lo:hi]]; [buf[lo:]] is [buf[lo:len(buf)]].  A slice
    expression panics unless [0 <= lo <= hi <= cap(buf)]; every slice
    expression of the code is taken with [hi <= len(buf)] already established,
    so the upper bound is checked against the length. *)
Definition slice_range (buf : list byte) (lo hi : Z) : go (list byte) :=
  if (0 <=? lo) && (lo <=? hi) && (hi <=? len buf)
  then Done (firstn (Z.to_nat (hi - lo)) (skipn (Z.to_nat lo) buf))
  else Panic.

Definition slice_from (buf : list byte) (lo : Z) : go (list byte) :=
  slice_range buf lo (len buf).

(** The contents of [buf] after its part [buf[lo:]] has become [tail]. *)
Definition write_from (buf : list byte) (lo : Z) (tail : list byte) : list byte :=
  firstn (Z.to_nat lo) buf ++ tail.

(** [copy(dst, src)] on contents: the first [min(len dst, len src)] bytes of
    [dst] are overwritten; the count is returned. *)
Definition copy (dst src : list byte) : list byte * Z :=
  let m := Nat.min (length dst) (length src) in
  (firstn m src ++ skipn m dst, Z.of_nat m).

(** ** Constants of the VarInt codec *)

Definition cbits : Z := 7.
Definition msb : Z := Z.shiftl 1 cbits.
Definition cmask : Z := msb - 1.
Definition maxIntBytes : Z := 5.
Definition maxLongBytes : Z := 10.

(** [x << s] and [x >> s] on [uint64], [x >> s] on [int64]; the count [s] is
    unsigned.  A left shift by 64 or more gives 0, as [u64] does here. *)
Definition shl64 (x s : Z) : Z := u64 (Z.shiftl x s).
Definition shr64 (x s : Z) : Z := Z.shiftr x s.
Definition sar64 (x s : Z) : Z := Z.shiftr x s.

(** math/bits.Len64: the minimum number of bits required to represent [x];
    the result is 0 for [x = 0]. *)
Definition Len64 (x : Z) : Z := if x =? 0 then 0 else Z.log2 x + 1.

(** encoding/binary.BigEndian.Uint64 and PutUint64. *)
Definition BigEndian_Uint64 (b : list byte) : go Z :=
  _ <- index b 7 ;;
  b7 <- index b 7 ;; b6 <- index b 6 ;; b5 <- index b 5 ;; b4 <- index b 4 ;;
  b3 <- index b 3 ;; b2 <- index b 2 ;; b1 <- index b 1 ;; b0 <- index b 0 ;;
  Done (Z.lor (Z.lor (Z.lor (Z.lor (Z.lor (Z.lor (Z.lor
    (b2z b7) (shl64 (b2z b6) 8)) (shl64 (b2z b5) 16)) (shl64 (b2z b4) 24))
    (shl64 (b2z b3) 32)) (shl64 (b2z b2) 40)) (shl64 (b2z b1) 48))
    (shl64 (b2z b0) 56)).

Definition BigEndian_PutUint64 (b : list byte) (v : Z) : go (list byte) :=
  _ <- index b 7 ;;
  b <- assign b 0 (z2b (shr64 v 56)) ;;
  b <- assign b 1 (z2b (shr64 v 48)) ;;
  b <- assign b 2 (z2b (shr64 v 40)) ;;
  b <- assign b 3 (z2b (shr64 v 32)) ;;
  b <- assign b 4 (z2b (shr64 v 24)) ;;
  b <- assign b 5 (z2b (shr64 v 16)) ;;
  b <- assign b 6 (z2b (shr64 v 8)) ;;
  assign b 7 (z2b v).

(** ** Slices that outlive a call: a heap of backing arrays

    A [slice] names its backing array, its offset in it, its length and its
    capacity.  Two slices alias when they share the array. *)

Record slice : Type := mkslice {
  base : nat;
  off : nat;
  slen : nat;
  scap : nat
}.

Definition nil_slice : slice := mkslice 0 0 0 0.

Definition heap : Type := list (list byte).

Definition array (h : heap) (a : nat) : list byte := nth a h [].

Definition load (h : heap) (s : slice) : list byte :=
  firstn (slen s) (skipn (off s) (array h (base s))).

Fixpoint set_array (h : heap) (a : nat) (bs : list byte) : heap :=
  match h, a with
  | [], _ => []
  | _ :: t, O => bs :: t
  | c :: t, S a' => c :: set_array t a' bs
  end.

(** The bytes of [s] become [bs] (as many as [s] has). *)
Definition store (h : heap) (s : slice) (bs : list byte) : heap :=
  let a := array h (base s) in
  set_array h (base s)
    (firstn (off s) a ++ firstn (slen s) bs ++ skipn (off s + slen s) a).

(** [make([]byte, n)]: a fresh zeroed array; a negative [n] panics
    (makeslice: len out of range). *)
Definition make (h : heap) (n : Z) : go (heap * slice) :=
  if n <? 0 then Panic
  else Done (h ++ [repeat x00 (Z.to_nat n)],
             mkslice (length h) 0 (Z.to_nat n) (Z.to_nat n)).

(** [s[lo:hi]]: panics unless [0 <= lo <= hi <= cap(s)]. *)
Definition reslice (s : slice) (lo hi : Z) : go slice :=
  if (0 <=? lo) && (lo <=? hi) && (hi <=? Z.of_nat (scap s))
  then Done (mkslice (base s) (off s + Z.to_nat lo) (Z.to_nat (hi - lo))
                     (scap s - Z.to_nat lo))
  else Panic.

(** [copy(dst, src)] between slices of the heap; the source is read before
    the destination is written, as [copy] handles overlap. *)
Definition copy_slice (h : heap) (dst src : slice) : heap * Z :=
  let '(bs, m) := copy (load h dst) (load h src) in
  (store h dst bs, m).

(** A function that writes into the contents of its argument, run on a slice
    of the heap. *)
Definition in_place {A} (h : heap) (s : slice)
    (f : list byte -> go (list byte * A)) : go (heap * A) :=
  '(bs, r) <- f (load h s) ;;
  Done (store h s bs, r).

(** ** The loops of [getVarN] and [putVarN]

    [types.go] and [varint.go] have the same two loops,
    [for i := 0; i < len(buf) && i < maxBytes; i++], and differ in the code
    that follows them, which is the parameter [after] here.  The loop is
    entered with the index [i] and the value [v].  [fuel] bounds the
    iterations left: the callers give it [length buf], which the loop
    condition [i < len(buf)] never lets it exceed. *)

Fixpoint getVarN_loop (after : go (Z * Z * option error))
    (fuel : nat) (buf : list byte) (maxBytes i v : Z)
  : go (Z * Z * option error) :=
  match fuel with
  | O => after
  | S fuel' =>
      if (i <? len buf) && (i <? maxBytes) then
        b <- index buf i ;;
        let v' := Z.lor v (shl64 (Z.land (b2z b) cmask) (u64 (i * cbits))) in
        if Z.land (b2z b) msb =? 0
        then Done (v', i + 1, None)
        else getVarN_loop after fuel' buf maxBytes (i + 1) v'
      else after
  end.

(** [v &^ cmask] is [Z.ldiff v cmask]; [after] receives the buffer as the
    loop leaves it. *)
Fixpoint putVarN_loop
    (after : list byte -> Z -> go (list byte * (Z * option error)))
    (fuel : nat) (buf : list byte) (maxBytes i v : Z)
  : go (list byte * (Z * option error)) :=
  match fuel with
  | O => after buf maxBytes
  | S fuel' =>
      if (i <? len buf) && (i <? maxBytes) then
        if Z.ldiff v cmask =? 0 then
          buf' <- assign buf i (z2b v) ;;
          Done (buf', (i + 1, None))
        else
          buf' <- assign buf i (z2b (Z.lor v msb)) ;;
          putVarN_loop after fuel' buf' maxBytes (i + 1) (Z.shiftr v cbits)
      else after buf maxBytes
  end.

(** [lenVarN], [lenVarInt] and [lenVarLong] are the same text in both files.
    Go's [/] on [int] truncates towards zero: [Z.quot]. *)
Definition lenVarN (v : Z) : Z := 1 + Z.quot (Len64 v - 1) cbits.

Definition lenVarInt (v : Z) : Z := lenVarN (u64 (u32 v)).

Definition lenVarLong (v : Z) : Z := lenVarN (u64 v).

(** ** types.go *)

Module types.

(** The code after the loop of [getVarN]. *)
Definition getVarN_after (buf : list byte) (maxBytes : Z)
  : go (Z * Z * option error) :=
  if len buf <? maxBytes
  then Done (0, len buf, Some errBufTooSmall)
  else Done (0, maxBytes, Some errValueTooLarge).

Definition getVarN (buf : list byte) (maxBytes : Z) : go (Z * Z * option error) :=
  getVarN_loop (getVarN_after buf maxBytes) (length buf) buf maxBytes 0 0.

Definition getVarInt (buf : list byte) : go (Z * Z * option error) :=
  '(_v, n, err) <- getVarN buf maxIntBytes ;;
  Done (i32 _v, n, err).

Definition getVarLong (buf : list byte) : go (Z * Z * option error) :=
  '(_v, n, err) <- getVarN buf maxLongBytes ;;
  Done (i64 _v, n, err).

(** The code after the loop of [putVarN]. *)
Definition putVarN_after (buf : list byte) (maxBytes : Z)
  : go (list byte * (Z * option error)) :=
  if len buf <? maxBytes
  then Done (buf, (len buf, Some errBufTooSmall))
  else Done (buf, (maxBytes, Some errValueTooLarge)).

Definition putVarN (buf : list byte) (v maxBytes : Z)
  : go (list byte * (Z * option error)) :=
  putVarN_loop putVarN_after (length buf) buf maxBytes 0 v.

Definition putVarInt (buf : list byte) (v : Z) : go (list byte * (Z * option error)) :=
  putVarN buf (u64 (u32 v)) maxIntBytes.

Definition putVarLong (buf : list byte) (v : Z) : go (list byte * (Z * option error)) :=
  putVarN buf (u64 v) maxLongBytes.

(** A Go [string] is its bytes. *)
Definition getString (buf : list byte) : go (list byte * Z * option error) :=
  '(length, m, err) <- getVarInt buf ;;
  let n := 0 + m in
  match err with
  | Some _ => Done ([], n, err)
  | None =>
      if length >? MaxInt16 then Done ([], n, Some errValueTooLarge)
      else if len buf <? n + length then Done ([], n, Some errBufTooSmall)
      else
        s <- slice_range buf n (n + length) ;;
        Done (s, n + length, None)
  end.

Definition putString (buf : list byte) (s : list byte)
  : go (list byte * (Z * option error)) :=
  let length := len s in
  if length >? MaxInt16 then Done (buf, (0, Some errValueTooLarge))
  else
    '(buf1, (m, err)) <- putVarInt buf (i32 length) ;;
    let n := 0 + m in
    match err with
    | Some _ => Done (buf1, (n, err))
    | None =>
        tail <- slice_from buf1 n ;;
        let '(tail', m) := copy tail s in
        let buf2 := write_from buf1 n tail' in
        let n := n + m in
        if m <? len s then Done (buf2, (n, Some errBufTooSmall))
        else Done (buf2, (n, None))
    end.

Definition positionLen : Z := 8.

Record position : Type := mkposition {
  x : Z;  (* int32, size=26, offset=38 *)
  y : Z;  (* int16, size=12, offset=26 *)
  z : Z   (* int32, size=26, offset=0 *)
}.

Definition position_zero : position := mkposition 0 0 0.

(** [size] and [offset] are [uint]: the subtractions wrap. *)
Definition getField (n size offset : Z) : Z :=
  sar64 (i64 (shl64 n (u64 (64 - (size + offset))))) (u64 (64 - size)).

Definition putField (n size offset : Z) : Z :=
  shr64 (shl64 (u64 n) (u64 (64 - size))) (u64 (64 - (size + offset))).

Definition getPosition (buf : list byte) : go (position * Z * option error) :=
  if len buf <? positionLen
  then Done (position_zero, len buf, Some errBufTooSmall)
  else
    v <- BigEndian_Uint64 buf ;;
    let px := i32 (getField v 26 38) in
    let py := i16 (getField v 12 26) in
    let pz := i32 (getField v 26 0) in
    Done (mkposition px py pz, positionLen, None).

Definition putPosition (buf : list byte) (p : position)
  : go (list byte * (Z * option error)) :=
  if len buf <? positionLen
  then Done (buf, (len buf, Some errBufTooSmall))
  else
    let v := 0 in
    let v := Z.lor v (putField (i64 (x p)) 26 38) in
    let v := Z.lor v (putField (i64 (y p)) 12 26) in
    let v := Z.lor v (putField (i64 (z p)) 26 0) in
    buf' <- BigEndian_PutUint64 buf v ;;
    Done (buf', (positionLen, None)).

Record packet : Type := mkpacket {
  id : Z;        (* int32 *)
  data : slice   (* []byte *)
}.

Definition packet_zero : packet := mkpacket 0 nil_slice.

Definition getPacket (h : heap) (buf : slice)
  : go (heap * (packet * Z * option error)) :=
  '(length, m, err) <- getVarInt (load h buf) ;;
  let n := 0 + m in
  match err with
  | Some _ => Done (h, (packet_zero, n, err))
  | None =>
      tail <- reslice buf n (Z.of_nat (slen buf)) ;;
      '(id, m, err) <- getVarInt (load h tail) ;;
      let n := n + m in
      match err with
      | Some _ => Done (h, (packet_zero, n, err))
      | None =>
          let l := length - m in
          if Z.of_nat (slen buf) <? n + l
          then Done (h, (packet_zero, n, Some errBufTooSmall))
          else
            '(h1, data) <- make h l ;;
            src <- reslice buf n (n + l) ;;
            let '(h2, c) := copy_slice h1 data src in
            Done (h2, (mkpacket id data, n + c, None))
      end
  end.

Definition putPacket (h : heap) (buf : slice) (p : packet)
  : go (heap * (Z * option error)) :=
  let length := lenVarInt (id p) + Z.of_nat (slen (data p)) in
  if length >? MaxInt32 then Done (h, (0, Some errValueTooLarge))
  else
    '(h1, (m, err)) <- in_place h buf (fun b => putVarInt b (i32 length)) ;;
    let n := 0 + m in
    match err with
    | Some _ => Done (h1, (n, err))
    | None =>
        tail <- reslice buf n (Z.of_nat (slen buf)) ;;
        '(h2, (m, err)) <- in_place h1 tail (fun b => putVarInt b (id p)) ;;
        let n := n + m in
        match err with
        | Some _ => Done (h2, (n, err))
        | None =>
            tail <- reslice buf n (Z.of_nat (slen buf)) ;;
            let '(h3, m) := copy_slice h2 tail (data p) in
            let n := n + m in
            if m <? Z.of_nat (slen (data p))
            then Done (h3, (n, Some errBufTooSmall))
            else Done (h3, (n, None))
        end
    end.

End types.

(** ** varint.go

    [lenVarN], [lenVarInt] and [lenVarLong] are the same text as in
    [types.go]. *)

Module varint.

Definition getVarN_after (buf : list byte) (maxBytes : Z)
  : go (Z * Z * option error) :=
  if len buf <? maxBytes
  then Done (0, maxBytes, Some errBufTooSmall)
  else Done (0, maxBytes, Some errValueTooLarge).

Definition getVarN (buf : list byte) (maxBytes : Z) : go (Z * Z * option error) :=
  getVarN_loop (getVarN_after buf maxBytes) (length buf) buf maxBytes 0 0.

Definition getVarInt (buf : list byte) : go (Z * Z * option error) :=
  '(_v, n, err) <- getVarN buf maxIntBytes ;;
  Done (i32 _v, n, err).

Definition getVarLong (buf : list byte) : go (Z * Z * option error) :=
  '(_v, n, err) <- getVarN buf maxLongBytes ;;
  Done (i64 _v, n, err).

Definition putVarN_after (buf : list byte) (maxBytes : Z)
  : go (list byte * (Z * option error)) :=
  if len buf <? maxBytes
  then Done (buf, (maxBytes, Some errBufTooSmall))
  else Done (buf, (maxBytes, Some errValueTooLarge)).

Definition putVarN (buf : list byte) (v maxBytes : Z)
  : go (list byte * (Z * option error)) :=
  putVarN_loop putVarN_after (length buf) buf maxBytes 0 v.

Definition putVarInt (buf : list byte) (v : Z) : go (list byte * (Z * option error)) :=
  putVarN buf (u64 (u32 v)) maxIntBytes.

Definition putVarLong (buf : list byte) (v : Z) : go (list byte * (Z * option error)) :=
  putVarN buf (u64 v) maxLongBytes.

End varint.

(** ** The string codec of the split package (with [errStringTooLong]),
    which calls the VarInt codec of [varint.go] *)

Module strings.

Definition getString (buf : list byte) : go (list byte * Z * option error) :=
  '(length, m, err) <- varint.getVarInt buf ;;
  let n := 0 + m in
  match err with
  | Some _ => Done ([], n, err)
  | None =>
      if length >? MaxInt16 then Done ([], n, Some errStringTooLong)
      else if len buf <? n + length then Done ([], n, Some errBufTooSmall)
      else
        s <- slice_range buf n (n + length) ;;
        Done (s, n + length, None)
  end.

Definition putString (buf : list byte) (s : list byte)
  : go (list byte * (Z * option error)) :=
  let length := len s in
  if length >? MaxInt16 then Done (buf, (0, Some errStringTooLong))
  else
    '(buf1, (m, err)) <- varint.putVarInt buf (i32 length) ;;
    let n := 0 + m in
    match err with
    | Some _ => Done (buf1, (n, err))
    | None =>
        tail <- slice_from buf1 n ;;
        let '(tail', m) := copy tail s in
        let buf2 := write_from buf1 n tail' in
        let n := n + m in
        if m <? len s then Done (buf2, (n, Some errBufTooSmall))
        else Done (buf2, (n, None))
    end.

End strings.

(** ** The packet codec of the split package, which calls the VarInt codec
    of [varint.go] *)

Module packets.

Definition getPacket (h : heap) (buf : slice)
  : go (heap * (types.packet * Z * option error)) :=
  '(length, m, err) <- varint.getVarInt (load h buf) ;;
  let n := 0 + m in
  match err with
  | Some _ => Done (h, (types.packet_zero, n, err))
  | None =>
      tail <- reslice buf n (Z.of_nat (slen buf)) ;;
      '(id, m, err) <- varint.getVarInt (load h tail) ;;
      let n := n + m in
      match err with
      | Some _ => Done (h, (types.packet_zero, n, err))
      | None =>
          let l := length - m in
          if Z.of_nat (slen buf) <? n + l
          then Done (h, (types.packet_zero, n, Some errBufTooSmall))
          else
            '(h1, data) <- make h l ;;
            src <- reslice buf n (n + l) ;;
            let '(h2, c) := copy_slice h1 data src in
            Done (h2, (types.mkpacket id data, n + c, None))
      end
  end.

End packets.

(** ** The position codec of the split package

    The same struct as in [types.go]; the fields are extracted and packed
    with the shifts written inline, a short buffer reports 0 bytes, and
    [putPosition] builds the word [v] without storing it into [buf]. *)

Module positions.

Definition getPosition (buf : list byte)
  : go (types.position * Z * option error) :=
  if len buf <? 8
  then Done (types.position_zero, 0, Some errBufTooSmall)
  else
    v <- BigEndian_Uint64 buf ;;
    let px := i32 (sar64 (i64 v) 38) in
    let py := i16 (sar64 (i64 (shl64 v 26)) 52) in
    let pz := i32 (sar64 (i64 (shl64 v 38)) 38) in
    Done (types.mkposition px py pz, 8, None).

Definition putPosition (buf : list byte) (p : types.position)
  : go (list byte * (Z * option error)) :=
  if len buf <? 8
  then Done (buf, (0, Some errBufTooSmall))
  else
    let v := 0 in
    let v := Z.lor v (shl64 (u64 (types.x p)) 38) in
    let v := Z.lor v (shr64 (shl64 (u64 (types.y p)) 52) 26) in
    let v := Z.lor v (shr64 (shl64 (u64 (types.z p)) 38) 38) in
    Done (buf, (8, None)).

End positions.

(** ** [putPacket] of the split package

    It calls the VarInt codec of [varint.go]; a too large packet fails with
    a fresh error, [errors.New("packet is too large")], which is none of the
    sentinels. *)

Module packets_put.

Inductive put_error : Type :=
| sentinel (e : error)
| packet_is_too_large.

Definition putPacket (h : heap) (buf : slice) (p : types.packet)
  : go (heap * (Z * option put_error)) :=
  let length := lenVarInt (types.id p) + Z.of_nat (slen (types.data p)) in
  if length >? MaxInt32 then Done (h, (0, Some packet_is_too_large))
  else
    '(h1, (m, err)) <- in_place h buf (fun b => varint.putVarInt b (i32 length)) ;;
    let n := 0 + m in
    match err with
    | Some e => Done (h1, (n, Some (sentinel e)))
    | None =>
        tail <- reslice buf n (Z.of_nat (slen buf)) ;;
        '(h2, (m, err)) <- in_place h1 tail
                             (fun b => varint.putVarInt b (types.id p)) ;;
        let n := n + m in
        match err with
        | Some e => Done (h2, (n, Some (sentinel e)))
        | None =>
            tail <- reslice buf n (Z.of_nat (slen buf)) ;;
            let '(h3, m) := copy_slice h2 tail (types.data p) in
            let n := n + m in
            if m <? Z.of_nat (slen (types.data p))
            then Done (h3, (n, Some (sentinel errBufTooSmall)))
            else Done (h3, (n, None))
        end
    end.

End packets_put.

(** ** Reference definitions used by the statements *)

(** The continuation flag of a VarInt byte: its high bit. *)
Definition continuation (b : byte) : bool := Z.testbit (b2z b) 7.

(** The first [k] bytes of [bs], in order, until one without continuation
    flag: the value they carry on top of [v] (the groups are placed from bit
    [7 * i] on) and the index after the last byte read. *)
Fixpoint scan (bs : list byte) (k : nat) (i v : Z) : option (Z * Z) :=
  match bs, k with
  | b :: bs', S k' =>
      let v' := Z.lor v (shl64 (Z.land (b2z b) cmask) (u64 (i * cbits))) in
      if Z.land (b2z b) msb =? 0 then Some (v', i + 1)
      else scan bs' k' (i + 1) v'
  | _, _ => None
  end.

(** The wire bytes of the unsigned value [v], at most [k] of them. *)
Fixpoint varN_bytes (k : nat) (v : Z) : list byte :=
  match k with
  | O => []
  | S k' =>
      if Z.ldiff v cmask =? 0 then [z2b v]
      else z2b (Z.lor v msb) :: varN_bytes k' (Z.shiftr v cbits)
  end.

(** Whether those [k] bytes reach the last group of [v]. *)
Fixpoint varN_ends (k : nat) (v : Z) : bool :=
  match k with
  | O => false
  | S k' =>
      if Z.ldiff v cmask =? 0 then true
      else varN_ends k' (Z.shiftr v cbits)
  end.

(** [VarInt(v)] and [VarLong(v)] as byte strings. *)
Definition VarInt (v : Z) : list byte := varN_bytes 5 (u64 (u32 v)).
Definition VarLong (v : Z) : list byte := varN_bytes 10 (u64 v).

(** The spec's [bit_length], with [bit_length(0)] treated as 1. *)
Definition bit_length (u : Z) : Z := if u =? 0 then 1 else Z.log2 u + 1.

(** The spec's size formula [1 + (bit_length(u) - 1) / 7]. *)
Definition size_formula (u : Z) : Z := 1 + (bit_length u - 1) / 7.

(** A big-endian unsigned word, most significant byte first. *)
Definition be_word (bs : list byte) : Z :=
  fold_left (fun acc b => acc * 256 + b2z b) bs 0.

(** Bits [lo .. lo + width - 1] of [v], as an unsigned number. *)
Definition bit_field (v lo width : Z) : Z := (v / 2 ^ lo) mod 2 ^ width.

(** A [width]-bit two's-complement pattern read as a signed number. *)
Definition sign_extend (width f : Z) : Z :=
  if f <? 2 ^ (width - 1) then f else f - 2 ^ width.

(** [v] is representable in [width] signed bits. *)
Definition fits_signed (width v : Z) : Prop :=
  - 2 ^ (width - 1) <= v < 2 ^ (width - 1).

(** The word [putPosition] builds. *)
Definition position_word (p : types.position) : Z :=
  (types.x p mod 2 ^ 26) * 2 ^ 38 + (types.y p mod 2 ^ 12) * 2 ^ 26
  + types.z p mod 2 ^ 26.

(** [s[k:]] for [k <= len(s)]. *)
Definition tail (s : slice) (k : nat) : slice :=
  mkslice (base s) (off s + k) (slen s - k) (scap s - k).

(** The slice [make] returns on the heap [h]. *)
Definition fresh (h : heap) (n : nat) : slice := mkslice (length h) 0 n n.

(** The wire form of a packet with opcode [i] and payload [d]. *)
Definition packet_bytes (i : Z) (d : list byte) : list byte :=
  VarInt (lenVarInt i + len d) ++ VarInt i ++ d.

(** The bytes of [s] lie outside the [w] bytes at the front of [t]: [s] is
    empty, or in another array, or ends before [t] starts, or starts after
    those [w] bytes. *)
Definition separate (s t : slice) (w : nat) : Prop :=
  slen s = O \/ base s <> base t \/
  (off s + slen s <= off t)%nat \/ (off t + w <= off s)%nat.

(** The number of bytes [putPacket] writes before the payload: the length
    prefix and the opcode. *)
Definition header_len (p : types.packet) : nat :=
  length (VarInt (lenVarInt (types.id p) + Z.of_nat (slen (types.data p))))
  + length (VarInt (types.id p)).

(** A slice lies within its backing array, which the heap holds. *)
Definition valid (h : heap) (s : slice) : Prop :=
  (base s < length h)%nat /\
  (off s + slen s <= length (array h (base s)))%nat /\
  (slen s <= scap s)%nat.

(** [h'] differs from [h] at most in the contents of the array [a]. *)
Definition same_except (a : nat) (h h' : heap) : Prop :=
  length h' = length h /\
  forall c, c <> a -> array h' c = array h c.

Definition is_int16 (z : Z) : Prop := - 2 ^ 15 <= z < 2 ^ 15.

(** Every array the heap [h] holds has in [h'] the contents it has in [h]. *)
Definition extends (h h' : heap) : Prop :=
  forall c, (c < length h)%nat -> array h' c = array h c.

(** The powers of two of the position layout, as numerals. *)
Ltac pow2_consts :=
  change (2 ^ 64) with 18446744073709551616 in *;
  change (2 ^ 63) with 9223372036854775808 in *;
  change (2 ^ 52) with 4503599627370496 in *;
  change (2 ^ 38) with 274877906944 in *;
  change (2 ^ 32) with 4294967296 in *;
  change (2 ^ 31) with 2147483648 in *;
  change (2 ^ 26) with 67108864 in *;
  change (2 ^ 25) with 33554432 in *;
  change (2 ^ 16) with 65536 in *;
  change (2 ^ 15) with 32768 in *;
  change (2 ^ 12) with 4096 in *;
  change (2 ^ 11) with 2048 in *;
  change (2 ^ 0) with 1 in *.

(** ** Bytes *)

Lemma b2z_range (b : byte) : 0 <= b2z b < 256.
Proof.
  unfold b2z. pose proof (Byte.to_N_bounded b). lia.
Qed.

Lemma b2z_z2b (v : Z) : b2z (z2b v) = v mod 256.
Proof.
  unfold z2b, b2z.
  assert (Hr : 0 <= v mod 256 < 256) by (apply Z.mod_pos_bound; lia).
  destruct (Byte.of_N (Z.to_N (v mod 256))) as [b|] eqn:E.
  - apply Byte.to_of_N in E. rewrite E. lia.
  - apply Byte.of_N_None_iff in E. lia.
Qed.

Lemma z2b_b2z (b : byte) : z2b (b2z b) = b.
Proof.
  unfold z2b, b2z.
  pose proof (Byte.to_N_bounded b).
  rewrite Z.mod_small by lia.
  rewrite N2Z.id, Byte.of_to_N. reflexivity.
Qed.

Lemma msb_val : msb = 128.
Proof. reflexivity. Qed.

Lemma cmask_val : cmask = Z.ones 7.
Proof. reflexivity. Qed.

Lemma land_cmask (v : Z) : Z.land v cmask = v mod 128.
Proof.
  rewrite cmask_val, Z.land_ones by lia. reflexivity.
Qed.

Lemma ldiff_cmask (v : Z) : 0 <= v -> (Z.ldiff v cmask =? 0) = (v <? 128).
Proof.
  intros Hv. rewrite cmask_val, Z.ldiff_ones_r by lia.
  rewrite Z.shiftl_mul_pow2, Z.shiftr_div_pow2 by lia.
  change (2 ^ 7) with 128.
  destruct (Z.ltb_spec v 128) as [H|H].
  - rewrite Z.div_small by lia. reflexivity.
  - apply Z.eqb_neq. pose proof (Z.div_le_lower_bound v 128 1). lia.
Qed.

Lemma land_pow2_testbit (v n : Z) :
  0 <= n -> Z.land v (2 ^ n) = 0 <-> Z.testbit v n = false.
Proof.
  intros Hn. split; intros E.
  - apply (f_equal (fun t => Z.testbit t n)) in E. cbv beta in E.
    rewrite Z.land_spec, Z.bits_0, Z.pow2_bits_true in E by lia.
    rewrite andb_true_r in E. exact E.
  - apply Z.bits_inj'. intros k Hk.
    rewrite Z.land_spec, Z.bits_0.
    destruct (Z.eq_dec k n) as [->|Hne].
    + rewrite E. reflexivity.
    + rewrite Z.pow2_bits_false by lia. apply andb_false_r.
Qed.

Lemma land_msb_testbit (v : Z) :
  (Z.land v msb =? 0) = negb (Z.testbit v 7).
Proof.
  pose proof (land_pow2_testbit v 7 ltac:(lia)) as [H1 H2].
  change (2 ^ 7) with msb in H1, H2.
  destruct (Z.eqb_spec (Z.land v msb) 0) as [E|E].
  - rewrite H1 by exact E. reflexivity.
  - destruct (Z.testbit v 7); [reflexivity|]. elim E. auto.
Qed.

Lemma testbit7_small (v : Z) : 0 <= v < 128 -> Z.testbit v 7 = false.
Proof.
  intros H. destruct (Z.eq_dec v 0) as [->|Hn]; [apply Z.bits_0|].
  apply Z.bits_above_log2; [lia|].
  apply Z.log2_lt_pow2; lia.
Qed.

Lemma lor_msb_byte (v : Z) :
  0 <= v -> (Z.lor v msb) mod 256 = 128 + v mod 128.
Proof.
  intros Hv. rewrite msb_val.
  change 256 with (2 ^ 8). rewrite <- Z.land_ones by lia.
  rewrite Z.land_lor_distr_l. change (Z.land 128 (Z.ones 8)) with 128.
  rewrite Z.land_ones by lia.
  assert (E : v mod 2 ^ 8 = 128 * ((v / 128) mod 2) + v mod 128).
  { change (2 ^ 8) with (128 * 2).
    rewrite Z.rem_mul_r by lia. lia. }
  rewrite E.
  assert (Hb : 0 <= (v / 128) mod 2 < 2) by (apply Z.mod_pos_bound; lia).
  assert (Hm : 0 <= v mod 128 < 128) by (apply Z.mod_pos_bound; lia).
  assert (D : Z.land (v mod 128) 128 = 0).
  { apply (proj2 (land_pow2_testbit (v mod 128) 7 ltac:(lia))).
    apply testbit7_small. lia. }
  assert (Hc : (v / 128) mod 2 = 0 \/ (v / 128) mod 2 = 1) by lia.
  destruct Hc as [-> | ->].
  - rewrite Z.mul_0_r, Z.add_0_l.
    rewrite <- Z.lxor_lor by exact D.
    rewrite <- Z.add_nocarry_lxor by exact D. lia.
  - rewrite Z.mul_1_r, (Z.add_comm 128).
    rewrite (Z.add_nocarry_lxor _ 128) by exact D.
    rewrite Z.lxor_lor by exact D.
    rewrite <- Z.lor_assoc. rewrite Z.lor_diag.
    rewrite <- Z.lxor_lor by exact D.
    rewrite <- Z.add_nocarry_lxor by exact D. lia.
Qed.

(** ** Indexing and assignment *)

Lemma len_nonneg (buf : list byte) : 0 <= len buf.
Proof. unfold len. lia. Qed.

Lemma len_app (a b : list byte) : len (a ++ b) = len a + len b.
Proof. unfold len. rewrite length_app. lia. Qed.

Lemma index_skipn (buf : list byte) (i : Z) :
  0 <= i < len buf ->
  exists b, index buf i = Done b /\
            skipn (Z.to_nat i) buf = b :: skipn (Z.to_nat (i + 1)) buf.
Proof.
  intros H. unfold index, len in *.
  replace ((0 <=? i) && (i <? Z.of_nat (length buf))) with true
    by (symmetry; apply andb_true_iff; split; [apply Z.leb_le|apply Z.ltb_lt]; lia).
  replace (Z.to_nat (i + 1)) with (S (Z.to_nat i)) by lia.
  assert (Hi : (Z.to_nat i < length buf)%nat) by lia.
  revert Hi. generalize (Z.to_nat i). clear H i.
  induction buf as [|a t IH]; intros n Hn; simpl in Hn; [lia|].
  destruct n as [|n]; simpl.
  - exists a. split; reflexivity.
  - apply IH. lia.
Qed.

Lemma length_set_nth (buf : list byte) (i : nat) (b : byte) :
  length (set_nth buf i b) = length buf.
Proof.
  revert i. induction buf as [|a t IH]; intros [|i]; simpl; auto.
Qed.

Lemma set_nth_split (buf : list byte) (i : nat) (b : byte) :
  (i < length buf)%nat ->
  set_nth buf i b = firstn i buf ++ b :: skipn (S i) buf.
Proof.
  revert i. induction buf as [|a t IH]; intros [|i] H; simpl in *; try lia.
  - reflexivity.
  - f_equal. apply IH. lia.
Qed.

Lemma assign_split (buf : list byte) (i : Z) (b : byte) :
  0 <= i < len buf ->
  assign buf i b =
  Done (firstn (Z.to_nat i) buf ++ b :: skipn (Z.to_nat (i + 1)) buf).
Proof.
  intros H. unfold assign.
  replace ((0 <=? i) && (i <? len buf)) with true
    by (symmetry; apply andb_true_iff; split; [apply Z.leb_le|apply Z.ltb_lt]; lia).
  unfold len in H. rewrite set_nth_split by lia.
  replace (Z.to_nat (i + 1)) with (S (Z.to_nat i)) by lia. reflexivity.
Qed.

(** ** The decoding loop is [scan] on the bytes from the index on *)

Lemma scan_nil_or_zero (bs : list byte) (k : nat) (i v : Z) :
  bs = [] \/ k = O -> scan bs k i v = None.
Proof.
  intros [-> | ->]; [reflexivity|]. destruct bs; reflexivity.
Qed.

Lemma getVarN_loop_scan (after : go (Z * Z * option error)) (fuel : nat) :
  forall (buf : list byte) (maxBytes i v : Z),
    0 <= i -> len buf - i <= Z.of_nat fuel ->
    getVarN_loop after fuel buf maxBytes i v =
    match scan (skipn (Z.to_nat i) buf) (Z.to_nat (maxBytes - i)) i v with
    | Some (v', n) => Done (v', n, None)
    | None => after
    end.
Proof.
  induction fuel as [|fuel IH]; intros buf maxBytes i v Hi Hf.
  - simpl. rewrite scan_nil_or_zero; [reflexivity|].
    left. apply skipn_all2. unfold len in Hf. lia.
  - cbn [getVarN_loop].
    destruct (Z.ltb_spec i (len buf)) as [H1|H1];
      [destruct (Z.ltb_spec i maxBytes) as [H2|H2]|]; cbn [andb].
    + destruct (index_skipn buf i (conj Hi H1)) as (b & Eb & Es).
      rewrite Eb, Es. cbn [bind].
      replace (Z.to_nat (maxBytes - i)) with (S (Z.to_nat (maxBytes - (i + 1))))
        by lia.
      cbn [scan].
      destruct (Z.land (b2z b) msb =? 0); [reflexivity|].
      apply IH; lia.
    + rewrite scan_nil_or_zero; [reflexivity|]. right. lia.
    + rewrite scan_nil_or_zero; [reflexivity|].
      left. apply skipn_all2. unfold len in H1. lia.
Qed.

Lemma getVarN_scan (after : go (Z * Z * option error))
    (buf : list byte) (maxBytes : Z) :
  getVarN_loop after (length buf) buf maxBytes 0 0 =
  match scan buf (Z.to_nat maxBytes) 0 0 with
  | Some (v', n) => Done (v', n, None)
  | None => after
  end.
Proof.
  rewrite getVarN_loop_scan by (unfold len; lia).
  rewrite Z.sub_0_r. reflexivity.
Qed.

(** [scan] fails exactly when the bytes it may read all carry the
    continuation flag. *)
Lemma scan_None (bs : list byte) :
  forall (k : nat) (i v : Z),
    scan bs k i v = None <->
    forallb continuation (firstn k bs) = true.
Proof.
  induction bs as [|b bs IH]; intros k i v.
  - destruct k; simpl; tauto.
  - destruct k as [|k]; [simpl; tauto|].
    cbn [scan firstn forallb]. unfold continuation at 1.
    rewrite land_msb_testbit.
    destruct (Z.testbit (b2z b) 7); cbn [negb andb].
    + apply IH.
    + split; discriminate.
Qed.

Lemma scan_Some_bound (bs : list byte) :
  forall (k : nat) (i v v' n : Z),
    scan bs k i v = Some (v', n) ->
    i < n <= i + Z.of_nat (Nat.min k (length bs)).
Proof.
  induction bs as [|b bs IH]; intros k i v v' n H.
  - destruct k; discriminate.
  - destruct k as [|k]; [discriminate|].
    cbn [scan] in H. cbn [length].
    destruct (Z.land (b2z b) msb =? 0).
    + inversion H; subst. lia.
    + apply IH in H. lia.
Qed.

(** ** The encoding loop writes [varN_bytes] from the index on *)

Lemma splice_one (buf : list byte) (n : nat) (c : byte) :
  (n < length buf)%nat ->
  let buf1 := firstn n buf ++ c :: skipn (S n) buf in
  length buf1 = length buf /\
  firstn (S n) buf1 = firstn n buf ++ [c] /\
  forall l, skipn (S n + l) buf1 = skipn (S n + l) buf.
Proof.
  intros Hn buf1. subst buf1.
  assert (Hl : length (firstn n buf) = n) by (rewrite length_firstn; lia).
  split; [|split].
  - rewrite length_app. cbn [length]. rewrite Hl, length_skipn. lia.
  - rewrite firstn_app, Hl.
    replace (S n - n)%nat with 1%nat by lia.
    rewrite firstn_all2 by lia. reflexivity.
  - intros l. rewrite skipn_app, Hl.
    rewrite (skipn_all2 (firstn n buf)) by lia.
    replace (S n + l - n)%nat with (S l) by lia.
    cbn [app]. rewrite skipn_cons, skipn_skipn. f_equal. lia.
Qed.

Lemma varN_bytes_length (k : nat) :
  forall v, (length (varN_bytes k v) <= k)%nat.
Proof.
  induction k as [|k IH]; intros v; cbn [varN_bytes]; [simpl; lia|].
  destruct (Z.ldiff v cmask =? 0); cbn [length]; [lia|].
  specialize (IH (Z.shiftr v cbits)). lia.
Qed.

Lemma putVarN_loop_bytes
    (after : list byte -> Z -> go (list byte * (Z * option error)))
    (fuel : nat) :
  forall (buf : list byte) (maxBytes i v : Z),
    0 <= i -> len buf - i <= Z.of_nat fuel ->
    let room := Z.to_nat (Z.min (len buf) maxBytes - i) in
    let bs := varN_bytes room v in
    let buf' := firstn (Z.to_nat i) buf ++ bs
                ++ skipn (Z.to_nat i + length bs) buf in
    putVarN_loop after fuel buf maxBytes i v =
    if varN_ends room v then Done (buf', (i + len bs, None))
    else after buf' maxBytes.
Proof.
  induction fuel as [|fuel IH]; intros buf maxBytes i v Hi Hf room bs buf'.
  - assert (room = O) by (subst room; lia).
    subst bs buf'. rewrite H. cbn [varN_bytes varN_ends putVarN_loop app length].
    rewrite Nat.add_0_r, firstn_skipn. reflexivity.
  - cbn [putVarN_loop].
    destruct (Z.ltb_spec i (len buf)) as [H1|H1];
      [destruct (Z.ltb_spec i maxBytes) as [H2|H2]|]; cbn [andb].
    + assert (Er : room = S (Z.to_nat (Z.min (len buf) maxBytes - (i + 1))))
        by (subst room; lia).
      subst bs buf'. rewrite Er. cbn [varN_bytes varN_ends].
      assert (Hn : (Z.to_nat i < length buf)%nat) by (unfold len in H1; lia).
      destruct (Z.ldiff v cmask =? 0).
      * rewrite assign_split by lia. cbn [bind length app].
        replace (Z.to_nat (i + 1)) with (Z.to_nat i + 1)%nat by lia.
        unfold len. cbn [length]. repeat f_equal; lia.
      * rewrite assign_split by lia. cbn [bind].
        replace (Z.to_nat (i + 1)) with (S (Z.to_nat i)) by lia.
        destruct (splice_one buf (Z.to_nat i) (z2b (Z.lor v msb)) Hn)
          as (L1 & L2 & L3).
        set (buf1 := firstn (Z.to_nat i) buf ++
                     z2b (Z.lor v msb) :: skipn (S (Z.to_nat i)) buf) in *.
        assert (El : len buf1 = len buf) by (unfold len; lia).
        rewrite IH by lia. rewrite El.
        replace (Z.to_nat (i + 1)) with (S (Z.to_nat i)) by lia.
        rewrite L2, L3.
        set (r := Z.to_nat (Z.min (len buf) maxBytes - (i + 1))).
        set (w := varN_bytes r (Z.shiftr v cbits)).
        assert (Eb : firstn (Z.to_nat i) buf ++ (z2b (Z.lor v msb) :: w) ++
                     skipn (Z.to_nat i + length (z2b (Z.lor v msb) :: w)) buf =
                     (firstn (Z.to_nat i) buf ++ [z2b (Z.lor v msb)]) ++ w ++
                     skipn (S (Z.to_nat i) + length w) buf).
        { rewrite <- app_assoc. cbn [app length].
          replace (Z.to_nat i + S (length w))%nat
            with (S (Z.to_nat i) + length w)%nat by lia.
          reflexivity. }
        rewrite Eb.
        replace (i + len (z2b (Z.lor v msb) :: w)) with (i + 1 + len w)
          by (unfold len; cbn [length]; lia).
        reflexivity.
    + assert (room = O) by (subst room; lia).
      subst bs buf'. rewrite H. cbn [varN_bytes varN_ends app length].
      rewrite Nat.add_0_r, firstn_skipn. reflexivity.
    + assert (room = O) by (subst room; lia).
      subst bs buf'. rewrite H. cbn [varN_bytes varN_ends app length].
      rewrite Nat.add_0_r, firstn_skipn. reflexivity.
Qed.

(** ** The length function *)

Lemma lenVarN_small (v : Z) : 0 <= v < 128 -> lenVarN v = 1.
Proof.
  intros H. unfold lenVarN, Len64, cbits.
  destruct (Z.eqb_spec v 0) as [->|Hn]; [reflexivity|].
  assert (Z.log2 v < 7) by (apply Z.log2_lt_pow2; lia).
  pose proof (Z.log2_nonneg v).
  replace (Z.log2 v + 1 - 1) with (Z.log2 v) by lia.
  rewrite Z.quot_small by lia. reflexivity.
Qed.

Lemma lenVarN_step (v : Z) :
  128 <= v -> lenVarN v = 1 + lenVarN (Z.shiftr v cbits).
Proof.
  intros H. unfold lenVarN, Len64, cbits.
  assert (H7 : 7 <= Z.log2 v) by (apply Z.log2_le_pow2; lia).
  assert (Hs : Z.log2 (Z.shiftr v 7) = Z.log2 v - 7).
  { rewrite Z.log2_shiftr by lia. lia. }
  assert (Hp : 0 < Z.shiftr v 7).
  { rewrite Z.shiftr_div_pow2 by lia. change (2 ^ 7) with 128.
    pose proof (Z.div_le_lower_bound v 128 1). lia. }
  destruct (Z.eqb_spec v 0); [lia|].
  destruct (Z.eqb_spec (Z.shiftr v 7) 0); [lia|].
  rewrite Hs.
  replace (Z.log2 v + 1 - 1) with (Z.log2 v - 7 + 1 * 7) by lia.
  replace (Z.log2 v - 7 + 1 - 1) with (Z.log2 v - 7) by lia.
  rewrite !Z.quot_div_nonneg by lia.
  rewrite Z.div_add by lia. lia.
Qed.

Lemma lenVarN_pos (v : Z) : 0 <= v -> 1 <= lenVarN v.
Proof.
  intros H. unfold lenVarN, Len64, cbits.
  destruct (Z.eqb_spec v 0); [compute; discriminate|].
  pose proof (Z.log2_nonneg v).
  replace (Z.log2 v + 1 - 1) with (Z.log2 v) by lia.
  rewrite Z.quot_div_nonneg by lia.
  pose proof (Z.div_pos (Z.log2 v) 7). lia.
Qed.

Lemma lenVarN_size_formula (u : Z) : 0 <= u -> lenVarN u = size_formula u.
Proof.
  intros H. unfold lenVarN, size_formula, Len64, bit_length, cbits.
  destruct (Z.eqb_spec u 0); [reflexivity|].
  pose proof (Z.log2_nonneg u).
  rewrite Z.quot_div_nonneg by lia. reflexivity.
Qed.

Lemma shiftr7_nonneg (v : Z) : 0 <= v -> 0 <= Z.shiftr v cbits.
Proof. intros H. apply Z.shiftr_nonneg. exact H. Qed.

Lemma varN_ends_length (k : nat) :
  forall v, 0 <= v -> varN_ends k v = true ->
            len (varN_bytes k v) = lenVarN v.
Proof.
  induction k as [|k IH]; intros v Hv He; [discriminate|].
  cbn [varN_ends varN_bytes] in *. rewrite ldiff_cmask in * by exact Hv.
  destruct (Z.ltb_spec v 128) as [H|H].
  - rewrite lenVarN_small by lia. reflexivity.
  - rewrite lenVarN_step by exact H.
    rewrite <- (IH _ (shiftr7_nonneg v Hv) He).
    unfold len. cbn [length]. lia.
Qed.

Lemma varN_ends_of_len (k : nat) :
  forall v, 0 <= v -> lenVarN v <= Z.of_nat k -> varN_ends k v = true.
Proof.
  induction k as [|k IH]; intros v Hv Hl.
  - pose proof (lenVarN_pos v Hv). lia.
  - cbn [varN_ends]. rewrite ldiff_cmask by exact Hv.
    destruct (Z.ltb_spec v 128) as [H|H]; [reflexivity|].
    rewrite lenVarN_step in Hl by exact H.
    apply IH; [apply shiftr7_nonneg; exact Hv | lia].
Qed.

Lemma varN_bytes_stable (k : nat) :
  forall k' v, varN_ends k v = true -> (k <= k')%nat ->
               varN_bytes k' v = varN_bytes k v.
Proof.
  induction k as [|k IH]; intros k' v He Hk; [discriminate|].
  destruct k' as [|k']; [lia|].
  cbn [varN_ends varN_bytes] in *.
  destruct (Z.ldiff v cmask =? 0); [reflexivity|].
  f_equal. apply IH; [exact He | lia].
Qed.

Lemma lenVarN_bound (k : nat) :
  forall v, 0 <= v < 2 ^ (7 * Z.of_nat k) -> (0 < k)%nat ->
            lenVarN v <= Z.of_nat k.
Proof.
  induction k as [|k IH]; intros v Hv Hk; [lia|].
  destruct (Z.lt_ge_cases v 128) as [H|H].
  - rewrite lenVarN_small by lia. lia.
  - rewrite lenVarN_step by exact H.
    assert (Hp : 2 ^ (7 * Z.of_nat (S k)) = 128 * 2 ^ (7 * Z.of_nat k)).
    { replace (7 * Z.of_nat (S k)) with (7 + 7 * Z.of_nat k) by lia.
      rewrite Z.pow_add_r by lia. reflexivity. }
    assert (Hd : Z.shiftr v cbits < 2 ^ (7 * Z.of_nat k)).
    { unfold cbits. rewrite Z.shiftr_div_pow2 by lia. change (2 ^ 7) with 128.
      apply Z.div_lt_upper_bound; lia. }
    destruct k as [|k].
    + change (2 ^ (7 * Z.of_nat 0)) with 1 in *. lia.
    + specialize (IH (Z.shiftr v cbits)).
      pose proof (shiftr7_nonneg v ltac:(lia)). lia.
Qed.

Lemma u32_range (v : Z) : 0 <= u64 (u32 v) < 2 ^ 32.
Proof.
  unfold u64, u32.
  assert (0 <= v mod 2 ^ 32 < 2 ^ 32) by (apply Z.mod_pos_bound; lia).
  rewrite Z.mod_small; lia.
Qed.

Lemma u64_range (v : Z) : 0 <= u64 v < 2 ^ 64.
Proof. unfold u64. apply Z.mod_pos_bound. lia. Qed.

Lemma lenVarInt_bound (v : Z) : 1 <= lenVarInt v <= 5.
Proof.
  unfold lenVarInt. pose proof (u32_range v).
  split; [apply lenVarN_pos; lia|].
  apply (lenVarN_bound 5); [|lia].
  change (2 ^ (7 * Z.of_nat 5)) with (2 ^ 35). lia.
Qed.

Lemma lenVarLong_bound (v : Z) : 1 <= lenVarLong v <= 10.
Proof.
  unfold lenVarLong. pose proof (u64_range v).
  split; [apply lenVarN_pos; lia|].
  apply (lenVarN_bound 10); [|lia].
  change (2 ^ (7 * Z.of_nat 10)) with (2 ^ 70). lia.
Qed.

(** ** Reading back what [varN_bytes] holds *)

Lemma shl64_small (x s : Z) :
  0 <= x -> 0 <= s -> x * 2 ^ s < 2 ^ 64 -> shl64 x (u64 s) = Z.shiftl x s.
Proof.
  intros Hx Hs Hb. unfold shl64, u64.
  destruct (Z.eq_dec x 0) as [->|Hn].
  - rewrite !Z.shiftl_0_l. reflexivity.
  - assert (s < 64).
    { apply (Z.pow_lt_mono_r_iff 2); [lia|lia|].
      assert (2 ^ s <= x * 2 ^ s) by nia. lia. }
    rewrite (Z.mod_small s) by lia.
    rewrite Z.shiftl_mul_pow2 by lia.
    apply Z.mod_small. nia.
Qed.

Lemma split_low7 (v : Z) :
  Z.lor (v mod 128) (Z.shiftl (Z.shiftr v 7) 7) = v.
Proof.
  rewrite <- land_cmask, cmask_val.
  rewrite <- Z.ldiff_ones_r by lia.
  rewrite Z.lor_comm. apply Z.lor_ldiff_and.
Qed.

Lemma testbit7_high (m : Z) : 0 <= m < 128 -> Z.testbit (128 + m) 7 = true.
Proof.
  intros H. apply Z.testbit_true; [lia|].
  change (2 ^ 7) with 128.
  replace (128 + m) with (m + 1 * 128) by lia.
  rewrite Z.div_add, Z.div_small by lia. reflexivity.
Qed.

Lemma scan_varN_bytes (k : nat) :
  forall (v i a : Z) (rest : list byte) (k' : nat),
    0 <= i -> 0 <= v -> varN_ends k v = true ->
    (length (varN_bytes k v) <= k')%nat ->
    v * 2 ^ (7 * i) < 2 ^ 64 ->
    scan (varN_bytes k v ++ rest) k' i a =
    Some (Z.lor a (Z.shiftl v (7 * i)), i + len (varN_bytes k v)).
Proof.
  induction k as [|k IH]; intros v i a rest k' Hi Hv He Hk Hb; [discriminate|].
  cbn [varN_ends varN_bytes] in *. rewrite ldiff_cmask in * by exact Hv.
  destruct (Z.ltb_spec v 128) as [H|H].
  - cbn [length app] in *. destruct k' as [|k']; [lia|].
    cbn [scan]. rewrite b2z_z2b, Z.mod_small by lia.
    rewrite land_msb_testbit, testbit7_small by lia. cbn [negb].
    rewrite land_cmask, Z.mod_small by lia.
    unfold cbits. rewrite (Z.mul_comm i 7).
    rewrite shl64_small by lia. reflexivity.
  - cbn [length app] in *. destruct k' as [|k']; [lia|].
    assert (Hm : 0 <= v mod 128 < 128) by (apply Z.mod_pos_bound; lia).
    cbn [scan]. rewrite b2z_z2b, lor_msb_byte by exact Hv.
    rewrite land_msb_testbit, testbit7_high by exact Hm. cbn [negb].
    rewrite land_cmask.
    assert (Hr : (128 + v mod 128) mod 128 = v mod 128).
    { replace (128 + v mod 128) with (v mod 128 + 1 * 128) by lia.
      rewrite Z.mod_add by lia. apply Z.mod_mod. lia. }
    rewrite Hr.
    assert (Hp : 0 < 2 ^ (7 * i)) by (apply Z.pow_pos_nonneg; lia).
    assert (Hq : 2 ^ (7 * (i + 1)) = 128 * 2 ^ (7 * i)).
    { replace (7 * (i + 1)) with (7 + 7 * i) by lia.
      rewrite Z.pow_add_r by lia. reflexivity. }
    assert (Hd : 128 * (v / 128) <= v) by (apply Z.mul_div_le; lia).
    unfold cbits in *.
    assert (Hs : Z.shiftr v 7 = v / 128).
    { rewrite Z.shiftr_div_pow2 by lia. reflexivity. }
    assert (H0 : 0 <= v / 128) by (apply Z.div_pos; lia).
    rewrite (Z.mul_comm i 7).
    rewrite shl64_small by nia.
    rewrite IH; [| lia | rewrite Hs; exact H0 | exact He | lia
                 | rewrite Hs, Hq; nia].
    f_equal. f_equal.
    + rewrite <- Z.lor_assoc. f_equal.
      replace (7 * (i + 1)) with (7 + 7 * i) by lia.
      rewrite <- Z.shiftl_shiftl by lia.
      rewrite <- Z.shiftl_lor. rewrite split_low7.
      reflexivity.
    + unfold len. cbn [length]. lia.
Qed.

(** ** Integer conversions *)

Lemma i32_u32 (v : Z) : is_int32 v -> i32 (u64 (u32 v)) = v.
Proof.
  unfold is_int32, i32, u64, u32. intros H.
  Z.div_mod_to_equations. lia.
Qed.

Lemma i64_u64 (v : Z) : is_int64 v -> i64 (u64 v) = v.
Proof.
  unfold is_int64, i64, u64. intros H.
  Z.div_mod_to_equations. lia.
Qed.

(** ** Encoding succeeds when there is room, and decodes back *)

Lemma putVarN_loop_ok
    (after : list byte -> Z -> go (list byte * (Z * option error)))
    (buf : list byte) (u maxBytes : Z) (k : nat) :
  0 <= u -> lenVarN u <= Z.min (len buf) maxBytes ->
  lenVarN u <= Z.of_nat k ->
  putVarN_loop after (length buf) buf maxBytes 0 u =
    Done (varN_bytes k u ++ skipn (Z.to_nat (lenVarN u)) buf,
          (lenVarN u, None))
  /\ len (varN_bytes k u) = lenVarN u.
Proof.
  intros Hu Hr Hk.
  pose proof (putVarN_loop_bytes after (length buf) buf maxBytes 0 u
                ltac:(lia) ltac:(unfold len; lia)) as E.
  cbv zeta in E. rewrite Z.sub_0_r in E.
  set (room := Z.to_nat (Z.min (len buf) maxBytes)) in *.
  assert (He : varN_ends room u = true)
    by (apply varN_ends_of_len; [exact Hu | subst room; lia]).
  assert (Hek : varN_ends k u = true) by (apply varN_ends_of_len; assumption).
  assert (Hl : len (varN_bytes k u) = lenVarN u)
    by (apply varN_ends_length; assumption).
  assert (Eb : varN_bytes room u = varN_bytes k u).
  { destruct (Nat.le_ge_cases room k).
    - symmetry. apply varN_bytes_stable; assumption.
    - apply varN_bytes_stable; assumption. }
  rewrite He, Eb in E. rewrite E. split; [|exact Hl].
  cbn [Z.to_nat firstn app Nat.add]. rewrite ?Z.add_0_l, Hl.
  unfold len in Hl. rewrite <- Hl, Nat2Z.id. reflexivity.
Qed.

Lemma getVarN_loop_ok (after : go (Z * Z * option error))
    (u maxBytes : Z) (k : nat) (rest : list byte) :
  0 <= u < 2 ^ 64 -> lenVarN u <= Z.of_nat k -> lenVarN u <= maxBytes ->
  let buf := varN_bytes k u ++ rest in
  getVarN_loop after (length buf) buf maxBytes 0 0 = Done (u, lenVarN u, None).
Proof.
  intros Hu Hk Hm buf. subst buf.
  assert (Hek : varN_ends k u = true) by (apply varN_ends_of_len; lia).
  assert (Hl : len (varN_bytes k u) = lenVarN u)
    by (apply varN_ends_length; [lia | assumption]).
  rewrite getVarN_scan.
  rewrite scan_varN_bytes;
    [| lia | lia | exact Hek | unfold len in Hl; lia
     | change (2 ^ (7 * 0)) with 1; lia].
  rewrite Hl. cbn [Z.mul]. rewrite Z.shiftl_0_r, Z.lor_0_l. reflexivity.
Qed.

(** A successful [putVarN] of [types.go] has consumed [lenVarN]. *)
Lemma types_putVarN_consumed (buf buf' : list byte) (u maxBytes n : Z) :
  0 <= u ->
  types.putVarN buf u maxBytes = Done (buf', (n, None)) ->
  n = lenVarN u.
Proof.
  intros Hu E. unfold types.putVarN in E.
  rewrite (putVarN_loop_bytes types.putVarN_after (length buf) buf maxBytes 0 u
             ltac:(lia) ltac:(unfold len; lia)) in E.
  cbv zeta in E.
  destruct (varN_ends _ u) eqn:He.
  - inversion E; subst.
    apply varN_ends_length; assumption.
  - unfold types.putVarN_after in E.
    destruct (_ <? maxBytes) in E; inversion E.
Qed.

Lemma types_putVarInt_ok (buf : list byte) (v : Z) :
  lenVarInt v <= len buf ->
  types.putVarInt buf v =
    Done (VarInt v ++ skipn (Z.to_nat (lenVarInt v)) buf, (lenVarInt v, None))
  /\ len (VarInt v) = lenVarInt v.
Proof.
  intros H. pose proof (lenVarInt_bound v). pose proof (u32_range v).
  unfold types.putVarInt, types.putVarN, VarInt.
  apply putVarN_loop_ok; unfold lenVarInt, maxIntBytes in *; lia.
Qed.

Lemma types_putVarLong_ok (buf : list byte) (v : Z) :
  lenVarLong v <= len buf ->
  types.putVarLong buf v =
    Done (VarLong v ++ skipn (Z.to_nat (lenVarLong v)) buf, (lenVarLong v, None))
  /\ len (VarLong v) = lenVarLong v.
Proof.
  intros H. pose proof (lenVarLong_bound v). pose proof (u64_range v).
  unfold types.putVarLong, types.putVarN, VarLong.
  apply putVarN_loop_ok; unfold lenVarLong, maxLongBytes in *; lia.
Qed.

Lemma types_getVarInt_ok (v : Z) (rest : list byte) :
  is_int32 v ->
  types.getVarInt (VarInt v ++ rest) = Done (v, lenVarInt v, None).
Proof.
  intros H. pose proof (lenVarInt_bound v). pose proof (u32_range v).
  unfold types.getVarInt, types.getVarN, VarInt.
  rewrite getVarN_loop_ok; unfold lenVarInt, maxIntBytes in *; try lia.
  cbn [bind]. rewrite i32_u32 by exact H. reflexivity.
Qed.

Lemma types_getVarLong_ok (v : Z) (rest : list byte) :
  is_int64 v ->
  types.getVarLong (VarLong v ++ rest) = Done (v, lenVarLong v, None).
Proof.
  intros H. pose proof (lenVarLong_bound v). pose proof (u64_range v).
  unfold types.getVarLong, types.getVarN, VarLong.
  rewrite getVarN_loop_ok; unfold lenVarLong, maxLongBytes in *; try lia.
  cbn [bind]. rewrite i64_u64 by exact H. reflexivity.
Qed.

(** C1.  Round trip of VarInt and VarLong: into a buffer of at least 5 (10)
    bytes, [putVarInt] ([putVarLong]) succeeds, consumes [lenVarInt v]
    ([lenVarLong v]) bytes, writes the wire bytes of [v] to the front of the
    buffer and leaves the rest as it was; [getVarInt] ([getVarLong]) on the
    written bytes, and on the whole buffer, returns [v] and the same count
    with no error. *)
Theorem varint_roundtrip (v w : Z) (b5 b10 : list byte) :
  is_int32 v -> 5 <= len b5 ->
  is_int64 w -> 10 <= len b10 ->
  (exists b5',
      types.putVarInt b5 v = Done (b5', (lenVarInt v, None)) /\
      len b5' = len b5 /\
      skipn (Z.to_nat (lenVarInt v)) b5' = skipn (Z.to_nat (lenVarInt v)) b5 /\
      types.getVarInt (firstn (Z.to_nat (lenVarInt v)) b5')
        = Done (v, lenVarInt v, None) /\
      types.getVarInt b5' = Done (v, lenVarInt v, None)) /\
  (exists b10',
      types.putVarLong b10 w = Done (b10', (lenVarLong w, None)) /\
      len b10' = len b10 /\
      skipn (Z.to_nat (lenVarLong w)) b10' = skipn (Z.to_nat (lenVarLong w)) b10 /\
      types.getVarLong (firstn (Z.to_nat (lenVarLong w)) b10')
        = Done (w, lenVarLong w, None) /\
      types.getVarLong b10' = Done (w, lenVarLong w, None)).
Proof.
  intros Hv H5 Hw H10.
  pose proof (lenVarInt_bound v) as Bv. pose proof (lenVarLong_bound w) as Bw.
  split.
  - destruct (types_putVarInt_ok b5 v ltac:(lia)) as [E L].
    eexists. split; [exact E|].
    assert (Ln : length (VarInt v) = Z.to_nat (lenVarInt v))
      by (unfold len in L; lia).
    repeat split.
    + rewrite len_app, L. unfold len in *. rewrite length_skipn. lia.
    + rewrite skipn_app, Ln, Nat.sub_diag, skipn_O.
      rewrite skipn_all2 by lia. reflexivity.
    + rewrite firstn_app, Ln, Nat.sub_diag, firstn_O.
      rewrite firstn_all2 by lia.
      apply types_getVarInt_ok. exact Hv.
    + apply types_getVarInt_ok. exact Hv.
  - destruct (types_putVarLong_ok b10 w ltac:(lia)) as [E L].
    eexists. split; [exact E|].
    assert (Ln : length (VarLong w) = Z.to_nat (lenVarLong w))
      by (unfold len in L; lia).
    repeat split.
    + rewrite len_app, L. unfold len in *. rewrite length_skipn. lia.
    + rewrite skipn_app, Ln, Nat.sub_diag, skipn_O.
      rewrite skipn_all2 by lia. reflexivity.
    + rewrite firstn_app, Ln, Nat.sub_diag, firstn_O.
      rewrite firstn_all2 by lia.
      apply types_getVarLong_ok. exact Hw.
    + apply types_getVarLong_ok. exact Hw.
Qed.

Lemma varint_roundtrip_witness :
  exists b5',
    types.putVarInt [x00; x00; x00; x00; x00] (-1)
      = Done (b5', (lenVarInt (-1), None)) /\
    types.getVarInt b5' = Done (-1, lenVarInt (-1), None).
Proof.
  destruct (varint_roundtrip (-1) (-1) (repeat x00 5) (repeat x00 10))
    as [(b & E & _ & _ & _ & G) _].
  - unfold is_int32. lia.
  - vm_compute. discriminate.
  - unfold is_int64. lia.
  - vm_compute. discriminate.
  - exists b. split; [exact E | exact G].
Defined.

(** ** Failures of the decoder *)

Lemma firstn_short (bs : list byte) (k : Z) :
  len bs < k -> firstn (Z.to_nat k) bs = bs.
Proof. intros H. apply firstn_all2. unfold len in H. lia. Qed.

Lemma types_getVarN_BufTooSmall (buf : list byte) (maxBytes v n : Z) :
  types.getVarN buf maxBytes = Done (v, n, Some errBufTooSmall) <->
  len buf < maxBytes /\ forallb continuation buf = true /\
  v = 0 /\ n = len buf.
Proof.
  unfold types.getVarN. rewrite getVarN_scan.
  destruct (scan buf (Z.to_nat maxBytes) 0 0) as [[v' n']|] eqn:E.
  - split; [discriminate|]. intros (Hl & Hc & _).
    rewrite <- (firstn_short buf maxBytes Hl) in Hc.
    apply scan_None with (i := 0) (v := 0) in Hc. congruence.
  - apply scan_None in E. unfold types.getVarN_after.
    destruct (Z.ltb_spec (len buf) maxBytes) as [H|H].
    + rewrite firstn_short in E by exact H.
      split; [intros X; inversion X; auto | intros (_ & _ & -> & ->); reflexivity].
    + split; [discriminate | lia].
Qed.

Lemma types_getVarN_ValueTooLarge (buf : list byte) (maxBytes v n : Z) :
  types.getVarN buf maxBytes = Done (v, n, Some errValueTooLarge) <->
  maxBytes <= len buf /\
  forallb continuation (firstn (Z.to_nat maxBytes) buf) = true /\
  v = 0 /\ n = maxBytes.
Proof.
  unfold types.getVarN. rewrite getVarN_scan.
  destruct (scan buf (Z.to_nat maxBytes) 0 0) as [[v' n']|] eqn:E.
  - split; [discriminate|]. intros (_ & Hc & _).
    apply scan_None with (i := 0) (v := 0) in Hc. congruence.
  - apply scan_None in E. unfold types.getVarN_after.
    destruct (Z.ltb_spec (len buf) maxBytes) as [H|H].
    + split; [discriminate | lia].
    + split; [intros X; inversion X; subst; repeat split; assumption
             | intros (_ & _ & -> & ->); reflexivity].
Qed.

Lemma getVarInt_inv (buf : list byte) (v n : Z) (e : option error) :
  types.getVarInt buf = Done (v, n, e) <->
  exists u, types.getVarN buf maxIntBytes = Done (u, n, e) /\ v = i32 u.
Proof.
  unfold types.getVarInt.
  destruct (types.getVarN buf maxIntBytes) as [[[u m] e']|]; cbn [bind].
  - split.
    + intros X. inversion X; subst. exists u. auto.
    + intros (u' & X & ->). inversion X; subst. reflexivity.
  - split; [discriminate | intros (u' & X & _); discriminate].
Qed.

Lemma getVarLong_inv (buf : list byte) (v n : Z) (e : option error) :
  types.getVarLong buf = Done (v, n, e) <->
  exists u, types.getVarN buf maxLongBytes = Done (u, n, e) /\ v = i64 u.
Proof.
  unfold types.getVarLong.
  destruct (types.getVarN buf maxLongBytes) as [[[u m] e']|]; cbn [bind].
  - split.
    + intros X. inversion X; subst. exists u. auto.
    + intros (u' & X & ->). inversion X; subst. reflexivity.
  - split; [discriminate | intros (u' & X & _); discriminate].
Qed.

(** C5.  [getVarInt] fails with [errBufTooSmall] exactly when the buffer has
    fewer than 5 bytes and every one of them carries the continuation flag,
    and then reports the number of bytes available; it fails with
    [errValueTooLarge] exactly when the buffer has at least 5 bytes and its
    first 5 all carry the flag, and then reports 5.  The same holds for
    [getVarLong] with 10.  The empty buffer is too small; six flagged bytes
    are too large a VarInt. *)
Theorem getVarInt_failures (buf : list byte) (v n : Z) :
  (types.getVarInt buf = Done (v, n, Some errBufTooSmall) <->
     len buf < 5 /\ forallb continuation buf = true /\
     v = 0 /\ n = len buf) /\
  (types.getVarInt buf = Done (v, n, Some errValueTooLarge) <->
     5 <= len buf /\ forallb continuation (firstn 5 buf) = true /\
     v = 0 /\ n = 5) /\
  (types.getVarLong buf = Done (v, n, Some errBufTooSmall) <->
     len buf < 10 /\ forallb continuation buf = true /\
     v = 0 /\ n = len buf) /\
  (types.getVarLong buf = Done (v, n, Some errValueTooLarge) <->
     10 <= len buf /\ forallb continuation (firstn 10 buf) = true /\
     v = 0 /\ n = 10) /\
  types.getVarInt [] = Done (0, 0, Some errBufTooSmall) /\
  types.getVarInt [x80; x80; x80; x80; x80; x80]
    = Done (0, 5, Some errValueTooLarge).
Proof.
  split; [|split; [|split; [|split; [|split; reflexivity]]]].
  - rewrite getVarInt_inv. split.
    + intros (u & E & ->). apply types_getVarN_BufTooSmall in E.
      destruct E as (A & B & -> & ->). repeat split; assumption.
    + intros (A & B & -> & ->). exists 0. split; [|reflexivity].
      apply types_getVarN_BufTooSmall. repeat split; assumption.
  - rewrite getVarInt_inv. split.
    + intros (u & E & ->). apply types_getVarN_ValueTooLarge in E.
      destruct E as (A & B & -> & ->). repeat split; assumption.
    + intros (A & B & -> & ->). exists 0. split; [|reflexivity].
      apply types_getVarN_ValueTooLarge. repeat split; assumption.
  - rewrite getVarLong_inv. split.
    + intros (u & E & ->). apply types_getVarN_BufTooSmall in E.
      destruct E as (A & B & -> & ->). repeat split; assumption.
    + intros (A & B & -> & ->). exists 0. split; [|reflexivity].
      apply types_getVarN_BufTooSmall. repeat split; assumption.
  - rewrite getVarLong_inv. split.
    + intros (u & E & ->). apply types_getVarN_ValueTooLarge in E.
      destruct E as (A & B & -> & ->). repeat split; assumption.
    + intros (A & B & -> & ->). exists 0. split; [|reflexivity].
      apply types_getVarN_ValueTooLarge. repeat split; assumption.
Qed.

(** C10.  The two [getVarN] disagree on a truncated buffer: on the empty
    buffer with a maximum of 5 bytes both fail with [errBufTooSmall], the one
    of [varint.go] reporting the maximum width and the one of [types.go] the
    number of bytes available. *)
Theorem getVarN_variants_differ :
  exists (buf : list byte) (maxBytes : Z),
    varint.getVarN buf maxBytes = Done (0, maxBytes, Some errBufTooSmall) /\
    types.getVarN buf maxBytes = Done (0, len buf, Some errBufTooSmall) /\
    maxBytes <> len buf /\
    varint.getVarN buf maxBytes <> types.getVarN buf maxBytes.
Proof.
  exists [], 5. repeat split; try discriminate.
Qed.

(** ** The string codec *)

(** On success the two [getVarInt] agree: they run the same loop. *)
Lemma getVarInt_agree (buf : list byte) (v n : Z) :
  types.getVarInt buf = Done (v, n, None) <->
  varint.getVarInt buf = Done (v, n, None).
Proof.
  unfold types.getVarInt, varint.getVarInt, types.getVarN, varint.getVarN.
  rewrite !getVarN_scan.
  destruct (scan buf (Z.to_nat maxIntBytes) 0 0) as [[u m]|].
  - reflexivity.
  - unfold types.getVarN_after, varint.getVarN_after.
    destruct (len buf <? maxIntBytes); cbn [bind]; split; discriminate.
Qed.

(** C6, as the code has it.  When the length prefix decodes to [L] with
    [0 <= L <= 32767] and fewer than [L] bytes follow it, [getString] fails
    with [errBufTooSmall] and reports the bytes of the prefix alone. *)
Theorem getString_truncated (buf : list byte) (L m : Z) :
  types.getVarInt buf = Done (L, m, None) ->
  0 <= L <= MaxInt16 ->
  len buf - m < L ->
  types.getString buf = Done ([], m, Some errBufTooSmall).
Proof.
  intros E HL Hs. unfold types.getString. rewrite E. cbn [bind].
  rewrite Z.add_0_l.
  destruct (Z.gtb_spec L MaxInt16) as [H|H]; [lia|].
  destruct (Z.ltb_spec (len buf) (m + L)) as [H'|H']; [reflexivity | lia].
Qed.

Lemma getString_truncated_witness :
  types.getString [x02; x41] = Done ([], 1, Some errBufTooSmall).
Proof.
  apply (getString_truncated [x02; x41] 2 1).
  - reflexivity.
  - unfold MaxInt16. lia.
  - vm_compute. reflexivity.
Defined.

(** C6 as stated fails: on the buffer [{0x01}] the prefix takes 1 byte and
    declares 1 byte, none follows, and [getString] reports 1, not 1 + 1. *)
Lemma getString_truncated_counterexample :
  ~ (forall (buf : list byte) (L m : Z),
        types.getVarInt buf = Done (L, m, None) ->
        0 <= L <= MaxInt16 ->
        len buf - m < L ->
        exists s, types.getString buf = Done (s, m + L, Some errBufTooSmall)).
Proof.
  intros C.
  destruct (C [x01] 1 1) as [s E].
  - reflexivity.
  - unfold MaxInt16. lia.
  - vm_compute. reflexivity.
  - vm_compute in E. discriminate.
Qed.

(** C7, as the code has it.  When the length prefix decodes to more than
    32767, [getString] reports the bytes of the prefix and fails: with
    [errStringTooLong] in the string codec of the split package, with the
    generic [errValueTooLarge] in [types.go].  [putString] of more than 32767
    bytes fails with the same two errors, reports 0 and leaves the
    destination as it was. *)
Theorem string_too_long (buf dst s : list byte) (L m : Z) :
  types.getVarInt buf = Done (L, m, None) ->
  L > MaxInt16 ->
  len s > MaxInt16 ->
  strings.getString buf = Done ([], m, Some errStringTooLong) /\
  types.getString buf = Done ([], m, Some errValueTooLarge) /\
  strings.putString dst s = Done (dst, (0, Some errStringTooLong)) /\
  types.putString dst s = Done (dst, (0, Some errValueTooLarge)).
Proof.
  intros E HL Hs.
  pose proof (proj1 (getVarInt_agree buf L m) E) as E'.
  unfold strings.getString, types.getString, strings.putString,
    types.putString.
  rewrite E, E'. cbn [bind].
  destruct (Z.gtb_spec L MaxInt16) as [H|H]; [|lia].
  destruct (Z.gtb_spec (len s) MaxInt16) as [H'|H']; [|lia].
  repeat split.
Qed.

Lemma string_too_long_witness :
  strings.getString [xff; xff; x02] = Done ([], 3, Some errStringTooLong) /\
  types.getString [xff; xff; x02] = Done ([], 3, Some errValueTooLarge) /\
  strings.putString [x00] (repeat x00 (Z.to_nat 32768))
    = Done ([x00], (0, Some errStringTooLong)) /\
  types.putString [x00] (repeat x00 (Z.to_nat 32768))
    = Done ([x00], (0, Some errValueTooLarge)).
Proof.
  apply (string_too_long [xff; xff; x02] [x00] (repeat x00 (Z.to_nat 32768)) 49151 3).
  - reflexivity.
  - unfold MaxInt16. lia.
  - vm_compute. reflexivity.
Defined.

(** C7 as stated fails on [types.go]: on [{0xff, 0xff, 0x02}], whose prefix
    declares 49151 bytes, its [getString] fails with [errValueTooLarge]. *)
Lemma string_too_long_counterexample :
  ~ (forall (buf : list byte) (L m : Z),
        types.getVarInt buf = Done (L, m, None) ->
        L > MaxInt16 ->
        exists s, types.getString buf = Done (s, m, Some errStringTooLong)).
Proof.
  intros C.
  destruct (C [xff; xff; x02] 49151 3) as [s E].
  - reflexivity.
  - unfold MaxInt16. lia.
  - vm_compute in E. discriminate.
Qed.

(** ** The packet decoder on a short declared length *)

(** C3, violated by the code.  On the buffer [{0x00, 0x00}] the declared total length is 0
    and the opcode takes 1 byte: the payload length is -1, the bound check
    [len(buf) < n + l] is [2 < 1], and [make([]byte, -1)] panics.  The packet
    decoder of the split package does the same. *)
Theorem getPacket_panics :
  types.getPacket [[x00; x00]] (mkslice 0 0 2 2) = Panic /\
  packets.getPacket [[x00; x00]] (mkslice 0 0 2 2) = Panic.
Proof.
  split; reflexivity.
Qed.

(** ** Big-endian words *)

Lemma lor_disjoint_add (hi lo k : Z) :
  0 <= k -> 0 <= lo < 2 ^ k -> Z.lor (hi * 2 ^ k) lo = hi * 2 ^ k + lo.
Proof.
  intros Hk Hlo.
  assert (D : Z.land (hi * 2 ^ k) lo = 0).
  { apply Z.bits_inj'. intros n Hn. rewrite Z.land_spec, Z.bits_0.
    destruct (Z.lt_ge_cases n k) as [H|H].
    - rewrite Z.mul_pow2_bits_low by lia. reflexivity.
    - destruct (Z.eq_dec lo 0) as [->|Hz].
      + rewrite Z.bits_0. apply andb_false_r.
      + rewrite (Z.bits_above_log2 lo n); [apply andb_false_r | lia |].
        apply Z.lt_le_trans with k; [|exact H].
        apply Z.log2_lt_pow2; lia. }
  rewrite <- Z.lxor_lor by exact D.
  symmetry. apply Z.add_nocarry_lxor. exact D.
Qed.

Lemma shl64_mul (x s : Z) :
  0 <= s -> 0 <= x -> x * 2 ^ s < 2 ^ 64 -> shl64 x s = x * 2 ^ s.
Proof.
  intros Hs Hx Hb. unfold shl64, u64.
  rewrite Z.shiftl_mul_pow2 by exact Hs.
  apply Z.mod_small. split; [|exact Hb].
  apply Z.mul_nonneg_nonneg; [exact Hx | apply Z.pow_nonneg; lia].
Qed.

Lemma lor_shl64_byte (acc b k : Z) :
  0 <= k <= 56 -> 0 <= acc < 2 ^ k -> 0 <= b < 256 ->
  Z.lor acc (shl64 b k) = b * 2 ^ k + acc.
Proof.
  intros Hk Ha Hb.
  assert (Hp : 2 ^ k <= 2 ^ 56) by (apply Z.pow_le_mono_r; lia).
  assert (Hq : 0 < 2 ^ k) by (apply Z.pow_pos_nonneg; lia).
  rewrite shl64_mul; [| lia | lia |].
  - rewrite Z.lor_comm. apply lor_disjoint_add; lia.
  - change (2 ^ 64) with (256 * 2 ^ 56). nia.
Qed.

Lemma BigEndian_Uint64_lor (b0 b1 b2 b3 b4 b5 b6 b7 : byte) :
  BigEndian_Uint64 [b0; b1; b2; b3; b4; b5; b6; b7] =
  Done (Z.lor (Z.lor (Z.lor (Z.lor (Z.lor (Z.lor (Z.lor
    (b2z b7) (shl64 (b2z b6) 8)) (shl64 (b2z b5) 16)) (shl64 (b2z b4) 24))
    (shl64 (b2z b3) 32)) (shl64 (b2z b2) 40)) (shl64 (b2z b1) 48))
    (shl64 (b2z b0) 56)).
Proof. reflexivity. Qed.

Lemma BigEndian_Uint64_8 (b0 b1 b2 b3 b4 b5 b6 b7 : byte) :
  BigEndian_Uint64 [b0; b1; b2; b3; b4; b5; b6; b7] =
  Done (be_word [b0; b1; b2; b3; b4; b5; b6; b7]).
Proof.
  rewrite BigEndian_Uint64_lor.
  f_equal. unfold be_word. cbn [fold_left].
  pose proof (b2z_range b0). pose proof (b2z_range b1).
  pose proof (b2z_range b2). pose proof (b2z_range b3).
  pose proof (b2z_range b4). pose proof (b2z_range b5).
  pose proof (b2z_range b6). pose proof (b2z_range b7).
  rewrite (lor_shl64_byte (b2z b7) (b2z b6) 8) by lia.
  rewrite (lor_shl64_byte _ (b2z b5) 16) by lia.
  rewrite (lor_shl64_byte _ (b2z b4) 24) by lia.
  rewrite (lor_shl64_byte _ (b2z b3) 32) by lia.
  rewrite (lor_shl64_byte _ (b2z b2) 40) by lia.
  rewrite (lor_shl64_byte _ (b2z b1) 48) by lia.
  rewrite (lor_shl64_byte _ (b2z b0) 56) by lia.
  lia.
Qed.

Lemma be_word_range (b0 b1 b2 b3 b4 b5 b6 b7 : byte) :
  0 <= be_word [b0; b1; b2; b3; b4; b5; b6; b7] < 2 ^ 64.
Proof.
  unfold be_word. cbn [fold_left].
  pose proof (b2z_range b0). pose proof (b2z_range b1).
  pose proof (b2z_range b2). pose proof (b2z_range b3).
  pose proof (b2z_range b4). pose proof (b2z_range b5).
  pose proof (b2z_range b6). pose proof (b2z_range b7).
  lia.
Qed.

Lemma BigEndian_PutUint64_8 (c0 c1 c2 c3 c4 c5 c6 c7 : byte) (v : Z) :
  BigEndian_PutUint64 [c0; c1; c2; c3; c4; c5; c6; c7] v =
  Done [z2b (shr64 v 56); z2b (shr64 v 48); z2b (shr64 v 40);
        z2b (shr64 v 32); z2b (shr64 v 24); z2b (shr64 v 16);
        z2b (shr64 v 8); z2b v].
Proof. reflexivity. Qed.

Lemma be_word_put (v : Z) :
  0 <= v < 2 ^ 64 ->
  be_word [z2b (shr64 v 56); z2b (shr64 v 48); z2b (shr64 v 40);
           z2b (shr64 v 32); z2b (shr64 v 24); z2b (shr64 v 16);
           z2b (shr64 v 8); z2b v] = v.
Proof.
  intros Hv. unfold be_word, shr64. cbn [fold_left].
  rewrite !b2z_z2b. rewrite !Z.shiftr_div_pow2 by lia.
  change (2 ^ 56) with 72057594037927936.
  change (2 ^ 48) with 281474976710656.
  change (2 ^ 40) with 1099511627776.
  change (2 ^ 32) with 4294967296.
  change (2 ^ 24) with 16777216.
  change (2 ^ 16) with 65536.
  change (2 ^ 8) with 256.
  change (2 ^ 64) with 18446744073709551616 in Hv.
  Z.div_mod_to_equations. lia.
Qed.

(** ** Bit fields of a position word *)

Lemma getField_x (v : Z) :
  0 <= v < 2 ^ 64 ->
  i32 (types.getField v 26 38) = sign_extend 26 (bit_field v 38 26).
Proof.
  intros Hv.
  unfold types.getField, sar64, shl64, i32, i64, sign_extend, bit_field.
  change (u64 (64 - (26 + 38))) with 0. change (u64 (64 - 26)) with 38.
  change (26 - 1) with 25.
  rewrite Z.shiftl_0_r, Z.shiftr_div_pow2 by lia.
  unfold u64. pow2_consts.
  destruct (Z.ltb_spec ((v / 274877906944) mod 67108864) 33554432);
    Z.div_mod_to_equations; lia.
Qed.

Lemma getField_y (v : Z) :
  0 <= v < 2 ^ 64 ->
  i16 (types.getField v 12 26) = sign_extend 12 (bit_field v 26 12).
Proof.
  intros Hv.
  unfold types.getField, sar64, shl64, i16, i64, sign_extend, bit_field.
  change (u64 (64 - (12 + 26))) with 26. change (u64 (64 - 12)) with 52.
  change (12 - 1) with 11.
  rewrite Z.shiftl_mul_pow2, Z.shiftr_div_pow2 by lia.
  unfold u64. pow2_consts.
  destruct (Z.ltb_spec ((v / 67108864) mod 4096) 2048);
    Z.div_mod_to_equations; lia.
Qed.

Lemma getField_z (v : Z) :
  0 <= v < 2 ^ 64 ->
  i32 (types.getField v 26 0) = sign_extend 26 (bit_field v 0 26).
Proof.
  intros Hv.
  unfold types.getField, sar64, shl64, i32, i64, sign_extend, bit_field.
  change (u64 (64 - (26 + 0))) with 38. change (u64 (64 - 26)) with 38.
  change (26 - 1) with 25.
  rewrite Z.shiftl_mul_pow2, Z.shiftr_div_pow2 by lia.
  unfold u64. pow2_consts.
  destruct (Z.ltb_spec ((v / 1) mod 67108864) 33554432);
    Z.div_mod_to_equations; lia.
Qed.

Lemma length_8 (buf : list byte) :
  len buf = 8 ->
  exists b0 b1 b2 b3 b4 b5 b6 b7, buf = [b0; b1; b2; b3; b4; b5; b6; b7].
Proof.
  unfold len. intros H.
  do 8 (destruct buf as [|? buf]; [simpl in H; lia|]).
  destruct buf; [|simpl in H; lia].
  do 8 eexists. reflexivity.
Qed.

Lemma getPosition_8 (b0 b1 b2 b3 b4 b5 b6 b7 : byte) :
  let buf := [b0; b1; b2; b3; b4; b5; b6; b7] in
  types.getPosition buf =
  Done (types.mkposition
          (sign_extend 26 (bit_field (be_word buf) 38 26))
          (sign_extend 12 (bit_field (be_word buf) 26 12))
          (sign_extend 26 (bit_field (be_word buf) 0 26)),
        8, None).
Proof.
  intros buf. unfold types.getPosition.
  change (len buf <? types.positionLen) with false. cbv iota.
  subst buf. rewrite BigEndian_Uint64_8. cbn [bind].
  pose proof (be_word_range b0 b1 b2 b3 b4 b5 b6 b7) as R.
  rewrite getField_x, getField_y, getField_z by exact R.
  reflexivity.
Qed.

(** C9.  On an 8-byte buffer read as the big-endian unsigned word [v],
    [getPosition] returns [x] = bits 63..38 of [v], [y] = bits 37..26 and
    [z] = bits 25..0, each sign-extended from its width, and consumes 8
    bytes; each field is what [getField] computes. *)
Theorem getPosition_fields (buf : list byte) :
  len buf = 8 ->
  let v := be_word buf in
  types.getPosition buf =
    Done (types.mkposition (sign_extend 26 (bit_field v 38 26))
                           (sign_extend 12 (bit_field v 26 12))
                           (sign_extend 26 (bit_field v 0 26)),
          8, None) /\
  sign_extend 26 (bit_field v 38 26) = i32 (types.getField v 26 38) /\
  sign_extend 12 (bit_field v 26 12) = i16 (types.getField v 12 26) /\
  sign_extend 26 (bit_field v 0 26) = i32 (types.getField v 26 0).
Proof.
  intros H v.
  destruct (length_8 buf H) as (b0 & b1 & b2 & b3 & b4 & b5 & b6 & b7 & ->).
  pose proof (be_word_range b0 b1 b2 b3 b4 b5 b6 b7) as R.
  split; [apply getPosition_8|].
  subst v. rewrite getField_x, getField_y, getField_z by exact R.
  repeat split.
Qed.

Lemma getPosition_fields_witness :
  types.getPosition [x00; x00; x40; x40; xab; xff; xfd; xff] =
  Done (types.mkposition 257 42 (-513), 8, None).
Proof.
  exact (proj1 (getPosition_fields [x00; x00; x40; x40; xab; xff; xfd; xff]
                  eq_refl)).
Defined.

(** ** Packing a position *)

Lemma putField_x (n : Z) :
  fits_signed 26 n -> types.putField (i64 n) 26 38 = (n mod 2 ^ 26) * 2 ^ 38.
Proof.
  unfold fits_signed, types.putField, shr64, shl64, i64.
  change (u64 (64 - 26)) with 38. change (u64 (64 - (26 + 38))) with 0.
  change (26 - 1) with 25. intros H.
  rewrite Z.shiftr_0_r, Z.shiftl_mul_pow2 by lia.
  unfold u64. pow2_consts. Z.div_mod_to_equations. lia.
Qed.

Lemma putField_y (n : Z) :
  fits_signed 12 n -> types.putField (i64 n) 12 26 = (n mod 2 ^ 12) * 2 ^ 26.
Proof.
  unfold fits_signed, types.putField, shr64, shl64, i64.
  change (u64 (64 - 12)) with 52. change (u64 (64 - (12 + 26))) with 26.
  change (12 - 1) with 11. intros H.
  rewrite Z.shiftr_div_pow2, Z.shiftl_mul_pow2 by lia.
  unfold u64. pow2_consts. Z.div_mod_to_equations. lia.
Qed.

Lemma putField_z (n : Z) :
  fits_signed 26 n -> types.putField (i64 n) 26 0 = n mod 2 ^ 26.
Proof.
  unfold fits_signed, types.putField, shr64, shl64, i64.
  change (u64 (64 - 26)) with 38. change (u64 (64 - (26 + 0))) with 38.
  change (26 - 1) with 25. intros H.
  rewrite Z.shiftr_div_pow2, Z.shiftl_mul_pow2 by lia.
  unfold u64. pow2_consts. Z.div_mod_to_equations. lia.
Qed.


Lemma putPosition_word (p : types.position) :
  fits_signed 26 (types.x p) -> fits_signed 12 (types.y p) ->
  fits_signed 26 (types.z p) ->
  Z.lor (Z.lor (Z.lor 0 (types.putField (i64 (types.x p)) 26 38))
               (types.putField (i64 (types.y p)) 12 26))
        (types.putField (i64 (types.z p)) 26 0) = position_word p /\
  0 <= position_word p < 2 ^ 64.
Proof.
  intros Hx Hy Hz.
  rewrite putField_x, putField_y, putField_z by assumption.
  unfold position_word.
  assert (Rx : 0 <= types.x p mod 2 ^ 26 < 2 ^ 26) by (apply Z.mod_pos_bound; lia).
  assert (Ry : 0 <= types.y p mod 2 ^ 12 < 2 ^ 12) by (apply Z.mod_pos_bound; lia).
  assert (Rz : 0 <= types.z p mod 2 ^ 26 < 2 ^ 26) by (apply Z.mod_pos_bound; lia).
  set (X := types.x p mod 2 ^ 26) in *.
  set (Y := types.y p mod 2 ^ 12) in *.
  set (Z' := types.z p mod 2 ^ 26) in *.
  rewrite Z.lor_0_l.
  rewrite (lor_disjoint_add X (Y * 2 ^ 26) 38) by (pow2_consts; lia).
  replace (X * 2 ^ 38 + Y * 2 ^ 26) with ((X * 2 ^ 12 + Y) * 2 ^ 26)
    by (pow2_consts; lia).
  rewrite (lor_disjoint_add _ Z' 26) by lia.
  pow2_consts. lia.
Qed.

Lemma position_word_fields (p : types.position) :
  fits_signed 26 (types.x p) -> fits_signed 12 (types.y p) ->
  fits_signed 26 (types.z p) ->
  sign_extend 26 (bit_field (position_word p) 38 26) = types.x p /\
  sign_extend 12 (bit_field (position_word p) 26 12) = types.y p /\
  sign_extend 26 (bit_field (position_word p) 0 26) = types.z p.
Proof.
  unfold fits_signed, position_word, sign_extend, bit_field.
  change (26 - 1) with 25. change (12 - 1) with 11.
  intros Hx Hy Hz. pow2_consts.
  repeat split.
  - match goal with |- (if ?c then _ else _) = _ => destruct c eqn:E end;
      [apply Z.ltb_lt in E | apply Z.ltb_ge in E];
      Z.div_mod_to_equations; lia.
  - match goal with |- (if ?c then _ else _) = _ => destruct c eqn:E end;
      [apply Z.ltb_lt in E | apply Z.ltb_ge in E];
      Z.div_mod_to_equations; lia.
  - match goal with |- (if ?c then _ else _) = _ => destruct c eqn:E end;
      [apply Z.ltb_lt in E | apply Z.ltb_ge in E];
      Z.div_mod_to_equations; lia.
Qed.

Lemma putPosition_8 (c0 c1 c2 c3 c4 c5 c6 c7 : byte) (p : types.position) :
  let v := Z.lor (Z.lor (Z.lor 0 (types.putField (i64 (types.x p)) 26 38))
                        (types.putField (i64 (types.y p)) 12 26))
                 (types.putField (i64 (types.z p)) 26 0) in
  types.putPosition [c0; c1; c2; c3; c4; c5; c6; c7] p =
  Done ([z2b (shr64 v 56); z2b (shr64 v 48); z2b (shr64 v 40);
         z2b (shr64 v 32); z2b (shr64 v 24); z2b (shr64 v 16);
         z2b (shr64 v 8); z2b v], (8, None)).
Proof. reflexivity. Qed.

(** C4.  A position whose [x] and [z] fit 26 signed bits and whose [y] fits
    12 is written by [putPosition] into an 8-byte buffer with 8 consumed,
    and [getPosition] on the result returns it with 8 consumed.  The position
    (257, 42, -513) is written as 00 00 40 40 ab ff fd ff and read back from
    those bytes; the zero position is written as eight zero bytes. *)
Theorem position_roundtrip (p : types.position) (buf : list byte) :
  fits_signed 26 (types.x p) -> fits_signed 12 (types.y p) ->
  fits_signed 26 (types.z p) ->
  len buf = 8 ->
  (exists buf',
      types.putPosition buf p = Done (buf', (8, None)) /\
      len buf' = 8 /\
      types.getPosition buf' = Done (p, 8, None)) /\
  types.putPosition buf (types.mkposition 257 42 (-513))
    = Done ([x00; x00; x40; x40; xab; xff; xfd; xff], (8, None)) /\
  types.getPosition [x00; x00; x40; x40; xab; xff; xfd; xff]
    = Done (types.mkposition 257 42 (-513), 8, None) /\
  types.putPosition buf types.position_zero = Done (repeat x00 8, (8, None)).
Proof.
  intros Hx Hy Hz H.
  destruct (length_8 buf H) as (c0 & c1 & c2 & c3 & c4 & c5 & c6 & c7 & ->).
  split; [|repeat split].
  rewrite putPosition_8. cbv zeta.
  destruct (putPosition_word p Hx Hy Hz) as [-> R].
  eexists. split; [reflexivity|]. split; [reflexivity|].
  rewrite getPosition_8. cbv zeta.
  rewrite be_word_put by exact R.
  destruct (position_word_fields p Hx Hy Hz) as (-> & -> & ->).
  destruct p; reflexivity.
Qed.

Lemma position_roundtrip_witness :
  exists buf',
    types.putPosition (repeat xff 8) (types.mkposition (-33554432) 2047 (-1))
      = Done (buf', (8, None)) /\
    len buf' = 8 /\
    types.getPosition buf'
      = Done (types.mkposition (-33554432) 2047 (-1), 8, None).
Proof.
  apply (position_roundtrip (types.mkposition (-33554432) 2047 (-1))
           (repeat xff 8)).
  - unfold fits_signed. simpl. lia.
  - unfold fits_signed. simpl. lia.
  - unfold fits_signed. simpl. lia.
  - reflexivity.
Defined.

(** ** Length function agreement *)

Lemma lenVarInt_negative (v : Z) : is_int32 v -> v < 0 -> lenVarInt v = 5.
Proof.
  unfold is_int32, lenVarInt, lenVarN, Len64, u64, u32, cbits. intros H Hn.
  assert (E : v mod 2 ^ 32 = v + 2 ^ 32)
    by (symmetry; apply Z.mod_unique with (-1); lia).
  rewrite E, Z.mod_small by lia.
  assert (L : Z.log2 (v + 2 ^ 32) = 31) by (apply Z.log2_unique; lia).
  destruct (Z.eqb_spec (v + 2 ^ 32) 0); [lia|].
  rewrite L. reflexivity.
Qed.

Lemma lenVarLong_negative (v : Z) : is_int64 v -> v < 0 -> lenVarLong v = 10.
Proof.
  unfold is_int64, lenVarLong, lenVarN, Len64, u64, cbits. intros H Hn.
  assert (E : v mod 2 ^ 64 = v + 2 ^ 64)
    by (symmetry; apply Z.mod_unique with (-1); lia).
  rewrite E.
  assert (L : Z.log2 (v + 2 ^ 64) = 63) by (apply Z.log2_unique; lia).
  destruct (Z.eqb_spec (v + 2 ^ 64) 0); [lia|].
  rewrite L. reflexivity.
Qed.

(** C8.  [lenVarInt v] is [1 + (bit_length u - 1) / 7] for [u] the unsigned
    32-bit reinterpretation of [v], with [bit_length 0] taken as 1, and is
    the count a successful [putVarInt] of [v] returns; likewise
    [lenVarLong] and [putVarLong] over 64 bits.  Every negative value has
    the maximum width; [lenVarInt (-1) = 5] and [lenVarLong (-1) = 10]. *)
Theorem lenVar_agreement (v w n m : Z) (b5 b5' b10 b10' : list byte) :
  types.putVarInt b5 v = Done (b5', (n, None)) ->
  types.putVarLong b10 w = Done (b10', (m, None)) ->
  lenVarInt v = size_formula (u32 v) /\
  n = lenVarInt v /\
  lenVarLong w = size_formula (u64 w) /\
  m = lenVarLong w /\
  (is_int32 v -> v < 0 -> lenVarInt v = 5) /\
  (is_int64 w -> w < 0 -> lenVarLong w = 10) /\
  lenVarInt (-1) = 5 /\
  lenVarLong (-1) = 10.
Proof.
  intros E32 E64.
  pose proof (u32_range v) as R32. pose proof (u64_range w) as R64.
  repeat split.
  - unfold lenVarInt. rewrite lenVarN_size_formula by lia.
    f_equal. unfold u64. apply Z.mod_small.
    unfold u32. assert (0 <= v mod 2 ^ 32 < 2 ^ 32)
      by (apply Z.mod_pos_bound; lia). lia.
  - apply (types_putVarN_consumed b5 b5' _ maxIntBytes); [lia | exact E32].
  - unfold lenVarLong. apply lenVarN_size_formula. lia.
  - apply (types_putVarN_consumed b10 b10' _ maxLongBytes); [lia | exact E64].
  - apply lenVarInt_negative.
  - apply lenVarLong_negative.
Qed.

Lemma lenVar_agreement_witness :
  lenVarInt 300 = size_formula (u32 300) /\
  2 = lenVarInt 300 /\
  lenVarLong (-1) = size_formula (u64 (-1)) /\
  10 = lenVarLong (-1).
Proof.
  destruct (lenVar_agreement 300 (-1) 2 10
              [x00; x00] [xac; x02]
              (repeat x00 10)
              [xff; xff; xff; xff; xff; xff; xff; xff; xff; x01]
              eq_refl eq_refl) as (A & B & C & D & _).
  repeat split; assumption.
Defined.

(** ** The heap *)

Lemma firstn_add (A : Type) (a b : nat) (l : list A) :
  firstn (a + b) l = firstn a l ++ firstn b (skipn a l).
Proof.
  revert l. induction a as [|a IH]; intros l; [reflexivity|].
  destruct l as [|c l]; cbn [Nat.add firstn skipn app].
  - rewrite firstn_nil. reflexivity.
  - f_equal. apply IH.
Qed.

Lemma array_set_array_same (h : heap) (a : nat) (bs : list byte) :
  (a < length h)%nat -> array (set_array h a bs) a = bs.
Proof.
  unfold array. revert a. induction h as [|c h IH]; intros [|a] H;
    simpl in *; try lia; [reflexivity|]. apply IH. lia.
Qed.

Lemma array_set_array_other (h : heap) (a c : nat) (bs : list byte) :
  c <> a -> array (set_array h a bs) c = array h c.
Proof.
  unfold array. revert a c. induction h as [|d h IH]; intros [|a] [|c] H;
    simpl in *; try reflexivity; try congruence. apply IH. congruence.
Qed.

Lemma length_set_array (h : heap) (a : nat) (bs : list byte) :
  length (set_array h a bs) = length h.
Proof.
  revert a. induction h as [|c h IH]; intros [|a]; simpl; auto.
Qed.

Lemma length_load (h : heap) (s : slice) : valid h s -> length (load h s) = slen s.
Proof.
  intros (_ & H & _). unfold load.
  rewrite length_firstn, length_skipn. lia.
Qed.

Lemma load_store_same (h : heap) (s : slice) (bs : list byte) :
  valid h s -> length bs = slen s -> load (store h s bs) s = bs.
Proof.
  intros (Hb & Ho & _) Hl. unfold load, store.
  rewrite array_set_array_same by exact Hb.
  set (A := array h (base s)) in *.
  assert (L1 : length (firstn (off s) A) = off s) by (rewrite length_firstn; lia).
  rewrite skipn_app, L1, Nat.sub_diag, skipn_O.
  rewrite (skipn_all2 (firstn (off s) A)) by lia. cbn [app].
  rewrite (firstn_all2 bs) by lia.
  rewrite firstn_app, Hl, Nat.sub_diag, firstn_O, app_nil_r.
  apply firstn_all2. lia.
Qed.

Lemma load_store_other (h : heap) (s s' : slice) (bs : list byte) :
  base s' <> base s -> load (store h s bs) s' = load h s'.
Proof.
  intros H. unfold load, store.
  rewrite array_set_array_other by exact H. reflexivity.
Qed.

Lemma store_same_except (h : heap) (s : slice) (bs : list byte) :
  same_except (base s) h (store h s bs).
Proof.
  split.
  - unfold store. apply length_set_array.
  - intros c Hc. unfold store. apply array_set_array_other. exact Hc.
Qed.

Lemma length_array_store (h : heap) (s : slice) (bs : list byte) :
  valid h s -> length bs = slen s ->
  length (array (store h s bs) (base s)) = length (array h (base s)).
Proof.
  intros (Hb & Ho & _) Hl. unfold store.
  rewrite array_set_array_same by exact Hb.
  rewrite !length_app, length_firstn, length_firstn, length_skipn. lia.
Qed.

Lemma valid_store (h : heap) (s s' : slice) (bs : list byte) :
  valid h s -> length bs = slen s -> valid h s' -> valid (store h s bs) s'.
Proof.
  intros V Hl (Hb & Ho & Hc). unfold valid.
  split; [|split; [|exact Hc]].
  - unfold store. rewrite length_set_array. exact Hb.
  - destruct (Nat.eq_dec (base s') (base s)) as [E|E].
    + rewrite E in *. rewrite length_array_store by assumption. exact Ho.
    + unfold store. rewrite array_set_array_other by exact E. exact Ho.
Qed.

(** Reslicing. *)
Lemma reslice_ok (s : slice) (lo hi : Z) :
  0 <= lo <= hi -> hi <= Z.of_nat (slen s) -> (slen s <= scap s)%nat ->
  reslice s lo hi =
  Done (mkslice (base s) (off s + Z.to_nat lo) (Z.to_nat (hi - lo))
                (scap s - Z.to_nat lo)).
Proof.
  intros H1 H2 H3. unfold reslice.
  replace ((0 <=? lo) && (lo <=? hi) && (hi <=? Z.of_nat (scap s))) with true;
    [reflexivity|].
  symmetry. rewrite !andb_true_iff, !Z.leb_le. lia.
Qed.

Lemma load_sub (h : heap) (s : slice) (lo hi : nat) :
  valid h s -> (lo <= hi <= slen s)%nat ->
  load h (mkslice (base s) (off s + lo) (hi - lo) (scap s - lo)) =
  firstn (hi - lo) (skipn lo (load h s)).
Proof.
  intros (Hb & Ho & _) H. unfold load. cbn [base off slen].
  rewrite skipn_firstn_comm, firstn_firstn, skipn_skipn.
  rewrite Nat.min_l by lia.
  f_equal. f_equal. lia.
Qed.

Lemma valid_sub (h : heap) (s : slice) (lo hi : nat) :
  valid h s -> (lo <= hi <= slen s)%nat ->
  valid h (mkslice (base s) (off s + lo) (hi - lo) (scap s - lo)).
Proof.
  intros (Hb & Ho & Hc) H. unfold valid. cbn [base off slen scap]. lia.
Qed.

Lemma store_tail (h : heap) (s : slice) (lo : nat) (bs : list byte) :
  valid h s -> (lo <= slen s)%nat -> length bs = (slen s - lo)%nat ->
  store h (mkslice (base s) (off s + lo) (slen s - lo) (scap s - lo)) bs =
  store h s (firstn lo (load h s) ++ bs).
Proof.
  intros (Hb & Ho & _) Hlo Hl. unfold store, load. cbn [base off slen].
  set (A := array h (base s)) in *.
  f_equal.
  rewrite firstn_firstn, Nat.min_l by lia.
  assert (L : length (firstn lo (skipn (off s) A)) = lo)
    by (rewrite length_firstn, length_skipn; lia).
  rewrite (firstn_all2 bs) by lia.
  rewrite (firstn_all2 (firstn lo (skipn (off s) A) ++ bs))
    by (rewrite length_app; lia).
  rewrite firstn_add, <- !app_assoc.
  replace (off s + lo + (slen s - lo))%nat with (off s + slen s)%nat by lia.
  reflexivity.
Qed.

Lemma to_nat_len (bs : list byte) : Z.to_nat (len bs) = length bs.
Proof. unfold len. apply Nat2Z.id. Qed.

Lemma reslice_tail (s : slice) (n : Z) :
  0 <= n <= Z.of_nat (slen s) -> (slen s <= scap s)%nat ->
  reslice s n (Z.of_nat (slen s)) = Done (tail s (Z.to_nat n)).
Proof.
  intros H Hc. rewrite reslice_ok by lia. unfold tail.
  do 2 f_equal. lia.
Qed.

Lemma load_tail (h : heap) (s : slice) (k : nat) :
  valid h s -> (k <= slen s)%nat -> load h (tail s k) = skipn k (load h s).
Proof.
  intros V H. unfold tail.
  rewrite (load_sub h s k (slen s) V) by lia.
  apply firstn_all2. rewrite length_skipn, length_load by exact V. lia.
Qed.

Lemma store_store (h : heap) (s : slice) (X Y : list byte) :
  valid h s -> length X = slen s ->
  store (store h s X) s Y = store h s Y.
Proof.
  intros (Hb & Ho & Hc) Hl. unfold store at 1 3.
  set (h1 := store h s X).
  assert (E : array h1 (base s) =
              firstn (off s) (array h (base s)) ++ X ++
              skipn (off s + slen s) (array h (base s))).
  { subst h1. unfold store. rewrite array_set_array_same by exact Hb.
    rewrite (firstn_all2 X) by lia. reflexivity. }
  rewrite E. set (A := array h (base s)) in *.
  assert (L1 : length (firstn (off s) A) = off s) by (rewrite length_firstn; lia).
  set (S := skipn (off s + slen s) A) in *.
  assert (E1 : firstn (off s) (firstn (off s) A ++ X ++ S) = firstn (off s) A).
  { rewrite firstn_app, L1, Nat.sub_diag, firstn_O, app_nil_r.
    rewrite firstn_firstn, Nat.min_id. reflexivity. }
  assert (E2 : skipn (off s + slen s) (firstn (off s) A ++ X ++ S) = S).
  { rewrite app_assoc, skipn_app.
    rewrite length_app, L1, Hl, Nat.sub_diag, skipn_O.
    rewrite skipn_all2 by (rewrite length_app; lia).
    reflexivity. }
  rewrite E1, E2. subst h1 S. unfold store. fold A.
  generalize (firstn (off s) A ++ firstn (slen s) Y ++ skipn (off s + slen s) A).
  generalize (firstn (off s) A ++ firstn (slen s) X ++ skipn (off s + slen s) A).
  generalize (base s). clear.
  induction h as [|c h IH]; intros [|a] P Q; simpl; try reflexivity.
  f_equal. apply IH.
Qed.

Lemma in_place_ok (A : Type) (h : heap) (s : slice)
    (f : list byte -> go (list byte * A)) (bs : list byte) (r : A) :
  f (load h s) = Done (bs, r) -> in_place h s f = Done (store h s bs, r).
Proof. intros E. unfold in_place. rewrite E. reflexivity. Qed.

Lemma len_VarInt (v : Z) : len (VarInt v) = lenVarInt v.
Proof.
  pose proof (lenVarInt_bound v). pose proof (u32_range v).
  unfold VarInt, lenVarInt in *.
  apply varN_ends_length; [lia|].
  apply varN_ends_of_len; lia.
Qed.

Lemma types_putVarInt_room (buf : list byte) (v : Z) :
  (length (VarInt v) <= length buf)%nat ->
  types.putVarInt buf v =
  Done (VarInt v ++ skipn (length (VarInt v)) buf, (len (VarInt v), None)).
Proof.
  intros H.
  destruct (types_putVarInt_ok buf v) as [E L].
  - rewrite <- len_VarInt. unfold len. lia.
  - rewrite E, <- L, to_nat_len. reflexivity.
Qed.

Lemma types_getVarInt_wire (v : Z) (rest : list byte) :
  is_int32 v ->
  types.getVarInt (VarInt v ++ rest) = Done (v, len (VarInt v), None).
Proof.
  intros H. rewrite len_VarInt. apply types_getVarInt_ok. exact H.
Qed.

Lemma i32_small (v : Z) : is_int32 v -> i32 v = v.
Proof.
  unfold is_int32, i32. intros H. Z.div_mod_to_equations. lia.
Qed.

(** ** Writing a packet *)

Lemma skipn_app_exact (A : Type) (a b : list A) :
  skipn (length a) (a ++ b) = b.
Proof.
  rewrite skipn_app, Nat.sub_diag, skipn_O, skipn_all2 by lia. reflexivity.
Qed.

Lemma firstn_app_exact (A : Type) (a b : list A) :
  firstn (length a) (a ++ b) = a.
Proof.
  rewrite firstn_app, Nat.sub_diag, firstn_O, firstn_all2, app_nil_r by lia.
  reflexivity.
Qed.

(** What lies outside a rewritten part of a list is read as before. *)
Lemma splice_view (A : Type) (P M M' S : list A) (o n : nat) :
  length M = length M' ->
  n = O \/ (o + n <= length P)%nat \/ (length P + length M <= o)%nat ->
  firstn n (skipn o (P ++ M ++ S)) = firstn n (skipn o (P ++ M' ++ S)).
Proof.
  intros Hl [-> | [H | H]].
  - reflexivity.
  - rewrite !skipn_app.
    replace (o - length P)%nat with O by lia. rewrite !skipn_O.
    rewrite !(firstn_app n (skipn o P)), length_skipn.
    replace (n - (length P - o))%nat with O by lia.
    rewrite !firstn_O. reflexivity.
  - rewrite !skipn_app, (skipn_all2 P) by lia. cbn [app].
    rewrite (skipn_all2 M), (skipn_all2 M') by lia. cbn [app].
    rewrite Hl. reflexivity.
Qed.

(** Writing [Wp] at the front of [s] leaves every slice separate from those
    bytes as it was. *)
Lemma load_store_outside (h : heap) (s s' : slice) (Wp : list byte) :
  valid h s -> (length Wp <= slen s)%nat ->
  separate s' s (length Wp) ->
  load (store h s (Wp ++ skipn (length Wp) (load h s))) s' = load h s'.
Proof.
  intros (Vb & Vo & Vc) Hw Hs.
  destruct (Nat.eq_dec (base s') (base s)) as [E|E];
    [|apply load_store_other; exact E].
  unfold load at 1 3, store. rewrite E.
  rewrite array_set_array_same by exact Vb.
  set (A := array h (base s)) in *.
  set (w := length Wp) in *.
  assert (Ll : length (load h s) = slen s)
    by (apply length_load; repeat split; assumption).
  rewrite (firstn_all2 (Wp ++ skipn w (load h s)))
    by (rewrite length_app, length_skipn; lia).
  assert (ET : skipn w (load h s) ++ skipn (off s + slen s) A
               = skipn (off s + w) A).
  { unfold load. fold A.
    rewrite skipn_firstn_comm, skipn_skipn.
    replace (w + off s)%nat with (off s + w)%nat by lia.
    rewrite <- (firstn_skipn (slen s - w) (skipn (off s + w) A)) at 2.
    rewrite skipn_skipn. do 2 f_equal. lia. }
  rewrite <- app_assoc, ET.
  assert (EA : A = firstn (off s) A ++ firstn w (skipn (off s) A)
                   ++ skipn (off s + w) A).
  { rewrite <- (firstn_skipn (off s) A) at 1. f_equal.
    rewrite <- (firstn_skipn w (skipn (off s) A)) at 1. f_equal.
    rewrite skipn_skipn. f_equal. lia. }
  rewrite EA at 3.
  apply splice_view.
  - rewrite length_firstn, length_skipn. lia.
  - rewrite length_firstn. fold w in Hs. unfold separate in Hs.
    replace (Nat.min (off s) (length A)) with (off s) by lia. lia.
Qed.

Lemma putPacket_ok (h : heap) (buf : slice) (p : types.packet) :
  valid h buf -> valid h (types.data p) ->
  lenVarInt (types.id p) + Z.of_nat (slen (types.data p)) <= MaxInt32 ->
  separate (types.data p) buf (header_len p) ->
  let W := packet_bytes (types.id p) (load h (types.data p)) in
  (length W <= slen buf)%nat ->
  types.putPacket h buf p =
  Done (store h buf (W ++ skipn (length W) (load h buf)), (len W, None)).
Proof.
  intros V Vd HL Hsep W HW. unfold header_len in Hsep.
  pose proof (length_load h buf V) as LB.
  pose proof (length_load h _ Vd) as Ld.
  set (B := load h buf) in *. set (d := load h (types.data p)) in *.
  set (Lz := lenVarInt (types.id p) + Z.of_nat (slen (types.data p))) in *.
  assert (EL : lenVarInt (types.id p) + len d = Lz)
    by (unfold len; rewrite Ld; reflexivity).
  assert (EW : W = VarInt Lz ++ VarInt (types.id p) ++ d)
    by (subst W; unfold packet_bytes; rewrite EL; reflexivity).
  pose proof (lenVarInt_bound (types.id p)) as Bid.
  assert (I32 : is_int32 Lz) by (unfold is_int32, MaxInt32 in *; lia).
  set (k1 := length (VarInt Lz)). set (k2 := length (VarInt (types.id p))).
  assert (LW : length W = (k1 + k2 + length d)%nat)
    by (rewrite EW, !length_app; subst k1 k2; lia).
  destruct V as (Vb & Vo & Vc).
  assert (V : valid h buf) by (repeat split; assumption).
  (* the length prefix *)
  set (X1 := VarInt Lz ++ skipn k1 B).
  assert (LX1 : length X1 = slen buf)
    by (subst X1; rewrite length_app, length_skipn; subst k1; lia).
  assert (E1 : types.putVarInt (load h buf) (i32 Lz)
               = Done (X1, (len (VarInt Lz), None))).
  { rewrite i32_small by exact I32. apply types_putVarInt_room.
    fold B k1. lia. }
  set (h1 := store h buf X1).
  assert (V1 : valid h1 buf) by (apply valid_store; assumption).
  assert (B1 : load h1 buf = X1) by (apply load_store_same; assumption).
  (* the opcode *)
  set (X2 := VarInt Lz ++ VarInt (types.id p) ++ skipn (k1 + k2) B).
  assert (LX2 : length X2 = slen buf).
  { subst X2. rewrite !length_app, length_skipn. subst k1 k2. lia. }
  assert (T1 : load h1 (tail buf k1) = skipn k1 B).
  { rewrite load_tail by (assumption || lia). rewrite B1.
    subst X1 k1. apply skipn_app_exact. }
  assert (E2 : types.putVarInt (load h1 (tail buf k1)) (types.id p)
               = Done (VarInt (types.id p) ++ skipn (k1 + k2) B,
                       (len (VarInt (types.id p)), None))).
  { rewrite T1, types_putVarInt_room by (rewrite length_skipn; fold k2; lia).
    fold k2. rewrite skipn_skipn, (Nat.add_comm k2 k1). reflexivity. }
  assert (S2 : store h1 (tail buf k1)
                 (VarInt (types.id p) ++ skipn (k1 + k2) B)
               = store h buf X2).
  { unfold tail. rewrite store_tail;
      [| assumption | lia | rewrite length_app, length_skipn; fold k2; lia].
    rewrite B1. subst X1 k1. rewrite firstn_app_exact.
    subst h1. rewrite store_store by assumption. reflexivity. }
  set (h2 := store h buf X2).
  assert (V2 : valid h2 buf) by (apply valid_store; assumption).
  assert (B2 : load h2 buf = X2) by (apply load_store_same; assumption).
  (* the payload *)
  set (X3 := W ++ skipn (length W) B).
  assert (D2 : load h2 (types.data p) = d).
  { subst h2 X2. rewrite app_assoc.
    replace (k1 + k2)%nat
      with (length (VarInt Lz ++ VarInt (types.id p)))
      by (rewrite length_app; reflexivity).
    apply load_store_outside; [exact V | rewrite length_app; fold k1 k2; lia|].
    rewrite length_app. exact Hsep. }
  assert (T2 : load h2 (tail buf (k1 + k2)) = skipn (k1 + k2) B).
  { rewrite load_tail by (assumption || lia). rewrite B2. subst X2.
    rewrite app_assoc.
    replace (k1 + k2)%nat
      with (length (VarInt Lz ++ VarInt (types.id p)))
      by (rewrite length_app; reflexivity).
    apply skipn_app_exact. }
  assert (C3 : copy_slice h2 (tail buf (k1 + k2)) (types.data p)
               = (store h buf X3, Z.of_nat (slen (types.data p)))).
  { unfold copy_slice, copy. rewrite T2, D2.
    rewrite length_skipn, Nat.min_r by lia.
    rewrite firstn_all, Ld. f_equal.
    unfold tail. rewrite store_tail;
      [| assumption | lia
       | rewrite length_app, !length_skipn; lia].
    rewrite B2. subst X2.
    replace (firstn (k1 + k2)
               (VarInt Lz ++ VarInt (types.id p) ++ skipn (k1 + k2) B))
      with (VarInt Lz ++ VarInt (types.id p)).
    2:{ rewrite app_assoc.
        replace (k1 + k2)%nat
          with (length (VarInt Lz ++ VarInt (types.id p)))
          by (rewrite length_app; reflexivity).
        rewrite firstn_app_exact. reflexivity. }
    subst h2. rewrite store_store by assumption.
    f_equal. subst X3. rewrite EW, <- !app_assoc.
    do 3 f_equal. rewrite skipn_skipn. f_equal.
    rewrite <- Ld, !length_app. fold k1 k2. lia. }
  (* the code *)
  unfold types.putPacket. fold Lz.
  destruct (Z.gtb_spec Lz MaxInt32) as [G|_]; [lia|].
  rewrite (in_place_ok _ h buf _ _ _ E1). cbn [bind]. fold h1.
  rewrite Z.add_0_l.
  rewrite reslice_tail by (unfold len; fold k1; lia).
  rewrite to_nat_len. fold k1. cbn [bind].
  rewrite (in_place_ok _ h1 (tail buf k1) _ _ _ E2). cbn [bind].
  rewrite S2. fold h2.
  rewrite reslice_tail by (unfold len; fold k1 k2; lia).
  replace (Z.to_nat (len (VarInt Lz) + len (VarInt (types.id p))))
    with (k1 + k2)%nat by (unfold len; fold k1 k2; lia).
  cbn [bind]. rewrite C3.
  rewrite Z.ltb_irrefl.
  f_equal. f_equal. f_equal. unfold len. fold k1 k2. lia.
Qed.

(** ** Reading a packet *)

Lemma array_app_old (h : heap) (a : list byte) (c : nat) :
  (c < length h)%nat -> array (h ++ [a]) c = array h c.
Proof. intros H. unfold array. apply app_nth1. exact H. Qed.

Lemma array_app_new (h : heap) (a : list byte) :
  array (h ++ [a]) (length h) = a.
Proof. unfold array. apply nth_middle. Qed.

Lemma load_app_old (h : heap) (a : list byte) (s : slice) :
  (base s < length h)%nat -> load (h ++ [a]) s = load h s.
Proof. intros H. unfold load. rewrite array_app_old by exact H. reflexivity. Qed.

Lemma valid_fresh (h : heap) (n : nat) :
  valid (h ++ [repeat x00 n]) (fresh h n).
Proof.
  unfold valid, fresh. cbn [base off slen scap].
  rewrite array_app_new, length_app, repeat_length. cbn [length]. lia.
Qed.

Lemma getPacket_ok (h : heap) (buf : slice) (i : Z) (d rest : list byte) :
  valid h buf -> is_int32 i -> lenVarInt i + len d <= MaxInt32 ->
  load h buf = packet_bytes i d ++ rest ->
  types.getPacket h buf =
  Done (store (h ++ [repeat x00 (length d)]) (fresh h (length d)) d,
        (types.mkpacket i (fresh h (length d)), len (packet_bytes i d), None)).
Proof.
  intros V Hi HL HB.
  pose proof (length_load h buf V) as LB.
  set (Lz := lenVarInt i + len d) in *.
  pose proof (lenVarInt_bound i) as Bid.
  assert (I32 : is_int32 Lz)
    by (unfold is_int32, MaxInt32, len in *; lia).
  set (k1 := length (VarInt Lz)). set (k2 := length (VarInt i)).
  assert (EB : load h buf = VarInt Lz ++ VarInt i ++ d ++ rest)
    by (rewrite HB; unfold packet_bytes; fold Lz; rewrite <- !app_assoc;
        reflexivity).
  assert (LS : slen buf = (k1 + k2 + length d + length rest)%nat)
    by (rewrite <- LB, EB, !length_app; subst k1 k2; lia).
  destruct V as (Vb & Vo & Vc).
  assert (V : valid h buf) by (repeat split; assumption).
  assert (E1 : types.getVarInt (load h buf) = Done (Lz, len (VarInt Lz), None))
    by (rewrite EB; apply types_getVarInt_wire; exact I32).
  assert (T1 : load h (tail buf k1) = VarInt i ++ d ++ rest).
  { rewrite load_tail by (assumption || lia). rewrite EB.
    subst k1. apply skipn_app_exact. }
  assert (E2 : types.getVarInt (load h (tail buf k1))
               = Done (i, len (VarInt i), None))
    by (rewrite T1; apply types_getVarInt_wire; exact Hi).
  assert (El : Lz - len (VarInt i) = len d)
    by (rewrite len_VarInt; subst Lz; lia).
  set (h4 := h ++ [repeat x00 (length d)]).
  set (src := mkslice (base buf) (off buf + (k1 + k2))
                      (k1 + k2 + length d - (k1 + k2))
                      (scap buf - (k1 + k2))).
  assert (R : reslice buf (len (VarInt Lz) + len (VarInt i))
                (len (VarInt Lz) + len (VarInt i) + len d) = Done src).
  { rewrite reslice_ok by (unfold len; fold k1 k2; lia).
    subst src. unfold len. fold k1 k2.
    f_equal. f_equal; lia. }
  assert (Ls : load h4 src = d).
  { subst h4. rewrite load_app_old by exact Vb.
    subst src. rewrite load_sub by (assumption || lia).
    rewrite EB.
    replace (k1 + k2 + length d - (k1 + k2))%nat with (length d) by lia.
    rewrite app_assoc.
    replace (k1 + k2)%nat with (length (VarInt Lz ++ VarInt i))
      by (rewrite length_app; reflexivity).
    rewrite skipn_app_exact. apply firstn_app_exact. }
  assert (Lf : load h4 (fresh h (length d)) = repeat x00 (length d)).
  { unfold load, fresh. cbn [base off slen]. subst h4.
    rewrite array_app_new, skipn_O. apply firstn_all2.
    rewrite repeat_length. lia. }
  assert (C : copy_slice h4 (fresh h (length d)) src
              = (store h4 (fresh h (length d)) d, len d)).
  { unfold copy_slice, copy. rewrite Lf, Ls.
    rewrite repeat_length, Nat.min_id, firstn_all.
    rewrite skipn_all2 by (rewrite repeat_length; lia).
    rewrite app_nil_r. reflexivity. }
  unfold types.getPacket. rewrite E1. cbn [bind]. rewrite Z.add_0_l.
  rewrite reslice_tail by (unfold len; fold k1; lia).
  rewrite to_nat_len. fold k1. cbn [bind].
  rewrite E2. cbn [bind]. rewrite El.
  destruct (Z.ltb_spec (Z.of_nat (slen buf))
              (len (VarInt Lz) + len (VarInt i) + len d)) as [G|_];
    [unfold len in G; fold k1 k2 in G; lia|].
  unfold make. destruct (Z.ltb_spec (len d) 0) as [G|_];
    [unfold len in G; lia|].
  rewrite to_nat_len. fold h4. fold (fresh h (length d)). cbn [bind].
  rewrite R. cbn [bind]. rewrite C.
  assert (N : len (packet_bytes i d)
              = len (VarInt Lz) + len (VarInt i) + len d)
    by (unfold packet_bytes; fold Lz; rewrite !len_app; lia).
  rewrite N. reflexivity.
Qed.

(** C2, as the code has it.  A packet whose payload bytes lie outside the
    bytes of the length prefix and the opcode to be written (the payload is
    empty, or in another array, or in the destination's array clear of
    them) and whose length [lenVarInt id + len data] is at most [MaxInt32]
    is written by [putPacket], into a buffer that has room for it, as
    [VarInt(lenVarInt id + len data) ++ VarInt(id) ++ data]; the rest of the
    buffer and all other arrays are left as they were, and so is the
    payload when it lies outside all the bytes written.  [getPacket] on
    that buffer returns a packet with the same opcode and payload bytes,
    consuming the number of bytes [putPacket] wrote; the payload is a fresh
    array, so it keeps its bytes whatever is later written into the input
    buffer's array. *)
Theorem packet_roundtrip (h : heap) (buf : slice) (p : types.packet) :
  valid h buf -> valid h (types.data p) ->
  is_int32 (types.id p) ->
  lenVarInt (types.id p) + Z.of_nat (slen (types.data p)) <= MaxInt32 ->
  separate (types.data p) buf (header_len p) ->
  let d := load h (types.data p) in
  let W := packet_bytes (types.id p) d in
  len W <= Z.of_nat (slen buf) ->
  exists h1,
    types.putPacket h buf p = Done (h1, (len W, None)) /\
    firstn (length W) (load h1 buf) = W /\
    skipn (length W) (load h1 buf) = skipn (length W) (load h buf) /\
    (separate (types.data p) buf (length W) -> load h1 (types.data p) = d) /\
    same_except (base buf) h h1 /\
    exists h2 q,
      types.getPacket h1 buf = Done (h2, (q, len W, None)) /\
      types.id q = types.id p /\
      load h2 (types.data q) = d /\
      base (types.data q) <> base buf /\
      load h2 buf = load h1 buf /\
      forall h3, same_except (base buf) h2 h3 -> load h3 (types.data q) = d.
Proof.
  intros V Vd Hi HL Hsep d W HW.
  pose proof (length_load h _ Vd) as Ld. fold d in Ld.
  assert (HWn : (length W <= slen buf)%nat) by (unfold len in HW; lia).
  pose proof (putPacket_ok h buf p V Vd HL Hsep HWn) as P.
  fold d W in P.
  pose proof (load_store_outside h buf (types.data p) W V HWn) as Dp.
  fold d in Dp.
  set (X := W ++ skipn (length W) (load h buf)) in *.
  assert (LX : length X = slen buf).
  { subst X. rewrite length_app, length_skipn, length_load by exact V. lia. }
  set (h1 := store h buf X) in *.
  assert (V1 : valid h1 buf) by (apply valid_store; assumption).
  assert (B1 : load h1 buf = X) by (apply load_store_same; assumption).
  assert (HL' : lenVarInt (types.id p) + len d <= MaxInt32)
    by (unfold len; rewrite Ld; exact HL).
  pose proof (getPacket_ok h1 buf (types.id p) d _ V1 Hi HL' B1) as G.
  fold W in G.
  set (f := fresh h1 (length d)) in *.
  set (h4 := h1 ++ [repeat x00 (length d)]) in *.
  assert (Vf : valid h4 f) by apply valid_fresh.
  assert (Lh1 : length h1 = length h) by (apply length_set_array).
  destruct V as (Vb & Vo & Vc).
  assert (Nf : base f <> base buf) by (subst f; cbn [fresh base]; lia).
  exists h1. split; [exact P|].
  split; [rewrite B1; apply firstn_app_exact|].
  split; [rewrite B1; apply skipn_app_exact|].
  split; [exact Dp|].
  split; [apply store_same_except|].
  exists (store h4 f d), (types.mkpacket (types.id p) f).
  split; [exact G|]. cbn [types.id types.data].
  split; [reflexivity|].
  assert (Df : load (store h4 f d) f = d)
    by (apply load_store_same; [exact Vf | reflexivity]).
  split; [exact Df|]. split; [exact Nf|].
  split.
  - rewrite load_store_other by (intro E; apply Nf; symmetry; exact E).
    apply load_app_old. lia.
  - intros h3 (_ & S). unfold load. rewrite S by exact Nf. exact Df.
Qed.

Lemma packet_roundtrip_witness :
  let h := [[xff; xff; x03; x02; x01; x00; xff; xff]] in
  let buf := mkslice 0 0 8 8 in
  let p := types.mkpacket 4 (mkslice 0 2 4 4) in
  exists h1,
    types.putPacket h buf p = Done (h1, (6, None)) /\
    firstn 6 (load h1 buf) = [x05; x04; x03; x02; x01; x00] /\
    exists h2 q,
      types.getPacket h1 buf = Done (h2, (q, 6, None)) /\
      types.id q = 4 /\
      load h2 (types.data q) = [x03; x02; x01; x00].
Proof.
  intros h buf p.
  destruct (packet_roundtrip h buf p)
    as (h1 & P & F & _ & _ & _ & h2 & q & G & I & D & _).
  - unfold valid. simpl. lia.
  - unfold valid. simpl. lia.
  - unfold is_int32. simpl. lia.
  - vm_compute. discriminate.
  - unfold separate. right. right. right. vm_compute. lia.
  - vm_compute. discriminate.
  - exists h1. split; [exact P|]. split; [exact F|].
    exists h2, q. split; [exact G|]. split; [exact I | exact D].
Defined.

(** C2 as stated fails when the payload shares bytes with the destination:
    with the payload [{03, 02, 01, 00}] at the front of the 8-byte
    destination itself and opcode 4, [putPacket] succeeds and reports 6
    bytes, but the length prefix and the opcode overwrite the payload before
    it is copied, and the bytes written are 05 04 05 04 01 00, not
    05 04 03 02 01 00. *)
Lemma packet_roundtrip_counterexample :
  ~ (forall (h : heap) (buf : slice) (p : types.packet),
        valid h buf -> valid h (types.data p) ->
        is_int32 (types.id p) ->
        lenVarInt (types.id p) + Z.of_nat (slen (types.data p)) <= MaxInt32 ->
        let d := load h (types.data p) in
        let W := packet_bytes (types.id p) d in
        len W <= Z.of_nat (slen buf) ->
        exists h1,
          types.putPacket h buf p = Done (h1, (len W, None)) /\
          firstn (length W) (load h1 buf) = W).
Proof.
  intros C.
  destruct (C [[x03; x02; x01; x00; xff; xff; xff; xff]] (mkslice 0 0 8 8)
              (types.mkpacket 4 (mkslice 0 0 4 4))) as (h1 & P & F).
  - unfold valid. simpl. lia.
  - unfold valid. simpl. lia.
  - unfold is_int32. simpl. lia.
  - vm_compute. discriminate.
  - vm_compute. discriminate.
  - vm_compute in P. injection P as <-. vm_compute in F. discriminate.
Qed.

(** ** Every declared length below the opcode's width makes [getPacket] panic *)

Lemma types_getVarInt_bound (buf : list byte) (v n : Z) :
  types.getVarInt buf = Done (v, n, None) -> 0 < n <= len buf.
Proof.
  intros E. apply getVarInt_inv in E. destruct E as (u & E & _).
  unfold types.getVarN in E. rewrite getVarN_scan in E.
  destruct (scan buf (Z.to_nat maxIntBytes) 0 0) as [[u' n']|] eqn:S.
  - inversion E; subst. apply scan_Some_bound in S. unfold len. lia.
  - unfold types.getVarN_after in E.
    destruct (len buf <? maxIntBytes); discriminate.
Qed.

(** X26.  Whenever the two VarInts at the front of a valid buffer decode and
    the declared total length is below the number of bytes the opcode takes,
    [getPacket] of [types.go] panics: the payload length is negative, the
    length check passes, and [make] is given a negative length. *)
Lemma getPacket_short_length_panics
    (h : heap) (buf : slice) (L n1 i m : Z) :
  valid h buf ->
  types.getVarInt (load h buf) = Done (L, n1, None) ->
  types.getVarInt (skipn (Z.to_nat n1) (load h buf)) = Done (i, m, None) ->
  L < m ->
  types.getPacket h buf = Panic.
Proof.
  intros V E1 E2 HL.
  pose proof (length_load h buf V) as LB.
  pose proof (types_getVarInt_bound _ _ _ E1) as B1.
  pose proof (types_getVarInt_bound _ _ _ E2) as B2.
  unfold len in B1, B2. rewrite length_skipn in B2.
  destruct V as (Vb & Vo & Vc).
  assert (V : valid h buf) by (repeat split; assumption).
  unfold types.getPacket. rewrite E1. cbn [bind]. rewrite Z.add_0_l.
  rewrite reslice_tail by lia. cbn [bind].
  rewrite load_tail by (assumption || lia).
  rewrite E2. cbn [bind].
  destruct (Z.ltb_spec (Z.of_nat (slen buf)) (n1 + m + (L - m))) as [G|_];
    [lia|].
  unfold make.
  destruct (Z.ltb_spec (L - m) 0) as [_|G]; [reflexivity | lia].
Qed.

(** * Further properties of the codec *)

(** ** The encoder when the buffer is short *)

Lemma varN_ends_false_length (k : nat) :
  forall v, varN_ends k v = false -> length (varN_bytes k v) = k.
Proof.
  induction k as [|k IH]; intros v H; [reflexivity|].
  cbn [varN_ends varN_bytes] in *.
  destruct (Z.ldiff v cmask =? 0); [discriminate|].
  cbn [length]. f_equal. apply IH. exact H.
Qed.

Lemma varN_bytes_firstn (k : nat) :
  forall k' v, (k <= k')%nat -> varN_bytes k v = firstn k (varN_bytes k' v).
Proof.
  induction k as [|k IH]; intros k' v H; [reflexivity|].
  destruct k' as [|k']; [lia|].
  cbn [varN_bytes]. destruct (Z.ldiff v cmask =? 0).
  - cbn [firstn]. rewrite firstn_nil. reflexivity.
  - cbn [firstn]. f_equal. apply IH. lia.
Qed.

Lemma varN_ends_false_len (k : nat) (v : Z) :
  0 <= v -> varN_ends k v = false -> Z.of_nat k < lenVarN v.
Proof.
  intros Hv H. destruct (Z.lt_ge_cases (Z.of_nat k) (lenVarN v)) as [L|L];
    [exact L|].
  rewrite varN_ends_of_len in H by (assumption || lia). discriminate.
Qed.

Lemma varN_ends_true_len (k : nat) (v : Z) :
  0 <= v -> varN_ends k v = true -> lenVarN v <= Z.of_nat k.
Proof.
  intros Hv H. rewrite <- (varN_ends_length k v Hv H).
  pose proof (varN_bytes_length k v). unfold len. lia.
Qed.

(** The result of [putVarN_loop] when the value does not fit the room:
    [after] runs on a buffer holding the first bytes of the encoding. *)
Lemma putVarN_loop_short
    (after : list byte -> Z -> go (list byte * (Z * option error)))
    (buf : list byte) (u maxBytes : Z) (k : nat) :
  0 <= u -> len buf < lenVarN u -> lenVarN u <= maxBytes ->
  lenVarN u <= Z.of_nat k ->
  putVarN_loop after (length buf) buf maxBytes 0 u =
  after (firstn (length buf) (varN_bytes k u)) maxBytes /\
  length (firstn (length buf) (varN_bytes k u)) = length buf.
Proof.
  intros Hu Hs Hm Hk.
  pose proof (putVarN_loop_bytes after (length buf) buf maxBytes 0 u
                ltac:(lia) ltac:(unfold len; lia)) as E.
  cbv zeta in E. rewrite Z.sub_0_r in E.
  replace (Z.to_nat (Z.min (len buf) maxBytes)) with (length buf) in E
    by (unfold len in *; lia).
  destruct (varN_ends (length buf) u) eqn:He.
  - apply varN_ends_true_len in He; [|exact Hu]. unfold len in Hs. lia.
  - pose proof (varN_ends_false_length _ _ He) as Hl.
    rewrite (varN_bytes_firstn (length buf) k u) in E, Hl
      by (unfold len in Hs; lia).
    split; [|exact Hl].
    rewrite E. cbn [Z.to_nat firstn app Nat.add]. rewrite Hl.
    rewrite skipn_all, app_nil_r. reflexivity.
Qed.

Lemma types_putVarInt_short (b : list byte) (v : Z) :
  len b < lenVarInt v ->
  types.putVarInt b v =
  Done (firstn (length b) (VarInt v), (len b, Some errBufTooSmall)).
Proof.
  intros Hv.
  pose proof (lenVarInt_bound v) as Bv. pose proof (u32_range v) as Rv.
  unfold types.putVarInt, types.putVarN, VarInt.
  destruct (putVarN_loop_short types.putVarN_after b (u64 (u32 v))
              maxIntBytes 5) as [E L];
    try (unfold lenVarInt, maxIntBytes in *; lia).
  rewrite E. unfold types.putVarN_after.
  assert (Hl : len (firstn (length b) (varN_bytes 5 (u64 (u32 v)))) = len b)
    by (unfold len; rewrite L; reflexivity).
  rewrite Hl.
  destruct (Z.ltb_spec (len b) maxIntBytes) as [_|G];
    [reflexivity | unfold maxIntBytes in G; lia].
Qed.

Lemma types_putVarLong_short (b : list byte) (w : Z) :
  len b < lenVarLong w ->
  types.putVarLong b w =
  Done (firstn (length b) (VarLong w), (len b, Some errBufTooSmall)).
Proof.
  intros Hw.
  pose proof (lenVarLong_bound w) as Bw. pose proof (u64_range w) as Rw.
  unfold types.putVarLong, types.putVarN, VarLong.
  destruct (putVarN_loop_short types.putVarN_after b (u64 w)
              maxLongBytes 10) as [E L];
    try (unfold lenVarLong, maxLongBytes in *; lia).
  rewrite E. unfold types.putVarN_after.
  assert (Hl : len (firstn (length b) (varN_bytes 10 (u64 w))) = len b)
    by (unfold len; rewrite L; reflexivity).
  rewrite Hl.
  destruct (Z.ltb_spec (len b) maxLongBytes) as [_|G];
    [reflexivity | unfold maxLongBytes in G; lia].
Qed.

(** X1.  When the buffer is shorter than [lenVarInt v], [putVarInt] of
    [types.go] fails with [errBufTooSmall], reports the whole length of the
    buffer, and has filled the buffer with the first bytes of the encoding of
    [v]; likewise [putVarLong]. *)
Theorem putVarInt_short_buffer (v w : Z) (b b' : list byte) :
  len b < lenVarInt v -> len b' < lenVarLong w ->
  types.putVarInt b v =
    Done (firstn (length b) (VarInt v), (len b, Some errBufTooSmall)) /\
  types.putVarLong b' w =
    Done (firstn (length b') (VarLong w), (len b', Some errBufTooSmall)).
Proof.
  intros Hv Hw. split.
  - apply types_putVarInt_short. exact Hv.
  - apply types_putVarLong_short. exact Hw.
Qed.

Lemma putVarInt_short_buffer_witness :
  types.putVarInt [x00] 300 = Done ([xac], (1, Some errBufTooSmall)) /\
  types.putVarLong [x00; x00] (-1)
    = Done ([xff; xff], (2, Some errBufTooSmall)).
Proof.
  apply (putVarInt_short_buffer 300 (-1) [x00] [x00; x00]).
  - vm_compute. reflexivity.
  - vm_compute. reflexivity.
Defined.

(** X2.  [putVarInt] of [types.go] succeeds exactly when the buffer has at
    least [lenVarInt v] bytes, and no buffer makes it fail with
    [errValueTooLarge]; likewise [putVarLong]. *)
Theorem putVarInt_succeeds_iff (v : Z) (buf : list byte) :
  ((exists buf' n, types.putVarInt buf v = Done (buf', (n, None))) <->
     lenVarInt v <= len buf) /\
  (forall buf' n,
      types.putVarInt buf v <> Done (buf', (n, Some errValueTooLarge))) /\
  ((exists buf' n, types.putVarLong buf v = Done (buf', (n, None))) <->
     lenVarLong v <= len buf) /\
  (forall buf' n,
      types.putVarLong buf v <> Done (buf', (n, Some errValueTooLarge))).
Proof.
  pose proof types_putVarInt_short as S32.
  pose proof types_putVarLong_short as S64.
  split; [|split; [|split]].
  - split.
    + intros (buf' & n & E).
      destruct (Z.lt_ge_cases (len buf) (lenVarInt v)) as [L|L]; [|lia].
      rewrite (S32 buf v L) in E. discriminate.
    + intros H. destruct (types_putVarInt_ok buf v H) as [E _].
      eauto.
  - intros buf' n E.
    destruct (Z.lt_ge_cases (len buf) (lenVarInt v)) as [L|L].
    + rewrite (S32 buf v L) in E. discriminate.
    + destruct (types_putVarInt_ok buf v L) as [E' _].
      rewrite E' in E. discriminate.
  - split.
    + intros (buf' & n & E).
      destruct (Z.lt_ge_cases (len buf) (lenVarLong v)) as [L|L]; [|lia].
      rewrite (S64 buf v L) in E. discriminate.
    + intros H. destruct (types_putVarLong_ok buf v H) as [E _].
      eauto.
  - intros buf' n E.
    destruct (Z.lt_ge_cases (len buf) (lenVarLong v)) as [L|L].
    + rewrite (S64 buf v L) in E. discriminate.
    + destruct (types_putVarLong_ok buf v L) as [E' _].
      rewrite E' in E. discriminate.
Qed.

(** ** The shape of the bytes written *)

Lemma continuation_low (v : Z) : 0 <= v < 128 -> continuation (z2b v) = false.
Proof.
  intros H. unfold continuation. rewrite b2z_z2b, Z.mod_small by lia.
  apply testbit7_small. exact H.
Qed.

Lemma continuation_flagged (v : Z) :
  0 <= v -> continuation (z2b (Z.lor v msb)) = true.
Proof.
  intros H. unfold continuation. rewrite b2z_z2b, lor_msb_byte by exact H.
  apply testbit7_high. apply Z.mod_pos_bound. lia.
Qed.

Lemma varN_bytes_flags (k : nat) :
  forall v, 0 <= v -> varN_ends k v = true ->
    exists init final,
      varN_bytes k v = init ++ [final] /\
      forallb continuation init = true /\
      continuation final = false.
Proof.
  induction k as [|k IH]; intros v Hv He; [discriminate|].
  cbn [varN_ends varN_bytes] in *. rewrite ldiff_cmask in * by exact Hv.
  destruct (Z.ltb_spec v 128) as [H|H].
  - exists [], (z2b v). repeat split. apply continuation_low. lia.
  - destruct (IH _ (shiftr7_nonneg v Hv) He) as (init & final & E & F & L).
    exists (z2b (Z.lor v msb) :: init), final.
    rewrite E. repeat split; [|exact L].
    cbn [forallb]. rewrite continuation_flagged by exact Hv. exact F.
Qed.

(** X3.  The bytes a successful [putVarInt] or [putVarLong] of [types.go]
    writes are self-delimiting: all of them but the last carry the
    continuation flag, and the last does not. *)
Theorem putVarInt_flags (v w n m : Z) (b b1 c c1 : list byte) :
  types.putVarInt b v = Done (b1, (n, None)) ->
  types.putVarLong c w = Done (c1, (m, None)) ->
  (exists init final,
      firstn (Z.to_nat n) b1 = init ++ [final] /\
      forallb continuation init = true /\ continuation final = false) /\
  (exists init final,
      firstn (Z.to_nat m) c1 = init ++ [final] /\
      forallb continuation init = true /\ continuation final = false).
Proof.
  intros E32 E64.
  pose proof (u32_range v) as R32. pose proof (u64_range w) as R64.
  pose proof (lenVarInt_bound v) as B32. pose proof (lenVarLong_bound w) as B64.
  split.
  - destruct (Z.lt_ge_cases (len b) (lenVarInt v)) as [L|L];
      [rewrite types_putVarInt_short in E32 by exact L; discriminate|].
    destruct (types_putVarInt_ok b v L) as [E' Ln].
    rewrite E' in E32. injection E32 as Eb En. subst b1.
    rewrite <- En, <- Ln, to_nat_len, firstn_app_exact.
    apply varN_bytes_flags; [lia|].
    apply varN_ends_of_len; unfold lenVarInt in *; lia.
  - destruct (Z.lt_ge_cases (len c) (lenVarLong w)) as [L|L];
      [rewrite types_putVarLong_short in E64 by exact L; discriminate|].
    destruct (types_putVarLong_ok c w L) as [E' Ln].
    rewrite E' in E64. injection E64 as Eb En. subst c1.
    rewrite <- En, <- Ln, to_nat_len, firstn_app_exact.
    apply varN_bytes_flags; [lia|].
    apply varN_ends_of_len; unfold lenVarLong in *; lia.
Qed.

Lemma putVarInt_flags_witness :
  exists init final,
    firstn (Z.to_nat 2) [xac; x02; x00] = init ++ [final] /\
    forallb continuation init = true /\ continuation final = false.
Proof.
  exact (proj1 (putVarInt_flags 300 (-1) 2 10
                  [x00; x00; x00] [xac; x02; x00]
                  (repeat x00 10)
                  [xff; xff; xff; xff; xff; xff; xff; xff; xff; x01]
                  eq_refl eq_refl)).
Defined.

(** ** The decoder reads only what it consumes *)

Lemma scan_prefix (bs : list byte) :
  forall (k : nat) (i a v n : Z) (rest : list byte),
    scan bs k i a = Some (v, n) ->
    scan (firstn (Z.to_nat (n - i)) bs ++ rest) k i a = Some (v, n).
Proof.
  induction bs as [|b bs IH]; intros k i a v n rest H.
  - destruct k; discriminate.
  - destruct k as [|k]; [discriminate|].
    pose proof (scan_Some_bound _ _ _ _ _ _ H) as Bn.
    cbn [scan] in H.
    replace (Z.to_nat (n - i)) with (S (Z.to_nat (n - (i + 1)))) by lia.
    cbn [firstn app scan].
    destruct (Z.land (b2z b) msb =? 0); [exact H|].
    apply IH. exact H.
Qed.

Lemma types_getVarN_prefix (buf rest : list byte) (maxBytes u n : Z) :
  types.getVarN buf maxBytes = Done (u, n, None) ->
  0 < n <= maxBytes /\ n <= len buf /\
  types.getVarN (firstn (Z.to_nat n) buf ++ rest) maxBytes = Done (u, n, None).
Proof.
  unfold types.getVarN. rewrite !getVarN_scan. intros E.
  destruct (scan buf (Z.to_nat maxBytes) 0 0) as [[u' n']|] eqn:S.
  - inversion E; subst.
    pose proof (scan_Some_bound _ _ _ _ _ _ S) as B.
    split; [lia|]. split; [unfold len; lia|].
    apply scan_prefix with (rest := rest) in S.
    rewrite Z.sub_0_r in S. rewrite S. reflexivity.
  - unfold types.getVarN_after in E.
    destruct (len buf <? maxBytes); discriminate.
Qed.

(** X4.  When [getVarInt] of [types.go] succeeds it has consumed between 1
    and 5 bytes, no more than the buffer holds, and its result depends on
    those bytes alone: whatever follows them, it returns the same value and
    count.  Likewise [getVarLong], on any buffer of its own, with between 1
    and 10 bytes. *)
Theorem getVarInt_reads_prefix
    (buf rest lbuf lrest : list byte) (v n w m : Z) :
  types.getVarInt buf = Done (v, n, None) ->
  types.getVarLong lbuf = Done (w, m, None) ->
  (1 <= n <= 5 /\ n <= len buf /\
   types.getVarInt (firstn (Z.to_nat n) buf ++ rest) = Done (v, n, None)) /\
  (1 <= m <= 10 /\ m <= len lbuf /\
   types.getVarLong (firstn (Z.to_nat m) lbuf ++ lrest) = Done (w, m, None)).
Proof.
  intros E32 E64.
  apply getVarInt_inv in E32. destruct E32 as (u & E32 & ->).
  apply getVarLong_inv in E64. destruct E64 as (u' & E64 & ->).
  destruct (types_getVarN_prefix buf rest _ _ _ E32) as (A1 & A2 & A3).
  destruct (types_getVarN_prefix lbuf lrest _ _ _ E64) as (B1 & B2 & B3).
  unfold maxIntBytes, maxLongBytes in *.
  split; (split; [lia|]; split; [assumption|]).
  - apply getVarInt_inv. exists u. split; [exact A3 | reflexivity].
  - apply getVarLong_inv. exists u'. split; [exact B3 | reflexivity].
Qed.

Lemma getVarInt_reads_prefix_witness :
  types.getVarInt (firstn (Z.to_nat 2) [xac; x02; x7f] ++ [xff; xff])
    = Done (300, 2, None) /\
  types.getVarLong
    (firstn (Z.to_nat 10)
       [xff; xff; xff; xff; xff; xff; xff; xff; xff; x01; x7f] ++ [xff])
    = Done (-1, 10, None).
Proof.
  destruct (getVarInt_reads_prefix [xac; x02; x7f] [xff; xff]
              [xff; xff; xff; xff; xff; xff; xff; xff; xff; x01; x7f] [xff]
              300 2 (-1) 10 eq_refl eq_refl) as [(_ & _ & E) (_ & _ & F)].
  split; [exact E | exact F].
Defined.

(** ** Bounds of the length functions *)

Lemma lenVarN_mono (a : Z) (k : nat) :
  forall b, 0 <= a <= b -> b < 2 ^ (7 * Z.of_nat k) -> lenVarN a <= lenVarN b.
Proof.
  revert a. induction k as [|k IH]; intros a b H Hb.
  - change (2 ^ (7 * Z.of_nat 0)) with 1 in Hb.
    replace a with 0 by lia. replace b with 0 by lia. lia.
  - destruct (Z.lt_ge_cases a 128) as [Ha|Ha].
    + rewrite (lenVarN_small a) by lia. apply lenVarN_pos. lia.
    + rewrite (lenVarN_step a), (lenVarN_step b) by lia.
      assert (Hp : 2 ^ (7 * Z.of_nat (S k)) = 128 * 2 ^ (7 * Z.of_nat k)).
      { replace (7 * Z.of_nat (S k)) with (7 + 7 * Z.of_nat k) by lia.
        rewrite Z.pow_add_r by lia. reflexivity. }
      unfold cbits. rewrite !Z.shiftr_div_pow2 by lia. change (2 ^ 7) with 128.
      assert (a / 128 <= b / 128) by (apply Z.div_le_mono; lia).
      assert (0 <= a / 128) by (apply Z.div_pos; lia).
      assert (b / 128 < 2 ^ (7 * Z.of_nat k))
        by (apply Z.div_lt_upper_bound; lia).
      specialize (IH (a / 128) (b / 128)). lia.
Qed.

(** X5.  For every value [lenVarInt] lies between 1 and 5 and [lenVarLong]
    between 1 and 10; on non-negative values both grow with the value, and
    on a non-negative [int32] they agree. *)
Theorem lenVar_bounds (v a b : Z) :
  (1 <= lenVarInt v <= 5 /\ 1 <= lenVarLong v <= 10) /\
  (0 <= a <= b -> is_int32 b ->
   lenVarInt a <= lenVarInt b /\ lenVarInt a = lenVarLong a) /\
  (0 <= a <= b -> is_int64 b -> lenVarLong a <= lenVarLong b).
Proof.
  split; [split; [apply lenVarInt_bound | apply lenVarLong_bound]|].
  split.
  - intros H Hb. unfold is_int32 in Hb.
    assert (Ea : u64 (u32 a) = a)
      by (unfold u64, u32; rewrite (Z.mod_small a (2 ^ 32)) by lia;
          apply Z.mod_small; lia).
    assert (Eb : u64 (u32 b) = b)
      by (unfold u64, u32; rewrite (Z.mod_small b (2 ^ 32)) by lia;
          apply Z.mod_small; lia).
    assert (Ea' : u64 a = a) by (unfold u64; apply Z.mod_small; lia).
    unfold lenVarInt, lenVarLong. rewrite Ea, Eb, Ea'. split; [|reflexivity].
    apply (lenVarN_mono a 5); [lia|].
    change (2 ^ (7 * Z.of_nat 5)) with (2 ^ 35). lia.
  - intros H Hb. unfold is_int64 in Hb.
    assert (Ea : u64 a = a) by (unfold u64; apply Z.mod_small; lia).
    assert (Eb : u64 b = b) by (unfold u64; apply Z.mod_small; lia).
    unfold lenVarLong. rewrite Ea, Eb.
    apply (lenVarN_mono a 10); [lia|].
    change (2 ^ (7 * Z.of_nat 10)) with (2 ^ 70). lia.
Qed.

Lemma lenVar_bounds_witness :
  (1 <= lenVarInt (-1) <= 5 /\ 1 <= lenVarLong (-1) <= 10) /\
  (lenVarInt 127 <= lenVarInt 128 /\ lenVarInt 127 = lenVarLong 127) /\
  lenVarLong 127 <= lenVarLong 128.
Proof.
  destruct (lenVar_bounds (-1) 127 128) as (A & B & C).
  split; [exact A|]. split.
  - apply B; [lia | unfold is_int32; lia].
  - apply C; [lia | unfold is_int64; lia].
Defined.

(** ** The VarInt codec of [varint.go] *)

Lemma varint_getVarN_BufTooSmall (buf : list byte) (maxBytes v n : Z) :
  varint.getVarN buf maxBytes = Done (v, n, Some errBufTooSmall) <->
  len buf < maxBytes /\ forallb continuation buf = true /\
  v = 0 /\ n = maxBytes.
Proof.
  unfold varint.getVarN. rewrite getVarN_scan.
  destruct (scan buf (Z.to_nat maxBytes) 0 0) as [[v' n']|] eqn:E.
  - split; [discriminate|]. intros (Hl & Hc & _).
    rewrite <- (firstn_short buf maxBytes Hl) in Hc.
    apply scan_None with (i := 0) (v := 0) in Hc. congruence.
  - apply scan_None in E. unfold varint.getVarN_after.
    destruct (Z.ltb_spec (len buf) maxBytes) as [H|H].
    + rewrite firstn_short in E by exact H.
      split; [intros X; inversion X; subst; repeat split; assumption
             | intros (_ & _ & -> & ->); reflexivity].
    + split; [discriminate | lia].
Qed.

Lemma varint_getVarN_ValueTooLarge (buf : list byte) (maxBytes v n : Z) :
  varint.getVarN buf maxBytes = Done (v, n, Some errValueTooLarge) <->
  maxBytes <= len buf /\
  forallb continuation (firstn (Z.to_nat maxBytes) buf) = true /\
  v = 0 /\ n = maxBytes.
Proof.
  unfold varint.getVarN. rewrite getVarN_scan.
  destruct (scan buf (Z.to_nat maxBytes) 0 0) as [[v' n']|] eqn:E.
  - split; [discriminate|]. intros (_ & Hc & _).
    apply scan_None with (i := 0) (v := 0) in Hc. congruence.
  - apply scan_None in E. unfold varint.getVarN_after.
    destruct (Z.ltb_spec (len buf) maxBytes) as [H|H].
    + split; [discriminate | lia].
    + split; [intros X; inversion X; subst; repeat split; assumption
             | intros (_ & _ & -> & ->); reflexivity].
Qed.

Lemma varint_getVarInt_inv (buf : list byte) (v n : Z) (e : option error) :
  varint.getVarInt buf = Done (v, n, e) <->
  exists u, varint.getVarN buf maxIntBytes = Done (u, n, e) /\ v = i32 u.
Proof.
  unfold varint.getVarInt.
  destruct (varint.getVarN buf maxIntBytes) as [[[u m] e']|]; cbn [bind].
  - split.
    + intros X. inversion X; subst. exists u. auto.
    + intros (u' & X & ->). inversion X; subst. reflexivity.
  - split; [discriminate | intros (u' & X & _); discriminate].
Qed.

Lemma varint_getVarLong_inv (buf : list byte) (v n : Z) (e : option error) :
  varint.getVarLong buf = Done (v, n, e) <->
  exists u, varint.getVarN buf maxLongBytes = Done (u, n, e) /\ v = i64 u.
Proof.
  unfold varint.getVarLong.
  destruct (varint.getVarN buf maxLongBytes) as [[[u m] e']|]; cbn [bind].
  - split.
    + intros X. inversion X; subst. exists u. auto.
    + intros (u' & X & ->). inversion X; subst. reflexivity.
  - split; [discriminate | intros (u' & X & _); discriminate].
Qed.

(** X6.  The decoder of [varint.go] fails with [errBufTooSmall] exactly when
    the buffer has fewer than 5 (10 for [getVarLong]) bytes, all carrying the
    continuation flag, and then reports the maximum width 5 (10), whatever
    the number of bytes it was given; it fails with [errValueTooLarge]
    exactly when the first 5 (10) bytes all carry the flag, reporting 5
    (10). *)
Theorem varint_go_getVarInt_failures (buf : list byte) (v n : Z) :
  (varint.getVarInt buf = Done (v, n, Some errBufTooSmall) <->
     len buf < 5 /\ forallb continuation buf = true /\ v = 0 /\ n = 5) /\
  (varint.getVarInt buf = Done (v, n, Some errValueTooLarge) <->
     5 <= len buf /\ forallb continuation (firstn 5 buf) = true /\
     v = 0 /\ n = 5) /\
  (varint.getVarLong buf = Done (v, n, Some errBufTooSmall) <->
     len buf < 10 /\ forallb continuation buf = true /\ v = 0 /\ n = 10) /\
  (varint.getVarLong buf = Done (v, n, Some errValueTooLarge) <->
     10 <= len buf /\ forallb continuation (firstn 10 buf) = true /\
     v = 0 /\ n = 10).
Proof.
  split; [|split; [|split]].
  - rewrite varint_getVarInt_inv. split.
    + intros (u & E & ->). apply varint_getVarN_BufTooSmall in E.
      destruct E as (A & B & -> & ->). repeat split; assumption.
    + intros (A & B & -> & ->). exists 0. split; [|reflexivity].
      apply varint_getVarN_BufTooSmall. repeat split; assumption.
  - rewrite varint_getVarInt_inv. split.
    + intros (u & E & ->). apply varint_getVarN_ValueTooLarge in E.
      destruct E as (A & B & -> & ->). repeat split; assumption.
    + intros (A & B & -> & ->). exists 0. split; [|reflexivity].
      apply varint_getVarN_ValueTooLarge. repeat split; assumption.
  - rewrite varint_getVarLong_inv. split.
    + intros (u & E & ->). apply varint_getVarN_BufTooSmall in E.
      destruct E as (A & B & -> & ->). repeat split; assumption.
    + intros (A & B & -> & ->). exists 0. split; [|reflexivity].
      apply varint_getVarN_BufTooSmall. repeat split; assumption.
  - rewrite varint_getVarLong_inv. split.
    + intros (u & E & ->). apply varint_getVarN_ValueTooLarge in E.
      destruct E as (A & B & -> & ->). repeat split; assumption.
    + intros (A & B & -> & ->). exists 0. split; [|reflexivity].
      apply varint_getVarN_ValueTooLarge. repeat split; assumption.
Qed.

Lemma varint_putVarInt_ok (buf : list byte) (v : Z) :
  lenVarInt v <= len buf ->
  varint.putVarInt buf v =
  Done (VarInt v ++ skipn (Z.to_nat (lenVarInt v)) buf, (lenVarInt v, None)).
Proof.
  intros H. pose proof (lenVarInt_bound v). pose proof (u32_range v).
  unfold varint.putVarInt, varint.putVarN, VarInt.
  apply putVarN_loop_ok; unfold lenVarInt, maxIntBytes in *; lia.
Qed.

Lemma varint_putVarLong_ok (buf : list byte) (v : Z) :
  lenVarLong v <= len buf ->
  varint.putVarLong buf v =
  Done (VarLong v ++ skipn (Z.to_nat (lenVarLong v)) buf, (lenVarLong v, None)).
Proof.
  intros H. pose proof (lenVarLong_bound v). pose proof (u64_range v).
  unfold varint.putVarLong, varint.putVarN, VarLong.
  apply putVarN_loop_ok; unfold lenVarLong, maxLongBytes in *; lia.
Qed.

Lemma varint_getVarInt_ok (v : Z) (rest : list byte) :
  is_int32 v ->
  varint.getVarInt (VarInt v ++ rest) = Done (v, lenVarInt v, None).
Proof.
  intros H. apply getVarInt_agree. apply types_getVarInt_ok. exact H.
Qed.

Lemma varint_getVarLong_ok (v : Z) (rest : list byte) :
  is_int64 v ->
  varint.getVarLong (VarLong v ++ rest) = Done (v, lenVarLong v, None).
Proof.
  intros H. pose proof (lenVarLong_bound v). pose proof (u64_range v).
  unfold varint.getVarLong, varint.getVarN, VarLong.
  rewrite getVarN_loop_ok; unfold lenVarLong, maxLongBytes in *; try lia.
  cbn [bind]. rewrite i64_u64 by exact H. reflexivity.
Qed.

(** X7.  Round trip in [varint.go]: into a buffer with room for
    [lenVarInt v] bytes, its [putVarInt] writes the wire bytes of [v], keeps
    the rest of the buffer, and does exactly what the one of [types.go]
    does; its [getVarInt] reads [v] back from those bytes, whatever follows
    them.  Likewise [putVarLong] and [getVarLong]. *)
Theorem varint_go_roundtrip (v w : Z) (b c rest : list byte) :
  is_int32 v -> lenVarInt v <= len b ->
  is_int64 w -> lenVarLong w <= len c ->
  varint.putVarInt b v =
    Done (VarInt v ++ skipn (Z.to_nat (lenVarInt v)) b, (lenVarInt v, None)) /\
  varint.putVarInt b v = types.putVarInt b v /\
  varint.getVarInt (VarInt v ++ rest) = Done (v, lenVarInt v, None) /\
  varint.putVarLong c w =
    Done (VarLong w ++ skipn (Z.to_nat (lenVarLong w)) c, (lenVarLong w, None)) /\
  varint.putVarLong c w = types.putVarLong c w /\
  varint.getVarLong (VarLong w ++ rest) = Done (w, lenVarLong w, None).
Proof.
  intros Hv Hb Hw Hc.
  rewrite (proj1 (types_putVarInt_ok b v Hb)).
  rewrite (proj1 (types_putVarLong_ok c w Hc)).
  rewrite varint_putVarInt_ok, varint_putVarLong_ok by assumption.
  rewrite varint_getVarInt_ok, varint_getVarLong_ok by assumption.
  repeat split.
Qed.

Lemma varint_go_roundtrip_witness :
  varint.putVarInt [x00; x00; x00] 300 = Done ([xac; x02; x00], (2, None)) /\
  varint.getVarInt ([xac; x02] ++ [xff]) = Done (300, 2, None).
Proof.
  destruct (varint_go_roundtrip 300 (-1) [x00; x00; x00] (repeat x00 10) [xff])
    as (A & _ & B & _).
  - unfold is_int32. lia.
  - vm_compute. discriminate.
  - unfold is_int64. lia.
  - vm_compute. discriminate.
  - split; [exact A | exact B].
Defined.

(** X8.  When the buffer is shorter than [lenVarInt v], [putVarInt] of
    [varint.go] fills it with the first bytes of the encoding and fails with
    [errBufTooSmall], reporting the maximum width 5, which is more than the
    buffer holds; [putVarLong] reports 10. *)
Theorem varint_go_putVarInt_short (v w : Z) (b c : list byte) :
  len b < lenVarInt v -> len c < lenVarLong w ->
  varint.putVarInt b v =
    Done (firstn (length b) (VarInt v), (5, Some errBufTooSmall)) /\
  len b < 5 /\
  varint.putVarLong c w =
    Done (firstn (length c) (VarLong w), (10, Some errBufTooSmall)) /\
  len c < 10.
Proof.
  intros Hv Hw.
  pose proof (lenVarInt_bound v) as Bv. pose proof (lenVarLong_bound w) as Bw.
  pose proof (u32_range v) as Rv. pose proof (u64_range w) as Rw.
  split; [|split; [lia|split; [|lia]]].
  - unfold varint.putVarInt, varint.putVarN, VarInt.
    destruct (putVarN_loop_short varint.putVarN_after b (u64 (u32 v))
                maxIntBytes 5) as [E L];
      try (unfold lenVarInt, maxIntBytes in *; lia).
    rewrite E. unfold varint.putVarN_after.
    assert (Hl : len (firstn (length b) (varN_bytes 5 (u64 (u32 v)))) = len b)
      by (unfold len; rewrite L; reflexivity).
    rewrite Hl.
    destruct (Z.ltb_spec (len b) maxIntBytes) as [_|G];
      [reflexivity | unfold maxIntBytes in G; lia].
  - unfold varint.putVarLong, varint.putVarN, VarLong.
    destruct (putVarN_loop_short varint.putVarN_after c (u64 w)
                maxLongBytes 10) as [E L];
      try (unfold lenVarLong, maxLongBytes in *; lia).
    rewrite E. unfold varint.putVarN_after.
    assert (Hl : len (firstn (length c) (varN_bytes 10 (u64 w))) = len c)
      by (unfold len; rewrite L; reflexivity).
    rewrite Hl.
    destruct (Z.ltb_spec (len c) maxLongBytes) as [_|G];
      [reflexivity | unfold maxLongBytes in G; lia].
Qed.

Lemma varint_go_putVarInt_short_witness :
  varint.putVarInt [x00] 300 = Done ([xac], (5, Some errBufTooSmall)) /\
  varint.putVarLong [] (-1) = Done ([], (10, Some errBufTooSmall)).
Proof.
  destruct (varint_go_putVarInt_short 300 (-1) [x00] []) as (A & _ & B & _).
  - vm_compute. reflexivity.
  - vm_compute. reflexivity.
  - split; [exact A | exact B].
Defined.

(** ** The string codec of [types.go] *)

Lemma slice_range_ok (buf : list byte) (lo hi : Z) :
  0 <= lo <= hi -> hi <= len buf ->
  slice_range buf lo hi =
  Done (firstn (Z.to_nat (hi - lo)) (skipn (Z.to_nat lo) buf)).
Proof.
  intros H1 H2. unfold slice_range.
  replace ((0 <=? lo) && (lo <=? hi) && (hi <=? len buf)) with true;
    [reflexivity|].
  symmetry. rewrite !andb_true_iff, !Z.leb_le. lia.
Qed.

Lemma slice_from_ok (buf : list byte) (lo : Z) :
  0 <= lo <= len buf ->
  slice_from buf lo = Done (skipn (Z.to_nat lo) buf).
Proof.
  intros H. unfold slice_from. rewrite slice_range_ok by lia.
  f_equal. apply firstn_all2. rewrite length_skipn. unfold len. lia.
Qed.

Lemma types_getString_ok (buf : list byte) (L m : Z) :
  types.getVarInt buf = Done (L, m, None) ->
  0 <= L <= MaxInt16 -> m + L <= len buf ->
  types.getString buf =
  Done (firstn (Z.to_nat L) (skipn (Z.to_nat m) buf), m + L, None).
Proof.
  intros E HL Hm.
  pose proof (types_getVarInt_bound _ _ _ E) as B.
  unfold types.getString. rewrite E. cbn [bind]. rewrite Z.add_0_l.
  destruct (Z.gtb_spec L MaxInt16) as [G|G]; [lia|].
  destruct (Z.ltb_spec (len buf) (m + L)) as [G'|G']; [lia|].
  rewrite slice_range_ok by lia. cbn [bind].
  replace (m + L - m) with L by lia. reflexivity.
Qed.

(** X9.  [getString] of [types.go] returns a string without error exactly
    when the length prefix decodes to some [L] between 0 and 32767 and at
    least [L] bytes follow it; the string is then those [L] bytes and the
    count is the prefix width plus [L]. *)
Theorem getString_success (buf s : list byte) (n : Z) :
  types.getString buf = Done (s, n, None) <->
  exists L m,
    types.getVarInt buf = Done (L, m, None) /\
    0 <= L <= MaxInt16 /\ m + L <= len buf /\
    s = firstn (Z.to_nat L) (skipn (Z.to_nat m) buf) /\
    len s = L /\ n = m + L.
Proof.
  unfold types.getString. split.
  - destruct (types.getVarInt buf) as [[[L m] e]|] eqn:E; cbn [bind];
      [|discriminate].
    destruct e as [e|]; [discriminate|].
    pose proof (types_getVarInt_bound _ _ _ E) as B.
    rewrite Z.add_0_l.
    destruct (Z.gtb_spec L MaxInt16) as [G|G]; [discriminate|].
    destruct (Z.ltb_spec (len buf) (m + L)) as [G'|G']; [discriminate|].
    unfold slice_range.
    destruct ((0 <=? m) && (m <=? m + L) && (m + L <=? len buf)) eqn:C;
      cbn [bind]; [|discriminate].
    rewrite !andb_true_iff, !Z.leb_le in C.
    intros X. inversion X; subst. exists L, m.
    replace (m + L - m) with L by lia.
    repeat split; try lia.
    unfold len. rewrite length_firstn, length_skipn. unfold len in *. lia.
  - intros (L & m & E & HL & Hm & -> & _ & ->).
    fold (types.getString buf). apply types_getString_ok; assumption.
Qed.

(** X10.  A length prefix that decodes to a negative number makes
    [getString] panic, in [types.go] and in the split package alike: the
    two guards pass and the slice expression [buf[n:n+length]] has its upper
    bound below its lower bound. *)
Theorem getString_negative_length_panics (buf : list byte) (L m : Z) :
  types.getVarInt buf = Done (L, m, None) ->
  L < 0 ->
  types.getString buf = Panic /\ strings.getString buf = Panic.
Proof.
  intros E HL.
  pose proof (types_getVarInt_bound _ _ _ E) as B.
  pose proof (proj1 (getVarInt_agree buf L m) E) as E'.
  unfold types.getString, strings.getString. rewrite E, E'. cbn [bind].
  rewrite Z.add_0_l.
  destruct (Z.gtb_spec L MaxInt16) as [G|_]; [unfold MaxInt16 in G; lia|].
  destruct (Z.ltb_spec (len buf) (m + L)) as [G|_]; [lia|].
  unfold slice_range.
  replace (m <=? m + L) with false by (symmetry; apply Z.leb_gt; lia).
  rewrite andb_false_r. split; reflexivity.
Qed.

Lemma getString_negative_length_panics_witness :
  types.getString [xff; xff; xff; xff; x0f] = Panic /\
  strings.getString [xff; xff; xff; xff; x0f] = Panic.
Proof.
  apply (getString_negative_length_panics [xff; xff; xff; xff; x0f] (-1) 5).
  - reflexivity.
  - lia.
Defined.

Lemma is_int32_len (s : list byte) : len s <= MaxInt16 -> is_int32 (len s).
Proof. unfold len, MaxInt16, is_int32. lia. Qed.

(** X11.  Round trip of strings in [types.go]: a string of at most 32767
    bytes is written by [putString], into a buffer with room for it, as the
    VarInt of its length followed by its bytes, the rest of the buffer being
    kept; [getString] reads the string back from those bytes, whatever
    follows them, with the same count. *)
Theorem string_roundtrip (buf s rest : list byte) :
  len s <= MaxInt16 ->
  lenVarInt (len s) + len s <= len buf ->
  types.putString buf s =
    Done (VarInt (len s) ++ s
          ++ skipn (Z.to_nat (lenVarInt (len s) + len s)) buf,
          (lenVarInt (len s) + len s, None)) /\
  types.getString (VarInt (len s) ++ s ++ rest) =
    Done (s, lenVarInt (len s) + len s, None).
Proof.
  intros Hs Hb.
  pose proof (is_int32_len s Hs) as I32.
  pose proof (len_VarInt (len s)) as LV.
  set (P := VarInt (len s)) in *.
  assert (Lp : Z.to_nat (lenVarInt (len s)) = length P)
    by (rewrite <- LV; apply to_nat_len).
  split.
  - unfold types.putString.
    destruct (Z.gtb_spec (len s) MaxInt16) as [G|_]; [lia|].
    rewrite i32_small by exact I32.
    rewrite (proj1 (types_putVarInt_ok buf (len s) ltac:(unfold len in *; lia))).
    fold P. cbn [bind]. rewrite Z.add_0_l, Lp.
    rewrite slice_from_ok
      by (rewrite len_app; unfold len in *; rewrite length_skipn; lia).
    cbn [bind]. rewrite Lp, skipn_app_exact.
    unfold copy. rewrite length_skipn.
    rewrite Nat.min_r by (unfold len in *; lia).
    rewrite firstn_all. unfold write_from. rewrite Lp, firstn_app_exact.
    fold (len s). rewrite Z.ltb_irrefl.
    rewrite skipn_skipn.
    replace (length s + length P)%nat
      with (Z.to_nat (lenVarInt (len s) + len s)) by (unfold len in *; lia).
    reflexivity.
  - rewrite (types_getString_ok (P ++ s ++ rest) (len s) (len P)).
    + rewrite !to_nat_len, skipn_app_exact, firstn_app_exact, LV.
      reflexivity.
    + apply types_getVarInt_wire. exact I32.
    + unfold len in *. lia.
    + rewrite !len_app. unfold len. lia.
Qed.

Lemma string_roundtrip_witness :
  types.putString (repeat x00 5) [x48; x69] =
    Done ([x02; x48; x69; x00; x00], (3, None)) /\
  types.getString ([x02] ++ [x48; x69] ++ [xff]) = Done ([x48; x69], 3, None).
Proof.
  apply (string_roundtrip (repeat x00 5) [x48; x69] [xff]).
  - vm_compute. discriminate.
  - vm_compute. discriminate.
Defined.

(** X12.  When the buffer is too short for the prefix and the bytes of a
    string of at most 32767 bytes, [putString] of [types.go] fails with
    [errBufTooSmall], reports the whole length of the buffer, and has filled
    the buffer with the first bytes of the encoding. *)
Theorem putString_short_buffer (buf s : list byte) :
  len s <= MaxInt16 ->
  len buf < lenVarInt (len s) + len s ->
  types.putString buf s =
  Done (firstn (length buf) (VarInt (len s) ++ s),
        (len buf, Some errBufTooSmall)).
Proof.
  intros Hs Hb.
  pose proof (is_int32_len s Hs) as I32.
  pose proof (len_VarInt (len s)) as LV.
  set (P := VarInt (len s)) in *.
  assert (Lp : Z.to_nat (lenVarInt (len s)) = length P)
    by (rewrite <- LV; apply to_nat_len).
  unfold types.putString.
  destruct (Z.gtb_spec (len s) MaxInt16) as [G|_]; [lia|].
  rewrite i32_small by exact I32.
  destruct (Z.lt_ge_cases (len buf) (lenVarInt (len s))) as [C|C].
  - rewrite types_putVarInt_short by exact C. fold P. cbn [bind].
    rewrite firstn_app.
    replace (length buf - length P)%nat with O by (unfold len in *; lia).
    rewrite firstn_O, app_nil_r. reflexivity.
  - rewrite (proj1 (types_putVarInt_ok buf (len s) C)).
    fold P. cbn [bind]. rewrite Z.add_0_l, Lp.
    rewrite slice_from_ok
      by (rewrite len_app; unfold len in *; rewrite length_skipn; lia).
    cbn [bind]. rewrite Lp, skipn_app_exact.
    unfold copy. rewrite length_skipn.
    rewrite Nat.min_l by (unfold len in *; lia).
    unfold write_from. rewrite Lp, firstn_app_exact.
    rewrite (skipn_all2 (skipn (length P) buf))
      by (rewrite length_skipn; lia).
    rewrite app_nil_r.
    destruct (Z.ltb_spec (Z.of_nat (length buf - length P)) (len s)) as [_|G];
      [|unfold len in *; lia].
    rewrite firstn_app, (firstn_all2 P) by (unfold len in *; lia).
    replace (lenVarInt (len s) + Z.of_nat (length buf - length P))
      with (len buf) by (unfold len in *; lia).
    reflexivity.
Qed.

Lemma putString_short_buffer_witness :
  types.putString [x00; x00] [x48; x69] =
  Done ([x02; x48], (2, Some errBufTooSmall)).
Proof.
  apply (putString_short_buffer [x00; x00] [x48; x69]).
  - vm_compute. discriminate.
  - vm_compute. reflexivity.
Defined.

(** ** The position codec beyond the field widths and beyond 8 bytes *)

Lemma putField_x_any (n : Z) :
  is_int32 n -> types.putField (i64 n) 26 38 = (n mod 2 ^ 26) * 2 ^ 38.
Proof.
  unfold is_int32, types.putField, shr64, shl64, i64.
  change (u64 (64 - 26)) with 38. change (u64 (64 - (26 + 38))) with 0.
  intros H.
  rewrite Z.shiftr_0_r, Z.shiftl_mul_pow2 by lia.
  unfold u64. pow2_consts. Z.div_mod_to_equations. lia.
Qed.

Lemma putField_y_any (n : Z) :
  is_int16 n -> types.putField (i64 n) 12 26 = (n mod 2 ^ 12) * 2 ^ 26.
Proof.
  unfold is_int16, types.putField, shr64, shl64, i64.
  change (u64 (64 - 12)) with 52. change (u64 (64 - (12 + 26))) with 26.
  intros H.
  rewrite Z.shiftr_div_pow2, Z.shiftl_mul_pow2 by lia.
  unfold u64. pow2_consts. Z.div_mod_to_equations. lia.
Qed.

Lemma putField_z_any (n : Z) :
  is_int32 n -> types.putField (i64 n) 26 0 = n mod 2 ^ 26.
Proof.
  unfold is_int32, types.putField, shr64, shl64, i64.
  change (u64 (64 - 26)) with 38. change (u64 (64 - (26 + 0))) with 38.
  intros H.
  rewrite Z.shiftr_div_pow2, Z.shiftl_mul_pow2 by lia.
  unfold u64. pow2_consts. Z.div_mod_to_equations. lia.
Qed.

Lemma putPosition_word_any (p : types.position) :
  is_int32 (types.x p) -> is_int16 (types.y p) -> is_int32 (types.z p) ->
  Z.lor (Z.lor (Z.lor 0 (types.putField (i64 (types.x p)) 26 38))
               (types.putField (i64 (types.y p)) 12 26))
        (types.putField (i64 (types.z p)) 26 0) = position_word p /\
  0 <= position_word p < 2 ^ 64.
Proof.
  intros Hx Hy Hz.
  rewrite putField_x_any, putField_y_any, putField_z_any by assumption.
  unfold position_word.
  assert (Rx : 0 <= types.x p mod 2 ^ 26 < 2 ^ 26) by (apply Z.mod_pos_bound; lia).
  assert (Ry : 0 <= types.y p mod 2 ^ 12 < 2 ^ 12) by (apply Z.mod_pos_bound; lia).
  assert (Rz : 0 <= types.z p mod 2 ^ 26 < 2 ^ 26) by (apply Z.mod_pos_bound; lia).
  set (X := types.x p mod 2 ^ 26) in *.
  set (Y := types.y p mod 2 ^ 12) in *.
  set (Z' := types.z p mod 2 ^ 26) in *.
  rewrite Z.lor_0_l.
  rewrite (lor_disjoint_add X (Y * 2 ^ 26) 38) by (pow2_consts; lia).
  replace (X * 2 ^ 38 + Y * 2 ^ 26) with ((X * 2 ^ 12 + Y) * 2 ^ 26)
    by (pow2_consts; lia).
  rewrite (lor_disjoint_add _ Z' 26) by lia.
  pow2_consts. lia.
Qed.

Lemma position_word_bit_fields (p : types.position) :
  bit_field (position_word p) 38 26 = types.x p mod 2 ^ 26 /\
  bit_field (position_word p) 26 12 = types.y p mod 2 ^ 12 /\
  bit_field (position_word p) 0 26 = types.z p mod 2 ^ 26.
Proof.
  unfold position_word, bit_field.
  assert (Rx : 0 <= types.x p mod 2 ^ 26 < 2 ^ 26) by (apply Z.mod_pos_bound; lia).
  assert (Ry : 0 <= types.y p mod 2 ^ 12 < 2 ^ 12) by (apply Z.mod_pos_bound; lia).
  assert (Rz : 0 <= types.z p mod 2 ^ 26 < 2 ^ 26) by (apply Z.mod_pos_bound; lia).
  set (X := types.x p mod 2 ^ 26) in *.
  set (Y := types.y p mod 2 ^ 12) in *.
  set (Z' := types.z p mod 2 ^ 26) in *.
  pow2_consts. repeat split; Z.div_mod_to_equations; lia.
Qed.

(** X13.  [putPosition] of [types.go] keeps of each field the low bits of
    its width only: for any [int32] [x] and [z] and [int16] [y], reading back
    what it wrote gives [x] and [z] reduced to 26 bits and [y] reduced to 12
    bits, each sign-extended; a field out of range changes no other field. *)
Theorem position_truncation (p : types.position) (buf : list byte) :
  is_int32 (types.x p) -> is_int16 (types.y p) -> is_int32 (types.z p) ->
  len buf = 8 ->
  exists buf',
    types.putPosition buf p = Done (buf', (8, None)) /\
    types.getPosition buf' =
    Done (types.mkposition (sign_extend 26 (types.x p mod 2 ^ 26))
                           (sign_extend 12 (types.y p mod 2 ^ 12))
                           (sign_extend 26 (types.z p mod 2 ^ 26)),
          8, None).
Proof.
  intros Hx Hy Hz H.
  destruct (length_8 buf H) as (c0 & c1 & c2 & c3 & c4 & c5 & c6 & c7 & ->).
  rewrite putPosition_8. cbv zeta.
  destruct (putPosition_word_any p Hx Hy Hz) as [-> R].
  eexists. split; [reflexivity|].
  rewrite getPosition_8. cbv zeta.
  rewrite be_word_put by exact R.
  destruct (position_word_bit_fields p) as (-> & -> & ->).
  reflexivity.
Qed.

Lemma position_truncation_witness :
  exists buf',
    types.putPosition (repeat x00 8) (types.mkposition 33554432 2048 (-1))
      = Done (buf', (8, None)) /\
    types.getPosition buf'
      = Done (types.mkposition (-33554432) (-2048) (-1), 8, None).
Proof.
  apply (position_truncation (types.mkposition 33554432 2048 (-1))
           (repeat x00 8)).
  - unfold is_int32. simpl. lia.
  - unfold is_int16. simpl. lia.
  - unfold is_int32. simpl. lia.
  - reflexivity.
Defined.

Lemma z2b_of_mod (v : Z) (b : byte) : v mod 256 = b2z b -> z2b v = b.
Proof.
  intros H. rewrite <- (z2b_b2z b), <- H.
  unfold z2b. rewrite Z.mod_mod by lia. reflexivity.
Qed.

Lemma put_be_word (b0 b1 b2 b3 b4 b5 b6 b7 : byte) :
  let v := be_word [b0; b1; b2; b3; b4; b5; b6; b7] in
  [z2b (shr64 v 56); z2b (shr64 v 48); z2b (shr64 v 40); z2b (shr64 v 32);
   z2b (shr64 v 24); z2b (shr64 v 16); z2b (shr64 v 8); z2b v] =
  [b0; b1; b2; b3; b4; b5; b6; b7].
Proof.
  intros v. subst v. unfold be_word, shr64. cbn [fold_left].
  pose proof (b2z_range b0). pose proof (b2z_range b1).
  pose proof (b2z_range b2). pose proof (b2z_range b3).
  pose proof (b2z_range b4). pose proof (b2z_range b5).
  pose proof (b2z_range b6). pose proof (b2z_range b7).
  rewrite !Z.shiftr_div_pow2 by lia.
  change (2 ^ 56) with 72057594037927936.
  change (2 ^ 48) with 281474976710656.
  change (2 ^ 40) with 1099511627776.
  change (2 ^ 32) with 4294967296.
  change (2 ^ 24) with 16777216.
  change (2 ^ 16) with 65536.
  change (2 ^ 8) with 256.
  repeat f_equal; apply z2b_of_mod; Z.div_mod_to_equations; lia.
Qed.

Lemma sign_extend_fits (w f : Z) :
  0 < w -> 0 <= f < 2 ^ w ->
  fits_signed w (sign_extend w f) /\ sign_extend w f mod 2 ^ w = f.
Proof.
  intros Hw Hf. unfold fits_signed, sign_extend.
  assert (E : 2 ^ w = 2 * 2 ^ (w - 1)).
  { replace w with (1 + (w - 1)) at 1 by lia.
    rewrite Z.pow_add_r by lia. reflexivity. }
  assert (P : 0 < 2 ^ (w - 1)) by (apply Z.pow_pos_nonneg; lia).
  destruct (Z.ltb_spec f (2 ^ (w - 1))) as [H|H].
  - split; [lia|]. apply Z.mod_small. lia.
  - split; [lia|]. symmetry. apply Z.mod_unique with (-1); lia.
Qed.

Lemma bit_field_range (v lo w : Z) : 0 <= w -> 0 <= bit_field v lo w < 2 ^ w.
Proof.
  intros H. unfold bit_field. apply Z.mod_pos_bound.
  apply Z.pow_pos_nonneg; lia.
Qed.

Lemma bit_fields_word (v : Z) :
  0 <= v < 2 ^ 64 ->
  bit_field v 38 26 * 2 ^ 38 + bit_field v 26 12 * 2 ^ 26 + bit_field v 0 26
  = v.
Proof.
  intros H. unfold bit_field. pow2_consts. Z.div_mod_to_equations. lia.
Qed.

(** X14.  On any 8 bytes [getPosition] of [types.go] succeeds with fields
    that fit 26, 12 and 26 signed bits, and [putPosition] of the position it
    returns writes those same 8 bytes again: every 8-byte word is the
    encoding of exactly the position decoded from it. *)
Theorem position_decode_encode (buf dst : list byte) :
  len buf = 8 -> len dst = 8 ->
  exists p,
    types.getPosition buf = Done (p, 8, None) /\
    fits_signed 26 (types.x p) /\ fits_signed 12 (types.y p) /\
    fits_signed 26 (types.z p) /\
    types.putPosition dst p = Done (buf, (8, None)).
Proof.
  intros Hb Hd.
  destruct (length_8 buf Hb) as (b0 & b1 & b2 & b3 & b4 & b5 & b6 & b7 & ->).
  destruct (length_8 dst Hd) as (c0 & c1 & c2 & c3 & c4 & c5 & c6 & c7 & ->).
  pose proof (be_word_range b0 b1 b2 b3 b4 b5 b6 b7) as R.
  set (v := be_word [b0; b1; b2; b3; b4; b5; b6; b7]) in *.
  destruct (sign_extend_fits 26 (bit_field v 38 26) ltac:(lia)
              (bit_field_range v 38 26 ltac:(lia))) as [Fx Mx].
  destruct (sign_extend_fits 12 (bit_field v 26 12) ltac:(lia)
              (bit_field_range v 26 12 ltac:(lia))) as [Fy My].
  destruct (sign_extend_fits 26 (bit_field v 0 26) ltac:(lia)
              (bit_field_range v 0 26 ltac:(lia))) as [Fz Mz].
  eexists. split; [apply getPosition_8|]. fold v. cbn [types.x types.y types.z].
  split; [exact Fx|]. split; [exact Fy|]. split; [exact Fz|].
  rewrite putPosition_8. cbv zeta. cbn [types.x types.y types.z].
  destruct (putPosition_word
              (types.mkposition (sign_extend 26 (bit_field v 38 26))
                                (sign_extend 12 (bit_field v 26 12))
                                (sign_extend 26 (bit_field v 0 26)))
              Fx Fy Fz) as [W _].
  cbn [types.x types.y types.z] in W. rewrite W.
  unfold position_word. cbn [types.x types.y types.z].
  rewrite Mx, My, Mz, bit_fields_word by exact R.
  subst v. rewrite put_be_word. reflexivity.
Qed.

Lemma position_decode_encode_witness :
  exists p,
    types.getPosition [x00; x00; x40; x40; xab; xff; xfd; xff]
      = Done (p, 8, None) /\
    fits_signed 26 (types.x p) /\ fits_signed 12 (types.y p) /\
    fits_signed 26 (types.z p) /\
    types.putPosition (repeat x00 8) p
      = Done ([x00; x00; x40; x40; xab; xff; xfd; xff], (8, None)).
Proof.
  apply (position_decode_encode [x00; x00; x40; x40; xab; xff; xfd; xff]
           (repeat x00 8)); reflexivity.
Defined.

Lemma index_in (buf : list byte) (i : Z) :
  0 <= i < len buf ->
  index buf i = match nth_error buf (Z.to_nat i) with
                | Some b => Done b
                | None => Panic
                end.
Proof.
  intros H. unfold index.
  replace ((0 <=? i) && (i <? len buf)) with true; [reflexivity|].
  symmetry. rewrite andb_true_iff, Z.leb_le, Z.ltb_lt. exact H.
Qed.

Lemma assign_in (buf : list byte) (i : Z) (c : byte) :
  0 <= i < len buf -> assign buf i c = Done (set_nth buf (Z.to_nat i) c).
Proof.
  intros H. unfold assign.
  replace ((0 <=? i) && (i <? len buf)) with true; [reflexivity|].
  symmetry. rewrite andb_true_iff, Z.leb_le, Z.ltb_lt. exact H.
Qed.

Lemma BigEndian_Uint64_app (b0 b1 b2 b3 b4 b5 b6 b7 : byte) (rest : list byte) :
  BigEndian_Uint64 ([b0; b1; b2; b3; b4; b5; b6; b7] ++ rest) =
  BigEndian_Uint64 [b0; b1; b2; b3; b4; b5; b6; b7].
Proof.
  unfold BigEndian_Uint64.
  rewrite !index_in by (unfold len; rewrite ?length_set_nth; cbn [length app]; lia). reflexivity.
Qed.

Lemma BigEndian_PutUint64_app
    (c0 c1 c2 c3 c4 c5 c6 c7 : byte) (rest : list byte) (v : Z) :
  BigEndian_PutUint64 ([c0; c1; c2; c3; c4; c5; c6; c7] ++ rest) v =
  Done ([z2b (shr64 v 56); z2b (shr64 v 48); z2b (shr64 v 40);
         z2b (shr64 v 32); z2b (shr64 v 24); z2b (shr64 v 16);
         z2b (shr64 v 8); z2b v] ++ rest).
Proof.
  unfold BigEndian_PutUint64.
  rewrite index_in by (unfold len; rewrite ?length_set_nth; cbn [length app]; lia).
  change (nth_error ([c0; c1; c2; c3; c4; c5; c6; c7] ++ rest) (Z.to_nat 7))
    with (Some c7).
  cbn [bind].
  repeat (rewrite assign_in by (unfold len; rewrite ?length_set_nth; cbn [length app]; lia); cbn [bind]).
  reflexivity.
Qed.

(** X15.  The position codec of [types.go] touches the first 8 bytes only:
    on a longer buffer [getPosition] returns what it returns on the first 8
    bytes and [putPosition] writes them and keeps the bytes after them; on a
    buffer of fewer than 8 bytes both fail with [errBufTooSmall], report the
    length of the buffer, and [putPosition] writes nothing. *)
Theorem position_buffer_bounds
    (bs rest short : list byte) (p : types.position) :
  len bs = 8 -> len short < 8 ->
  types.getPosition (bs ++ rest) = types.getPosition bs /\
  (exists out,
      types.putPosition bs p = Done (out, (8, None)) /\
      types.putPosition (bs ++ rest) p = Done (out ++ rest, (8, None))) /\
  types.getPosition short
    = Done (types.position_zero, len short, Some errBufTooSmall) /\
  types.putPosition short p = Done (short, (len short, Some errBufTooSmall)).
Proof.
  intros Hb Hs.
  destruct (length_8 bs Hb) as (c0 & c1 & c2 & c3 & c4 & c5 & c6 & c7 & ->).
  assert (Hl : (len ([c0; c1; c2; c3; c4; c5; c6; c7] ++ rest)
                <? types.positionLen) = false).
  { apply Z.ltb_ge. rewrite len_app. unfold types.positionLen, len.
    cbn [length]. lia. }
  assert (Hk : (len short <? types.positionLen) = true)
    by (apply Z.ltb_lt; exact Hs).
  split; [|split; [|split]].
  - unfold types.getPosition at 1. rewrite Hl, BigEndian_Uint64_app.
    reflexivity.
  - eexists. split; [apply putPosition_8|]. cbv zeta.
    unfold types.putPosition. rewrite Hl, BigEndian_PutUint64_app.
    reflexivity.
  - unfold types.getPosition. rewrite Hk. reflexivity.
  - unfold types.putPosition. rewrite Hk. reflexivity.
Qed.

Lemma position_buffer_bounds_witness :
  types.getPosition ([x00; x00; x40; x40; xab; xff; xfd; xff] ++ [x01; x02])
  = types.getPosition [x00; x00; x40; x40; xab; xff; xfd; xff] /\
  types.putPosition [x01; x02; x03] (types.mkposition 1 2 3)
  = Done ([x01; x02; x03], (3, Some errBufTooSmall)).
Proof.
  destruct (position_buffer_bounds
              [x00; x00; x40; x40; xab; xff; xfd; xff] [x01; x02]
              [x01; x02; x03] (types.mkposition 1 2 3))
    as (A & _ & _ & B).
  - reflexivity.
  - vm_compute. reflexivity.
  - split; [exact A | exact B].
Defined.

(** ** The position codec of the split package *)

Lemma inline_fields (v : Z) :
  0 <= v < 2 ^ 64 ->
  i32 (sar64 (i64 v) 38) = i32 (types.getField v 26 38) /\
  i16 (sar64 (i64 (shl64 v 26)) 52) = i16 (types.getField v 12 26) /\
  i32 (sar64 (i64 (shl64 v 38)) 38) = i32 (types.getField v 26 0).
Proof.
  intros H. unfold types.getField.
  change (u64 (64 - (26 + 38))) with 0. change (u64 (64 - 26)) with 38.
  change (u64 (64 - (12 + 26))) with 26. change (u64 (64 - 12)) with 52.
  change (u64 (64 - (26 + 0))) with 38.
  repeat split.
  unfold shl64. rewrite Z.shiftl_0_r. unfold u64.
  rewrite Z.mod_small by exact H. reflexivity.
Qed.

(** X16.  On a buffer of at least 8 bytes the [getPosition] of the split
    package, which writes the shifts inline, returns what the one of
    [types.go] returns; on a shorter buffer both fail with [errBufTooSmall],
    the split package reporting 0 bytes and [types.go] the length of the
    buffer. *)
Theorem positions_getPosition_agrees (bs rest short : list byte) :
  len bs = 8 -> len short < 8 ->
  positions.getPosition (bs ++ rest) = types.getPosition (bs ++ rest) /\
  positions.getPosition short
    = Done (types.position_zero, 0, Some errBufTooSmall) /\
  types.getPosition short
    = Done (types.position_zero, len short, Some errBufTooSmall).
Proof.
  intros Hb Hs.
  destruct (length_8 bs Hb) as (c0 & c1 & c2 & c3 & c4 & c5 & c6 & c7 & ->).
  assert (Hl : (len ([c0; c1; c2; c3; c4; c5; c6; c7] ++ rest) <? 8) = false).
  { apply Z.ltb_ge. rewrite len_app. unfold len. cbn [length]. lia. }
  assert (Hk : (len short <? 8) = true) by (apply Z.ltb_lt; exact Hs).
  split; [|split].
  - unfold positions.getPosition, types.getPosition.
    change types.positionLen with 8. rewrite Hl.
    rewrite BigEndian_Uint64_app, BigEndian_Uint64_8. cbn [bind].
    pose proof (be_word_range c0 c1 c2 c3 c4 c5 c6 c7) as R.
    destruct (inline_fields _ R) as (-> & -> & ->). reflexivity.
  - unfold positions.getPosition. rewrite Hk. reflexivity.
  - unfold types.getPosition. change types.positionLen with 8.
    rewrite Hk. reflexivity.
Qed.

Lemma positions_getPosition_agrees_witness :
  positions.getPosition ([x00; x00; x40; x40; xab; xff; xfd; xff] ++ [x09])
  = types.getPosition ([x00; x00; x40; x40; xab; xff; xfd; xff] ++ [x09]) /\
  positions.getPosition [x01; x02]
  = Done (types.position_zero, 0, Some errBufTooSmall).
Proof.
  destruct (positions_getPosition_agrees
              [x00; x00; x40; x40; xab; xff; xfd; xff] [x09] [x01; x02])
    as (A & B & _).
  - reflexivity.
  - vm_compute. reflexivity.
  - split; [exact A | exact B].
Defined.

(** X17.  [putPosition] of the split package never stores the word it
    builds: on a buffer of at least 8 bytes it reports 8 bytes written and
    leaves the buffer as it was, so that [getPosition] afterwards returns
    the position the buffer held before, not the one given. *)
Theorem positions_putPosition_writes_nothing
    (bs rest : list byte) (p : types.position) :
  len bs = 8 ->
  positions.putPosition (bs ++ rest) p = Done (bs ++ rest, (8, None)) /\
  exists q,
    types.getPosition bs = Done (q, 8, None) /\
    forall buf',
      positions.putPosition (bs ++ rest) p = Done (buf', (8, None)) ->
      positions.getPosition buf' = Done (q, 8, None).
Proof.
  intros Hb.
  destruct (length_8 bs Hb) as (c0 & c1 & c2 & c3 & c4 & c5 & c6 & c7 & ->).
  assert (Hl : (len ([c0; c1; c2; c3; c4; c5; c6; c7] ++ rest) <? 8) = false).
  { apply Z.ltb_ge. rewrite len_app. unfold len. cbn [length]. lia. }
  assert (P : positions.putPosition ([c0; c1; c2; c3; c4; c5; c6; c7] ++ rest) p
              = Done ([c0; c1; c2; c3; c4; c5; c6; c7] ++ rest, (8, None)))
    by (unfold positions.putPosition; rewrite Hl; reflexivity).
  split; [exact P|].
  eexists. split; [apply getPosition_8|].
  intros buf' E. rewrite P in E.
  assert (Eb : buf' = [c0; c1; c2; c3; c4; c5; c6; c7] ++ rest)
    by (injection E as <-; reflexivity).
  rewrite Eb. unfold positions.getPosition. rewrite Hl.
  rewrite BigEndian_Uint64_app, BigEndian_Uint64_8. cbn [bind].
  pose proof (be_word_range c0 c1 c2 c3 c4 c5 c6 c7) as R.
  destruct (inline_fields _ R) as (-> & -> & ->).
  rewrite getField_x, getField_y, getField_z by exact R.
  reflexivity.
Qed.

Lemma positions_putPosition_writes_nothing_witness :
  positions.putPosition (repeat x00 8 ++ []) (types.mkposition 257 42 (-513))
  = Done (repeat x00 8 ++ [], (8, None)).
Proof.
  exact (proj1 (positions_putPosition_writes_nothing (repeat x00 8) []
                  (types.mkposition 257 42 (-513)) eq_refl)).
Defined.

(** ** The packet decoder on any buffer *)

Lemma packet_getVarInt_bounds (B : list byte) (L n1 i m : Z) :
  types.getVarInt B = Done (L, n1, None) ->
  types.getVarInt (skipn (Z.to_nat n1) B) = Done (i, m, None) ->
  0 < n1 /\ 0 < m /\ n1 + m <= len B.
Proof.
  intros E1 E2.
  pose proof (types_getVarInt_bound _ _ _ E1) as B1.
  pose proof (types_getVarInt_bound _ _ _ E2) as B2.
  unfold len in *. rewrite length_skipn in B2. lia.
Qed.

Lemma getPacket_payload (h : heap) (buf : slice) (L n1 i m : Z) :
  valid h buf ->
  types.getVarInt (load h buf) = Done (L, n1, None) ->
  types.getVarInt (skipn (Z.to_nat n1) (load h buf)) = Done (i, m, None) ->
  m <= L -> n1 + L <= Z.of_nat (slen buf) ->
  let k := Z.to_nat (L - m) in
  let d := firstn k (skipn (Z.to_nat (n1 + m)) (load h buf)) in
  types.getPacket h buf =
    Done (store (h ++ [repeat x00 k]) (fresh h k) d,
          (types.mkpacket i (fresh h k), n1 + L, None)) /\
  length d = k.
Proof.
  intros V E1 E2 HL Hn k d.
  pose proof (length_load h buf V) as LB.
  destruct (packet_getVarInt_bounds _ _ _ _ _ E1 E2) as (P1 & P2 & P3).
  unfold len in P3. rewrite LB in P3.
  destruct V as (Vb & Vo & Vc).
  assert (V : valid h buf) by (repeat split; assumption).
  assert (Ld : length d = k).
  { subst d. rewrite length_firstn, length_skipn, LB. subst k. lia. }
  split; [|exact Ld].
  set (h4 := h ++ [repeat x00 k]).
  set (lo := Z.to_nat (n1 + m)).
  set (src := mkslice (base buf) (off buf + lo) (lo + k - lo) (scap buf - lo)).
  assert (R : reslice buf (n1 + m) (n1 + m + (L - m)) = Done src).
  { rewrite reslice_ok by lia. subst src lo k. f_equal. f_equal; lia. }
  assert (Ls : load h4 src = d).
  { subst h4. rewrite load_app_old by exact Vb.
    subst src. rewrite load_sub by (assumption || (subst lo k; lia)).
    subst d. f_equal. lia. }
  assert (Lf : load h4 (fresh h k) = repeat x00 k).
  { unfold load, fresh. cbn [base off slen]. subst h4.
    rewrite array_app_new, skipn_O. apply firstn_all2.
    rewrite repeat_length. lia. }
  assert (C : copy_slice h4 (fresh h k) src
              = (store h4 (fresh h k) d, Z.of_nat k)).
  { unfold copy_slice, copy. rewrite Lf, Ls.
    rewrite repeat_length, Ld, Nat.min_id.
    rewrite (firstn_all2 d) by lia.
    rewrite skipn_all2 by (rewrite repeat_length; lia).
    rewrite app_nil_r. reflexivity. }
  unfold types.getPacket. rewrite E1. cbn [bind]. rewrite Z.add_0_l.
  rewrite reslice_tail by lia. cbn [bind].
  rewrite load_tail by (assumption || lia).
  rewrite E2. cbn [bind].
  destruct (Z.ltb_spec (Z.of_nat (slen buf)) (n1 + m + (L - m))) as [G|_];
    [lia|].
  unfold make. destruct (Z.ltb_spec (L - m) 0) as [G|_]; [lia|].
  fold k. fold h4. fold (fresh h k). cbn [bind].
  rewrite R. cbn [bind]. rewrite C.
  replace (n1 + m + Z.of_nat k) with (n1 + L) by (subst k; lia).
  reflexivity.
Qed.

(** X18.  Whenever the two VarInts at the front of a valid buffer decode, to
    a total length [L] and an opcode of [m] bytes with [m <= L], and the
    buffer holds the [L] bytes announced, [getPacket] of [types.go] succeeds:
    it consumes the prefix and [L] bytes, and the payload is a new array
    holding the [L - m] bytes after the opcode; every array the heap held
    before, the input buffer included, keeps its contents. *)
Theorem getPacket_succeeds (h : heap) (buf : slice) (L n1 i m : Z) :
  valid h buf ->
  types.getVarInt (load h buf) = Done (L, n1, None) ->
  types.getVarInt (skipn (Z.to_nat n1) (load h buf)) = Done (i, m, None) ->
  m <= L -> n1 + L <= Z.of_nat (slen buf) ->
  exists h' q,
    types.getPacket h buf = Done (h', (q, n1 + L, None)) /\
    types.id q = i /\
    load h' (types.data q) =
      firstn (Z.to_nat (L - m)) (skipn (Z.to_nat (n1 + m)) (load h buf)) /\
    len (load h' (types.data q)) = L - m /\
    base (types.data q) = length h /\
    extends h h'.
Proof.
  intros V E1 E2 HL Hn.
  destruct (getPacket_payload h buf L n1 i m V E1 E2 HL Hn) as [G Ld].
  cbv zeta in G, Ld.
  set (k := Z.to_nat (L - m)) in *.
  set (d := firstn k (skipn (Z.to_nat (n1 + m)) (load h buf))) in *.
  exists (store (h ++ [repeat x00 k]) (fresh h k) d),
         (types.mkpacket i (fresh h k)).
  cbn [types.id types.data].
  assert (Df : load (store (h ++ [repeat x00 k]) (fresh h k) d) (fresh h k) = d)
    by (apply load_store_same; [apply valid_fresh | exact Ld]).
  split; [exact G|]. split; [reflexivity|]. split; [exact Df|].
  split; [rewrite Df; unfold len; rewrite Ld; subst k; lia|].
  split; [reflexivity|].
  intros c Hc. unfold store. cbn [fresh base].
  rewrite array_set_array_other by lia.
  apply array_app_old. exact Hc.
Qed.

Lemma getPacket_succeeds_witness :
  exists h' q,
    types.getPacket [[x03; x80; x01; x2a; xff]] (mkslice 0 0 5 5)
      = Done (h', (q, 1 + 3, None)) /\
    types.id q = 128 /\
    load h' (types.data q) = [x2a].
Proof.
  destruct (getPacket_succeeds [[x03; x80; x01; x2a; xff]] (mkslice 0 0 5 5)
              3 1 128 2) as (h' & q & G & I & D & _).
  - unfold valid. simpl. lia.
  - reflexivity.
  - reflexivity.
  - lia.
  - simpl. lia.
  - exists h', q. split; [exact G|]. split; [exact I | exact D].
Defined.

(** X19.  When the two VarInts decode but the buffer holds fewer than the
    [L] bytes announced, [getPacket] of [types.go] fails with
    [errBufTooSmall] and reports the bytes of the length prefix and of the
    opcode alone; the heap is left as it was. *)
Theorem getPacket_truncated (h : heap) (buf : slice) (L n1 i m : Z) :
  valid h buf ->
  types.getVarInt (load h buf) = Done (L, n1, None) ->
  types.getVarInt (skipn (Z.to_nat n1) (load h buf)) = Done (i, m, None) ->
  Z.of_nat (slen buf) < n1 + L ->
  types.getPacket h buf =
  Done (h, (types.packet_zero, n1 + m, Some errBufTooSmall)).
Proof.
  intros V E1 E2 Hn.
  pose proof (length_load h buf V) as LB.
  destruct (packet_getVarInt_bounds _ _ _ _ _ E1 E2) as (P1 & P2 & P3).
  unfold len in P3. rewrite LB in P3.
  destruct V as (Vb & Vo & Vc).
  assert (V : valid h buf) by (repeat split; assumption).
  unfold types.getPacket. rewrite E1. cbn [bind]. rewrite Z.add_0_l.
  rewrite reslice_tail by lia. cbn [bind].
  rewrite load_tail by (assumption || lia).
  rewrite E2. cbn [bind].
  destruct (Z.ltb_spec (Z.of_nat (slen buf)) (n1 + m + (L - m))) as [_|G];
    [reflexivity | lia].
Qed.

Lemma getPacket_truncated_witness :
  types.getPacket [[x05; x04; x03]] (mkslice 0 0 3 3) =
  Done ([[x05; x04; x03]], (types.packet_zero, 1 + 1, Some errBufTooSmall)).
Proof.
  apply (getPacket_truncated [[x05; x04; x03]] (mkslice 0 0 3 3) 5 1 4 1).
  - unfold valid. simpl. lia.
  - reflexivity.
  - reflexivity.
  - simpl. lia.
Defined.

Lemma getPacket_short_length_panics_witness :
  types.getPacket [[x01; x80; x01; xff]] (mkslice 0 0 4 4) = Panic.
Proof.
  apply (getPacket_short_length_panics [[x01; x80; x01; xff]]
           (mkslice 0 0 4 4) 1 1 128 2).
  - unfold valid. simpl. lia.
  - reflexivity.
  - reflexivity.
  - lia.
Defined.

(** X20.  Whenever [getPacket] of [types.go] returns an error, the heap is
    the one it was given, the packet is the zero packet, and the error is
    one of the two sentinels the VarInt decoder and the length check use. *)
Theorem getPacket_error_keeps_heap
    (h h' : heap) (buf : slice) (q : types.packet) (n : Z) (e : error) :
  types.getPacket h buf = Done (h', (q, n, Some e)) ->
  h' = h /\ q = types.packet_zero /\
  (e = errBufTooSmall \/ e = errValueTooLarge).
Proof.
  assert (K : forall b v k e0,
             types.getVarInt b = Done (v, k, Some e0) ->
             e0 = errBufTooSmall \/ e0 = errValueTooLarge).
  { intros b v k e0 E. apply getVarInt_inv in E. destruct E as (u & E & _).
    unfold types.getVarN in E. rewrite getVarN_scan in E.
    destruct (scan b (Z.to_nat maxIntBytes) 0 0) as [[u' n']|];
      [discriminate|].
    unfold types.getVarN_after in E.
    destruct (len b <? maxIntBytes); inversion E; auto. }
  unfold types.getPacket. intros E.
  destruct (types.getVarInt (load h buf)) as [[[L n1] e1]|] eqn:E1;
    cbn [bind] in E; [|discriminate].
  destruct e1 as [e1|].
  { inversion E; subst. repeat split. eapply K. exact E1. }
  destruct (reslice buf (0 + n1) (Z.of_nat (slen buf))) as [t|];
    cbn [bind] in E; [|discriminate].
  destruct (types.getVarInt (load h t)) as [[[i m] e2]|] eqn:E2;
    cbn [bind] in E; [|discriminate].
  destruct e2 as [e2|].
  { inversion E; subst. repeat split. eapply K. exact E2. }
  destruct (Z.of_nat (slen buf) <? 0 + n1 + m + (L - m)).
  { inversion E; subst. repeat split. left. reflexivity. }
  destruct (make h (L - m)) as [[h1 dt]|]; cbn [bind] in E; [|discriminate].
  destruct (reslice buf (0 + n1 + m) (0 + n1 + m + (L - m))) as [src|];
    cbn [bind] in E; [|discriminate].
  destruct (copy_slice h1 dt src). discriminate.
Qed.

Lemma getPacket_error_keeps_heap_witness :
  [[x05; x04; x03]] = [[x05; x04; x03]] /\
  types.packet_zero = types.packet_zero /\
  (errBufTooSmall = errBufTooSmall \/ errBufTooSmall = errValueTooLarge).
Proof.
  apply (getPacket_error_keeps_heap [[x05; x04; x03]] [[x05; x04; x03]]
           (mkslice 0 0 3 3) types.packet_zero 2 errBufTooSmall).
  reflexivity.
Defined.

(** ** Writing a packet into a buffer that is too short *)

Lemma firstn_app_short (A : Type) (n : nat) (a b : list A) :
  (n <= length a)%nat -> firstn n (a ++ b) = firstn n a.
Proof.
  intros H. rewrite firstn_app.
  replace (n - length a)%nat with O by lia.
  rewrite firstn_O, app_nil_r. reflexivity.
Qed.

Lemma firstn_app_long (A : Type) (n : nat) (a b : list A) :
  (length a <= n)%nat -> firstn n (a ++ b) = a ++ firstn (n - length a) b.
Proof.
  intros H. rewrite firstn_app, (firstn_all2 a) by lia. reflexivity.
Qed.

(** X21.  When the destination is too short for a packet whose length is at
    most [MaxInt32] and whose payload does not share the destination's
    array, [putPacket] of [types.go] fails with [errBufTooSmall], reports
    the whole length of the destination, and has filled the destination with
    the first bytes of the wire form, wherever the packet was cut: in the
    length prefix, in the opcode or in the payload. *)
Theorem putPacket_short_buffer (h : heap) (buf : slice) (p : types.packet) :
  valid h buf -> valid h (types.data p) ->
  base (types.data p) <> base buf ->
  lenVarInt (types.id p) + Z.of_nat (slen (types.data p)) <= MaxInt32 ->
  let W := packet_bytes (types.id p) (load h (types.data p)) in
  (slen buf < length W)%nat ->
  types.putPacket h buf p =
  Done (store h buf (firstn (slen buf) W),
        (Z.of_nat (slen buf), Some errBufTooSmall)).
Proof.
  intros V Vd Hne HL W HW.
  pose proof (length_load h buf V) as LB.
  pose proof (length_load h _ Vd) as Ld.
  set (B := load h buf) in *. set (d := load h (types.data p)) in *.
  set (Lz := lenVarInt (types.id p) + Z.of_nat (slen (types.data p))) in *.
  assert (EL : lenVarInt (types.id p) + len d = Lz)
    by (unfold len; rewrite Ld; reflexivity).
  assert (EW : W = VarInt Lz ++ VarInt (types.id p) ++ d)
    by (subst W; unfold packet_bytes; rewrite EL; reflexivity).
  pose proof (lenVarInt_bound (types.id p)) as Bid.
  assert (I32 : is_int32 Lz) by (unfold is_int32, MaxInt32 in *; lia).
  pose proof (len_VarInt Lz) as LV1.
  pose proof (len_VarInt (types.id p)) as LV2.
  set (k1 := length (VarInt Lz)) in *.
  set (k2 := length (VarInt (types.id p))) in *.
  assert (LW : length W = (k1 + k2 + length d)%nat)
    by (rewrite EW, !length_app; subst k1 k2; lia).
  destruct V as (Vb & Vo & Vc).
  assert (V : valid h buf) by (repeat split; assumption).
  unfold types.putPacket. fold Lz.
  destruct (Z.gtb_spec Lz MaxInt32) as [G|_]; [lia|].
  rewrite i32_small by exact I32.
  destruct (Nat.lt_ge_cases (slen buf) k1) as [Ca|Ca].
  { (* cut in the length prefix *)
    assert (E1 : types.putVarInt (load h buf) Lz
                 = Done (firstn (slen buf) (VarInt Lz),
                         (Z.of_nat (slen buf), Some errBufTooSmall))).
    { fold B. rewrite types_putVarInt_short
        by (rewrite <- LV1; unfold len; fold k1; lia).
      unfold len. rewrite LB. reflexivity. }
    rewrite (in_place_ok _ h buf _ _ _ E1). cbn [bind].
    rewrite EW, firstn_app_short by (fold k1; lia). reflexivity. }
  (* the length prefix fits *)
  set (X1 := VarInt Lz ++ skipn k1 B).
  assert (LX1 : length X1 = slen buf)
    by (subst X1; rewrite length_app, length_skipn; fold k1; lia).
  assert (E1 : types.putVarInt (load h buf) Lz
               = Done (X1, (len (VarInt Lz), None)))
    by (apply types_putVarInt_room; fold B k1; lia).
  set (h1 := store h buf X1).
  assert (V1 : valid h1 buf) by (apply valid_store; assumption).
  assert (B1 : load h1 buf = X1) by (apply load_store_same; assumption).
  assert (T1 : load h1 (tail buf k1) = skipn k1 B).
  { rewrite load_tail by (assumption || lia). rewrite B1.
    subst X1 k1. apply skipn_app_exact. }
  rewrite (in_place_ok _ h buf _ _ _ E1). cbn [bind]. fold h1.
  rewrite Z.add_0_l.
  rewrite reslice_tail by (unfold len; fold k1; lia).
  rewrite to_nat_len. fold k1. cbn [bind].
  destruct (Nat.lt_ge_cases (slen buf) (k1 + k2)) as [Cb|Cb].
  { (* cut in the opcode *)
    set (r := (slen buf - k1)%nat).
    assert (E2 : types.putVarInt (load h1 (tail buf k1)) (types.id p)
                 = Done (firstn r (VarInt (types.id p)),
                         (Z.of_nat r, Some errBufTooSmall))).
    { rewrite T1, types_putVarInt_short
        by (rewrite <- LV2; unfold len; rewrite length_skipn; fold k2; lia).
      unfold len. rewrite length_skipn, LB. reflexivity. }
    assert (S2 : store h1 (tail buf k1) (firstn r (VarInt (types.id p)))
                 = store h buf (VarInt Lz ++ firstn r (VarInt (types.id p)))).
    { unfold tail. rewrite store_tail;
        [| assumption | lia | rewrite length_firstn; fold k2; lia].
      rewrite B1. subst X1 k1. rewrite firstn_app_exact.
      subst h1. rewrite store_store by assumption. reflexivity. }
    rewrite (in_place_ok _ h1 (tail buf k1) _ _ _ E2). cbn [bind].
    rewrite S2.
    rewrite EW, firstn_app_long by (fold k1; lia). fold k1 r.
    rewrite firstn_app_short by (fold k2; lia).
    replace (len (VarInt Lz) + Z.of_nat r) with (Z.of_nat (slen buf))
      by (unfold len; fold k1; lia).
    reflexivity. }
  (* the opcode fits: cut in the payload *)
  set (X2 := VarInt Lz ++ VarInt (types.id p) ++ skipn (k1 + k2) B).
  assert (LX2 : length X2 = slen buf).
  { subst X2. rewrite !length_app, length_skipn. fold k1 k2. lia. }
  assert (E2 : types.putVarInt (load h1 (tail buf k1)) (types.id p)
               = Done (VarInt (types.id p) ++ skipn (k1 + k2) B,
                       (len (VarInt (types.id p)), None))).
  { rewrite T1, types_putVarInt_room by (rewrite length_skipn; fold k2; lia).
    fold k2. rewrite skipn_skipn, (Nat.add_comm k2 k1). reflexivity. }
  assert (S2 : store h1 (tail buf k1)
                 (VarInt (types.id p) ++ skipn (k1 + k2) B)
               = store h buf X2).
  { unfold tail. rewrite store_tail;
      [| assumption | lia | rewrite length_app, length_skipn; fold k2; lia].
    rewrite B1. subst X1 k1. rewrite firstn_app_exact.
    subst h1. rewrite store_store by assumption. reflexivity. }
  set (h2 := store h buf X2).
  assert (V2 : valid h2 buf) by (apply valid_store; assumption).
  assert (B2 : load h2 buf = X2) by (apply load_store_same; assumption).
  assert (D2 : load h2 (types.data p) = d)
    by (subst h2; apply load_store_other; exact Hne).
  assert (T2 : load h2 (tail buf (k1 + k2)) = skipn (k1 + k2) B).
  { rewrite load_tail by (assumption || lia). rewrite B2. subst X2.
    rewrite app_assoc.
    replace (k1 + k2)%nat
      with (length (VarInt Lz ++ VarInt (types.id p)))
      by (rewrite length_app; reflexivity).
    apply skipn_app_exact. }
  set (r := (slen buf - (k1 + k2))%nat).
  assert (C3 : copy_slice h2 (tail buf (k1 + k2)) (types.data p)
               = (store h buf (firstn (slen buf) W), Z.of_nat r)).
  { unfold copy_slice, copy. rewrite T2, D2.
    rewrite length_skipn, LB. fold r.
    rewrite Nat.min_l by (subst r; lia).
    rewrite (skipn_all2 (skipn (k1 + k2) B))
      by (rewrite length_skipn; subst r; lia).
    rewrite app_nil_r. f_equal.
    unfold tail. rewrite store_tail;
      [| assumption | lia | rewrite length_firstn; subst r; lia].
    rewrite B2. subst X2.
    replace (firstn (k1 + k2)
               (VarInt Lz ++ VarInt (types.id p) ++ skipn (k1 + k2) B))
      with (VarInt Lz ++ VarInt (types.id p)).
    2:{ rewrite app_assoc.
        replace (k1 + k2)%nat
          with (length (VarInt Lz ++ VarInt (types.id p)))
          by (rewrite length_app; reflexivity).
        rewrite firstn_app_exact. reflexivity. }
    subst h2. rewrite store_store by assumption.
    f_equal. rewrite EW, app_assoc.
    rewrite (firstn_app_long _ (slen buf))
      by (rewrite length_app; fold k1 k2; lia).
    rewrite length_app. fold k1 k2 r. reflexivity. }
  rewrite (in_place_ok _ h1 (tail buf k1) _ _ _ E2). cbn [bind].
  rewrite S2. fold h2.
  rewrite reslice_tail by (unfold len; fold k1 k2; lia).
  replace (Z.to_nat (len (VarInt Lz) + len (VarInt (types.id p))))
    with (k1 + k2)%nat by (unfold len; fold k1 k2; lia).
  cbn [bind]. rewrite C3.
  destruct (Z.ltb_spec (Z.of_nat r) (Z.of_nat (slen (types.data p))))
    as [_|G]; [|subst r; lia].
  replace (len (VarInt Lz) + len (VarInt (types.id p)) + Z.of_nat r)
    with (Z.of_nat (slen buf)) by (unfold len; fold k1 k2; subst r; lia).
  reflexivity.
Qed.

Lemma putPacket_short_buffer_witness :
  types.putPacket [repeat xff 4; [x03; x02; x01; x00]] (mkslice 0 0 4 4)
    (types.mkpacket 4 (mkslice 1 0 4 4)) =
  Done ([[x05; x04; x03; x02]; [x03; x02; x01; x00]],
        (4, Some errBufTooSmall)).
Proof.
  apply (putPacket_short_buffer [repeat xff 4; [x03; x02; x01; x00]]
           (mkslice 0 0 4 4) (types.mkpacket 4 (mkslice 1 0 4 4))).
  - unfold valid. simpl. lia.
  - unfold valid. simpl. lia.
  - simpl. lia.
  - vm_compute. discriminate.
  - vm_compute. lia.
Defined.

(** ** The packet codec of the split package *)

Lemma putVarInt_agree_success (b b1 : list byte) (v m : Z) :
  types.putVarInt b v = Done (b1, (m, None)) ->
  varint.putVarInt b v = Done (b1, (m, None)).
Proof.
  unfold types.putVarInt, varint.putVarInt, types.putVarN, varint.putVarN.
  rewrite !(putVarN_loop_bytes _ (length b) b maxIntBytes 0 (u64 (u32 v))
              ltac:(lia) ltac:(unfold len; lia)).
  cbv zeta. destruct (varN_ends _ _); [auto|].
  unfold types.putVarN_after.
  destruct (_ <? maxIntBytes); discriminate.
Qed.

(** X22.  Whenever [putPacket] of [types.go] succeeds, [putPacket] of the
    split package, which calls the VarInt encoder of [varint.go], leaves the
    same heap and returns the same count; whenever [getPacket] of [types.go]
    returns a packet, so does the one of the split package, with the same
    heap, packet and count. *)
Theorem split_packet_codec_agrees
    (h h1 g g1 : heap) (buf src : slice) (p q : types.packet) (n k : Z) :
  types.putPacket h buf p = Done (h1, (n, None)) ->
  types.getPacket g src = Done (g1, (q, k, None)) ->
  packets_put.putPacket h buf p = Done (h1, (n, None)) /\
  packets.getPacket g src = Done (g1, (q, k, None)).
Proof.
  intros P G. split.
  - unfold types.putPacket in P. unfold packets_put.putPacket.
    destruct (_ >? MaxInt32); [discriminate|].
    unfold in_place in *.
    destruct (types.putVarInt (load h buf) _) as [[b1 [m1 [e1|]]]|] eqn:E1;
      cbn [bind] in P; try discriminate.
    rewrite (putVarInt_agree_success _ _ _ _ E1). cbn [bind].
    destruct (reslice buf (0 + m1) _) as [t|]; cbn [bind] in *;
      [|discriminate].
    destruct (types.putVarInt (load (store h buf b1) t) _)
      as [[b2 [m2 [e2|]]]|] eqn:E2; cbn [bind] in P; try discriminate.
    rewrite (putVarInt_agree_success _ _ _ _ E2). cbn [bind].
    destruct (reslice buf (0 + m1 + m2) _) as [t2|]; cbn [bind] in *;
      [|discriminate].
    destruct (copy_slice _ t2 (types.data p)) as [h3 m3].
    destruct (m3 <? _); [discriminate|].
    injection P as <- <-. reflexivity.
  - unfold types.getPacket in G. unfold packets.getPacket.
    destruct (types.getVarInt (load g src)) as [[[L n1] [e1|]]|] eqn:E1;
      cbn [bind] in G; try discriminate.
    rewrite (proj1 (getVarInt_agree _ _ _) E1). cbn [bind].
    destruct (reslice src (0 + n1) _) as [t|]; cbn [bind] in *;
      [|discriminate].
    destruct (types.getVarInt (load g t)) as [[[i m] [e2|]]|] eqn:E2;
      cbn [bind] in G; try discriminate.
    rewrite (proj1 (getVarInt_agree _ _ _) E2). cbn [bind].
    exact G.
Qed.

Lemma split_packet_codec_agrees_witness :
  packets_put.putPacket [repeat xff 8; [x03; x02; x01; x00]]
    (mkslice 0 0 8 8) (types.mkpacket 4 (mkslice 1 0 4 4))
  = Done ([[x05; x04; x03; x02; x01; x00; xff; xff]; [x03; x02; x01; x00]],
          (6, None)) /\
  packets.getPacket [[x02; x80; x01]] (mkslice 0 0 3 3)
  = Done ([[x02; x80; x01]; []], (types.mkpacket 128 (mkslice 1 0 0 0), 3, None)).
Proof.
  apply (split_packet_codec_agrees
           [repeat xff 8; [x03; x02; x01; x00]]
           [[x05; x04; x03; x02; x01; x00; xff; xff]; [x03; x02; x01; x00]]
           [[x02; x80; x01]] [[x02; x80; x01]; []]
           (mkslice 0 0 8 8) (mkslice 0 0 3 3)
           (types.mkpacket 4 (mkslice 1 0 4 4))
           (types.mkpacket 128 (mkslice 1 0 0 0)) 6 3);
    reflexivity.
Defined.

Lemma types_putVarInt_error (b b1 : list byte) (v m : Z) (e : error) :
  types.putVarInt b v = Done (b1, (m, Some e)) -> e = errBufTooSmall.
Proof.
  intros E.
  destruct (Z.lt_ge_cases (len b) (lenVarInt v)) as [L|L].
  - rewrite types_putVarInt_short in E by exact L. congruence.
  - rewrite (proj1 (types_putVarInt_ok b v L)) in E. discriminate.
Qed.

(** X23.  [putPacket] of [types.go] fails with [errValueTooLarge] exactly
    when the packet length [lenVarInt id + len data] exceeds [MaxInt32], and
    then nothing is written and 0 is reported; the split package fails with
    its own error, which is none of the sentinels, in exactly the same
    case. *)
Theorem putPacket_too_large_iff
    (h h' : heap) (buf : slice) (p : types.packet) (n : Z) :
  (types.putPacket h buf p = Done (h', (n, Some errValueTooLarge)) <->
     lenVarInt (types.id p) + Z.of_nat (slen (types.data p)) > MaxInt32 /\
     h' = h /\ n = 0) /\
  (packets_put.putPacket h buf p
     = Done (h', (n, Some packets_put.packet_is_too_large)) <->
     lenVarInt (types.id p) + Z.of_nat (slen (types.data p)) > MaxInt32 /\
     h' = h /\ n = 0).
Proof.
  split.
  - unfold types.putPacket.
    destruct (Z.gtb_spec (lenVarInt (types.id p)
                          + Z.of_nat (slen (types.data p))) MaxInt32) as [G|G].
    + split.
      * intros E. inversion E; subst. repeat split. lia.
      * intros (_ & -> & ->). reflexivity.
    + split; [|lia]. intros P. exfalso. unfold in_place in P.
      destruct (types.putVarInt (load h buf) _) as [[b1 [m1 [e1|]]]|] eqn:E1;
        cbn [bind] in P; try discriminate.
      { apply types_putVarInt_error in E1. subst e1. discriminate. }
      destruct (reslice buf (0 + m1) _) as [t|]; cbn [bind] in P;
        [|discriminate].
      destruct (types.putVarInt (load (store h buf b1) t) _)
        as [[b2 [m2 [e2|]]]|] eqn:E2; cbn [bind] in P; try discriminate.
      { apply types_putVarInt_error in E2. subst e2. discriminate. }
      destruct (reslice buf (0 + m1 + m2) _) as [t2|]; cbn [bind] in P;
        [|discriminate].
      destruct (copy_slice _ t2 (types.data p)) as [h3 m3].
      destruct (m3 <? _); discriminate.
  - unfold packets_put.putPacket.
    destruct (Z.gtb_spec (lenVarInt (types.id p)
                          + Z.of_nat (slen (types.data p))) MaxInt32) as [G|G].
    + split.
      * intros E. inversion E; subst. repeat split. lia.
      * intros (_ & -> & ->). reflexivity.
    + split; [|lia]. intros P. exfalso. unfold in_place in P.
      destruct (varint.putVarInt (load h buf) _) as [[b1 [m1 [e1|]]]|];
        cbn [bind] in P; try discriminate.
      destruct (reslice buf (0 + m1) _) as [t|]; cbn [bind] in P;
        [|discriminate].
      destruct (varint.putVarInt (load (store h buf b1) t) _)
        as [[b2 [m2 [e2|]]]|]; cbn [bind] in P; try discriminate.
      destruct (reslice buf (0 + m1 + m2) _) as [t2|]; cbn [bind] in P;
        [|discriminate].
      destruct (copy_slice _ t2 (types.data p)) as [h3 m3].
      destruct (m3 <? _); discriminate.
Qed.

(** ** The string codec of the split package *)

(** X24.  Whenever [putString] of [types.go] succeeds, [putString] of the
    split package, which calls the VarInt encoder of [varint.go], writes the
    same bytes and returns the same count; whenever [getString] of
    [types.go] returns a string, the one of the split package returns the
    same string and count. *)
Theorem split_string_codec_agrees
    (buf buf' s src t : list byte) (n k : Z) :
  types.putString buf s = Done (buf', (n, None)) ->
  types.getString src = Done (t, k, None) ->
  strings.putString buf s = Done (buf', (n, None)) /\
  strings.getString src = Done (t, k, None).
Proof.
  intros P G. split.
  - unfold types.putString in P. unfold strings.putString.
    destruct (len s >? MaxInt16); [discriminate|].
    destruct (types.putVarInt buf (i32 (len s))) as [[b1 [m1 [e1|]]]|] eqn:E1;
      cbn [bind] in P; try discriminate.
    rewrite (putVarInt_agree_success _ _ _ _ E1). cbn [bind]. exact P.
  - unfold types.getString in G. unfold strings.getString.
    destruct (types.getVarInt src) as [[[L m] [e1|]]|] eqn:E1;
      cbn [bind] in G; try discriminate.
    rewrite (proj1 (getVarInt_agree _ _ _) E1). cbn [bind].
    destruct (L >? MaxInt16); [discriminate | exact G].
Qed.

Lemma split_string_codec_agrees_witness :
  strings.putString (repeat x00 4) [x48; x69]
    = Done ([x02; x48; x69; x00], (3, None)) /\
  strings.getString [x02; x48; x69; xff] = Done ([x48; x69], 3, None).
Proof.
  apply (split_string_codec_agrees (repeat x00 4) [x02; x48; x69; x00]
           [x48; x69] [x02; x48; x69; xff] [x48; x69] 3 3);
    reflexivity.
Defined.

(** ** Encoding again what was decoded *)

Lemma lor_lt_pow2 (a b m : Z) :
  0 <= m -> 0 <= a < 2 ^ m -> 0 <= b < 2 ^ m -> 0 <= Z.lor a b < 2 ^ m.
Proof.
  intros Hm Ha Hb.
  assert (N : 0 <= Z.lor a b) by (apply Z.lor_nonneg; lia).
  split; [exact N|].
  destruct (Z.eq_dec (Z.lor a b) 0) as [E|E]; [lia|].
  apply Z.log2_lt_pow2; [lia|].
  rewrite Z.log2_lor by lia.
  assert (La : a = 0 \/ Z.log2 a < m).
  { destruct (Z.eq_dec a 0); [auto|]. right. apply Z.log2_lt_pow2; lia. }
  assert (Lb : b = 0 \/ Z.log2 b < m).
  { destruct (Z.eq_dec b 0); [auto|]. right. apply Z.log2_lt_pow2; lia. }
  assert (m <> 0).
  { intros ->. change (2 ^ 0) with 1 in *.
    assert (a = 0) by lia. assert (b = 0) by lia. subst. apply E. reflexivity. }
  destruct La as [-> | La]; destruct Lb as [-> | Lb];
    change (Z.log2 0) with 0 in *; lia.
Qed.

Lemma scan_value_bound (bs : list byte) :
  forall (k : nat) (i a v n : Z),
    0 <= i -> i + Z.of_nat k <= 10 -> 0 <= a < 2 ^ (7 * i) ->
    scan bs k i a = Some (v, n) ->
    0 <= v < 2 ^ (7 * n).
Proof.
  induction bs as [|b bs IH]; intros k i a v n Hi Hk Ha H.
  - destruct k; discriminate.
  - destruct k as [|k]; [discriminate|].
    cbn [scan] in H.
    set (g := shl64 (Z.land (b2z b) cmask) (u64 (i * cbits))) in *.
    assert (Hg : 0 <= g < 2 ^ (7 * (i + 1))).
    { subst g. unfold shl64, cbits.
      assert (Eu : u64 (i * 7) = i * 7) by (unfold u64; apply Z.mod_small; lia).
      rewrite Eu, land_cmask, Z.shiftl_mul_pow2 by lia.
      assert (M : 0 <= b2z b mod 128 < 128) by (apply Z.mod_pos_bound; lia).
      assert (P : 0 < 2 ^ (i * 7)) by (apply Z.pow_pos_nonneg; lia).
      replace (7 * (i + 1)) with (7 + i * 7) by lia.
      rewrite Z.pow_add_r by lia. change (2 ^ 7) with 128.
      unfold u64.
      assert (U : 0 <= (b2z b mod 128 * 2 ^ (i * 7)) mod 2 ^ 64
                  <= b2z b mod 128 * 2 ^ (i * 7)).
      { split; [apply Z.mod_pos_bound; lia|].
        apply Z.mod_le; [|lia]. apply Z.mul_nonneg_nonneg; lia. }
      assert (b2z b mod 128 * 2 ^ (i * 7) < 128 * 2 ^ (i * 7))
        by (apply Z.mul_lt_mono_pos_r; lia).
      lia. }
    assert (Ha' : 0 <= a < 2 ^ (7 * (i + 1))).
    { split; [lia|]. apply Z.lt_le_trans with (2 ^ (7 * i)); [lia|].
      apply Z.pow_le_mono_r; lia. }
    pose proof (lor_lt_pow2 a g (7 * (i + 1)) ltac:(lia) Ha' Hg) as Hv.
    destruct (Z.land (b2z b) msb =? 0).
    + inversion H; subst. exact Hv.
    + apply (IH k (i + 1) (Z.lor a g)); try lia. exact H.
Qed.

(** X25.  What [getVarInt] of [types.go] decodes can always be encoded back:
    the value is an [int32], its encoding is no longer than the bytes read,
    and decoding that encoding gives the value again. *)
Theorem getVarInt_reencode (buf rest : list byte) (v n : Z) :
  types.getVarInt buf = Done (v, n, None) ->
  is_int32 v /\ lenVarInt v <= n /\
  types.getVarInt (VarInt v ++ rest) = Done (v, lenVarInt v, None).
Proof.
  intros E.
  pose proof (types_getVarInt_bound _ _ _ E) as Bn.
  apply getVarInt_inv in E. destruct E as (u & E & ->).
  unfold types.getVarN in E. rewrite getVarN_scan in E.
  destruct (scan buf (Z.to_nat maxIntBytes) 0 0) as [[u' n']|] eqn:S.
  2:{ unfold types.getVarN_after in E.
      destruct (len buf <? maxIntBytes); discriminate. }
  inversion E; subst u' n'.
  assert (Hu : 0 <= u < 2 ^ (7 * n)).
  { apply (scan_value_bound buf (Z.to_nat maxIntBytes) 0 0 u n);
      [lia | unfold maxIntBytes; lia | change (2 ^ (7 * 0)) with 1; lia
      | exact S]. }
  assert (I : is_int32 (i32 u)).
  { unfold is_int32, i32.
    assert (0 <= (u + 2 ^ 31) mod 2 ^ 32 < 2 ^ 32)
      by (apply Z.mod_pos_bound; lia).
    lia. }
  split; [exact I|]. split.
  - unfold lenVarInt.
    assert (Eu : u64 (u32 (i32 u)) = u mod 2 ^ 32).
    { unfold u64, u32, i32. Z.div_mod_to_equations. lia. }
    rewrite Eu.
    assert (Hm : 0 <= u mod 2 ^ 32 <= u)
      by (split; [apply Z.mod_pos_bound; lia | apply Z.mod_le; lia]).
    replace n with (Z.of_nat (Z.to_nat n)) by lia.
    apply lenVarN_bound; [|lia].
    replace (Z.of_nat (Z.to_nat n)) with n by lia. lia.
  - apply types_getVarInt_ok. exact I.
Qed.

Lemma getVarInt_reencode_witness :
  is_int32 0 /\ lenVarInt 0 <= 2 /\
  types.getVarInt (VarInt 0 ++ [xff]) = Done (0, lenVarInt 0, None).
Proof.
  apply (getVarInt_reencode [x80; x00] [xff] 0 2). reflexivity.
Defined.
